(** * AsyncCppRpc: a shallow embedding of the codec, the marshalling layer
    and the connection engine, with the properties stated about them.

    The development follows the headers of the library:

    - [Fnv]         crpc/impl/method_id.h   (method identifiers)
    - [Serializer]  crpc/impl/serializer.h  (Writer and Reader)
    - [Marshal]     crpc/impl/marshal.h     (method map, server dispatch)
    - [Connection]  crpc/impl/transport.h and crpc/impl/connection.h
    - [Transports]  crpc/tcp_transport.h, crpc/pipe_transport.h,
                    crpc/copydata_transport.h, crpc/impl/sockets_impl_win8.h

    C++ exceptions are values of [outcome]; mutable members are threaded
    through explicit state records; [uint32_t] arithmetic is [Z] with the
    wrap-around written out. *)

From stdpp Require Import base list gmap.
From Stdlib Require Import ZArith Lia Bool String Ascii.
From Stdlib Require Import Strings.Byte.
From Stdlib Require Import Sorting.Sorted Sorting.Permutation.
From Stdlib Require Import DecimalNat.

Set Warnings "-register-all".

Abbreviation length := List.length.

Local Open Scope Z_scope.

(** ** Results of running a piece of C++ *)

(** [HRESULT] values are kept as their 32-bit patterns. *)
Definition HRESULT := Z.

Definition S_OK : HRESULT := 0.
Definition E_NOTIMPL : HRESULT := 0x80004001.
Definition E_ABORT : HRESULT := 0x80004004.
Definition E_FAIL : HRESULT := 0x80004005.
Definition E_INVALIDARG : HRESULT := 0x80070057.
(** [HRESULT_FROM_WIN32(ERROR_CANCELLED)], the code carried by
    [corsl::operation_cancelled]. *)
Definition E_CANCELLED : HRESULT := 0x800704C7.

(** How a call ends.  [Returned] is normal completion; [Hresult_error] is a
    thrown [corsl::hresult_error]; [Other_exception] is any other thrown
    object (what [catch (...)] sees); [Aborted] is a failed [assert] in a
    build without [NDEBUG]; [Undefined] is behaviour the language or a
    library precondition leaves undefined. *)
Inductive outcome (A : Type) : Type :=
| Returned (a : A)
| Hresult_error (hr : HRESULT)
| Other_exception
| Aborted
| Undefined.

Arguments Returned {A} a.
Arguments Hresult_error {A} hr.
Arguments Other_exception {A}.
Arguments Aborted {A}.
Arguments Undefined {A}.

(** [throw corsl::operation_cancelled{}]: an [hresult_error] with the
    cancellation code. *)
Definition operation_cancelled {A : Type} : outcome A := Hresult_error E_CANCELLED.

(** A signalled failure is a thrown exception. *)
Definition signalled_failure {A : Type} (o : outcome A) : bool :=
  match o with
  | Hresult_error _ | Other_exception => true
  | _ => false
  end.

(** An outcome that is not a thrown exception and not an abort. *)
Definition quiet {A : Type} (o : outcome A) : Prop :=
  match o with
  | Returned _ | Undefined => True
  | _ => False
  end.

Definition outcome_bind {A B : Type} (o : outcome A) (k : A -> outcome B) : outcome B :=
  match o with
  | Returned a => k a
  | Hresult_error hr => Hresult_error hr
  | Other_exception => Other_exception
  | Aborted => Aborted
  | Undefined => Undefined
  end.

(** ** crpc/impl/method_id.h *)

Module Fnv.

(** Reduction of a mathematical integer to [uint32_t]. *)
Definition uint32 (z : Z) : Z := z mod 2 ^ 32.

Definition prime : Z := 16777619.
Definition initial_val : Z := 2166136261.

(** The 8-bit code of a character of the name. *)
Definition code (c : ascii) : Z := Z.of_N (N_of_ascii c).

(** [static_cast<char>(c)]: the value of a [char].  Whether plain [char] is
    signed is fixed by the compiler; it is signed for the MSVC targets the
    library is written for, where a code of 128 or more is a negative
    [char]. *)
Definition to_char (char_is_signed : bool) (c : ascii) : Z :=
  if char_is_signed && (128 <=? code c) then code c - 256 else code c.

(** One turn of the loop body:
    [val ^= static_cast<uint32_t>(static_cast<char>(c)); val *= prime;] *)
Definition fnv_step (char_is_signed : bool) (val : Z) (c : ascii) : Z :=
  let val := Z.lxor val (uint32 (to_char char_is_signed c)) in
  uint32 (val * prime).

Fixpoint fnv_loop (char_is_signed : bool) (val : Z) (text : string) : Z :=
  match text with
  | EmptyString => val
  | String c rest => fnv_loop char_is_signed (fnv_step char_is_signed val c) rest
  end.

Definition fnv_hash (char_is_signed : bool) (text : string) : Z :=
  fnv_loop char_is_signed initial_val text.

(** marshal.h, [get_method_id]: the identifier of a described method is the
    hash of its name. *)
Definition get_method_id (char_is_signed : bool) (name : string) : Z :=
  fnv_hash char_is_signed name.

(** The reference the specification names: FNV-1a over the bytes of the
    name, basis 0x811C9DC5, prime 0x01000193, XOR of the byte before the
    multiplication, everything modulo 2^32. *)
Fixpoint fnv1a_from (hash : Z) (bytes : list Z) : Z :=
  match bytes with
  | [] => hash
  | b :: rest => fnv1a_from ((Z.lxor hash b * 0x01000193) mod 2 ^ 32) rest
  end.

Fixpoint name_bytes (name : string) : list Z :=
  match name with
  | EmptyString => []
  | String c rest => code c :: name_bytes rest
  end.

Definition fnv1a (name : string) : Z := fnv1a_from 0x811C9DC5 (name_bytes name).

(** A name made of ASCII characters only. *)
Fixpoint is_ascii (name : string) : bool :=
  match name with
  | EmptyString => true
  | String c rest => (code c <? 128) && is_ascii rest
  end.


(** [fnv_hash] of a range of [wchar_t] (the other character type the
    [fnvchar] concept admits): the characters are their codes, and
    [static_cast<char>(c)] keeps the low byte of a code. *)
Definition wchar_to_char (char_is_signed : bool) (c : Z) : Z :=
  let low := c mod 256 in
  if char_is_signed && (128 <=? low) then low - 256 else low.

Definition fnv_step_wide (char_is_signed : bool) (val : Z) (c : Z) : Z :=
  let val := Z.lxor val (uint32 (wchar_to_char char_is_signed c)) in
  uint32 (val * prime).

Fixpoint fnv_loop_wide (char_is_signed : bool) (val : Z) (text : list Z) : Z :=
  match text with
  | [] => val
  | c :: rest =>
      fnv_loop_wide char_is_signed (fnv_step_wide char_is_signed val c) rest
  end.

Definition fnv_hash_wide (char_is_signed : bool) (text : list Z) : Z :=
  fnv_loop_wide char_is_signed initial_val text.

(** The wide string whose characters are the bytes of a narrow string,
    each zero-extended to a character code.  (For a name of ASCII
    characters this is the name spelled as a wide literal; a character
    outside ASCII takes several bytes in a narrow string and its wide
    spelling is another string.) *)
Fixpoint widen (name : string) : list Z :=
  match name with
  | EmptyString => []
  | String c rest => code c :: widen rest
  end.
End Fnv.

(** ** crpc/impl/serializer.h *)

Module Serializer.

(** [std::byte]. *)
Definition byte : Type := Byte.byte.

Definition byte_of_Z (z : Z) : byte :=
  default x00 (Byte.of_N (Z.to_N (z mod 256))).

Definition Z_of_byte (b : byte) : Z := Z.of_N (Byte.to_N b).

(** Object representation of an unsigned integer of [n] bytes on the
    little-endian targets of the library, and the integer a representation
    stands for. *)
Fixpoint le_bytes (n : nat) (z : Z) : list byte :=
  match n with
  | O => []
  | S n' => byte_of_Z z :: le_bytes n' (z / 256)
  end.

Fixpoint le_value (bs : list byte) : Z :=
  match bs with
  | [] => 0
  | b :: rest => Z_of_byte b + 256 * le_value rest
  end.

(** *** The types the codec dispatches on

    [TTrivial size] is a trivially copyable type that is neither described
    nor a range (integers, floating-point numbers, [bool], enumerations,
    plain structs without hooks): the codec copies its [size] bytes.  An
    element type for which [std::is_trivially_copyable] holds is presented
    as [TTrivial (sizeof T)].  A struct reached through [cista::to_tuple]
    is the tuple of its fields.  [TVector elem] is [std::vector<T>], whose
    elements lie side by side; where [T] is not trivially copyable,
    [write_range] and [read_range] go through the elements one by one and
    treat every sequence container with [emplace_back] ([std::list<T>],
    [std::deque<T>]) as they treat the vector. *)
Inductive ty : Type :=
| TTrivial (size : nat)
| TString (char_size : nat)
| TVector (elem : ty)
| TOptional (elem : ty)
| TExpected (val err : ty)
| TPair (first second : ty)
| TTuple (elems : list ty)
| TVariant (alts : list ty)
| TDescribed (members : list ty).

(** Values.  A trivially copyable value is its object representation; a
    string is the sequence of its characters, each one an object
    representation of [char_size] bytes; [VExpected true v] holds the value
    [v], [VExpected false e] the error [e]; [VVariant i v] holds
    alternative [i]. *)
Inductive value : Type :=
| VTrivial (repr : list byte)
| VString (chars : list (list byte))
| VVector (elems : list value)
| VOptional (o : option value)
| VExpected (present : bool) (v : value)
| VPair (first second : value)
| VTuple (elems : list value)
| VVariant (index : nat) (v : value)
| VDescribed (members : list value).

Definition uint16_t : ty := TTrivial 2.
Definition uint32_t : ty := TTrivial 4.
Definition int32_t : ty := TTrivial 4.
Definition bool_t : ty := TTrivial 1.
Definition std_string : ty := TString 1.
Definition std_wstring : ty := TString 2.

(** [std::is_trivially_copyable<T>]. *)
Definition trivially_copyable (t : ty) : bool :=
  match t with
  | TTrivial _ => true
  | _ => false
  end.

(** [sizeof(T)] of a trivially copyable type. *)
Definition size_of (t : ty) : nat :=
  match t with
  | TTrivial size => size
  | _ => 0%nat
  end.

Definition object_repr (v : value) : list byte :=
  match v with
  | VTrivial repr => repr
  | _ => []
  end.

(** A default-constructed object ([T result;]).  The bytes of a
    default-initialised scalar are indeterminate; every read of such a
    type overwrites all of them, zero stands for them here. *)
Fixpoint default_value (t : ty) : value :=
  match t with
  | TTrivial size => VTrivial (repeat x00 size)
  | TString _ => VString []
  | TVector _ => VVector []
  | TOptional _ => VOptional None
  | TExpected val _ => VExpected true (default_value val)
  | TPair first second => VPair (default_value first) (default_value second)
  | TTuple elems => VTuple (map default_value elems)
  | TVariant alts =>
      VVariant 0 (match alts with
                  | t :: _ => default_value t
                  | [] => VTuple []
                  end)
  | TDescribed members => VDescribed (map default_value members)
  end.

(** Field by field over a tuple or the described members of an aggregate. *)
Section all_fields.
Context (f : ty -> value -> bool).

Fixpoint all_fields (ts : list ty) (vs : list value) {struct vs} : bool :=
  match ts, vs with
  | [], [] => true
  | t :: ts', x :: vs' => f t x && all_fields ts' vs'
  | _, _ => false
  end.
End all_fields.

(** [v] is a value of the C++ type [t]. *)
Fixpoint has_type (t : ty) (v : value) {struct v} : bool :=
  match t, v with
  | TTrivial size, VTrivial repr => Nat.eqb (length repr) size
  | TString char_size, VString chars =>
      forallb (fun c => Nat.eqb (length c) char_size) chars
  | TVector elem, VVector elems => forallb (has_type elem) elems
  | TOptional elem, VOptional o =>
      match o with
      | Some x => has_type elem x
      | None => true
      end
  | TExpected val err, VExpected present x =>
      if present then has_type val x else has_type err x
  | TPair first second, VPair a b => has_type first a && has_type second b
  | TTuple ts, VTuple vs =>
      all_fields (fun t x => has_type t x) ts vs
  | TVariant alts, VVariant index x =>
      match nth_error alts index with
      | Some t => has_type t x
      | None => false
      end
  | TDescribed ts, VDescribed vs =>
      all_fields (fun t x => has_type t x) ts vs
  | _, _ => false
  end.

(** The sizes of a value fit the widths the wire format gives them: an
    element count is cast to [uint32_t], a variant index to [uint16_t]. *)
Fixpoint sizes_fit (v : value) : bool :=
  match v with
  | VTrivial _ => true
  | VString chars => Z.of_nat (length chars) <? 2 ^ 32
  | VVector elems => (Z.of_nat (length elems) <? 2 ^ 32) && forallb sizes_fit elems
  | VOptional o =>
      match o with
      | Some x => sizes_fit x
      | None => true
      end
  | VExpected _ x => sizes_fit x
  | VPair a b => sizes_fit a && sizes_fit b
  | VTuple vs => forallb sizes_fit vs
  | VVariant index x => (Z.of_nat index <? 2 ^ 16) && sizes_fit x
  | VDescribed vs => forallb sizes_fit vs
  end.

(** [boost::mp11::mp_with_index<N>(i, f)] over the [N] alternatives [alts]:
    calls [f] with alternative [i].  Boost.Mp11 requires [i < N]; outside
    that precondition nothing is defined. *)
Section mp_with_index.
Context {A B : Type} (f : A -> outcome B).

Fixpoint mp_with_index (alts : list A) (i : nat) : outcome B :=
  match alts, i with
  | a :: _, O => f a
  | _ :: rest, S i' => mp_with_index rest i'
  | [], _ => Undefined
  end.
End mp_with_index.

(** *** The wire format

    The built-in encodings as the specification tabulates them: a trivially
    copyable value is its bytes; a string or a sequence is its length as a
    32-bit unsigned integer followed by the elements; an optional is a
    present-flag followed by the value if present; an either is a
    present-flag followed by the value or the error; a pair, a tuple and a
    described aggregate are their fields in order; a tagged union is its
    16-bit tag index followed by the selected alternative. *)
Section concat_fields.
Context (f : ty -> value -> list byte).

Fixpoint concat_fields (ts : list ty) (vs : list value) {struct vs} : list byte :=
  match ts, vs with
  | t :: ts', x :: vs' => f t x ++ concat_fields ts' vs'
  | _, _ => []
  end.
End concat_fields.

Fixpoint encoding (t : ty) (v : value) {struct v} : list byte :=
  match t, v with
  | TTrivial _, VTrivial repr => repr
  | TString _, VString chars =>
      le_bytes 4 (Z.of_nat (length chars) mod 2 ^ 32) ++ List.concat chars
  | TVector elem, VVector elems =>
      le_bytes 4 (Z.of_nat (length elems) mod 2 ^ 32) ++
      (if trivially_copyable elem
       then List.concat (map object_repr elems)
       else flat_map (encoding elem) elems)
  | TOptional elem, VOptional o =>
      match o with
      | Some x => x01 :: encoding elem x
      | None => [x00]
      end
  | TExpected val err, VExpected present x =>
      if present then x01 :: encoding val x else x00 :: encoding err x
  | TPair first second, VPair a b => encoding first a ++ encoding second b
  | TTuple ts, VTuple vs =>
      concat_fields (fun t x => encoding t x) ts vs
  | TVariant alts, VVariant index x =>
      le_bytes 2 (Z.of_nat index mod 2 ^ 16) ++
      match nth_error alts index with
      | Some t => encoding t x
      | None => []
      end
  | TDescribed ts, VDescribed vs =>
      concat_fields (fun t x => encoding t x) ts vs
  | _, _ => []
  end.

Definition fields_of (old : value) : list value :=
  match old with
  | VTuple vs | VDescribed vs => vs
  | _ => []
  end.

Section fresh_fields.
Context (f : ty -> value -> Prop).

Fixpoint fresh_fields (ts : list ty) (olds : list value) {struct ts} : Prop :=
  match ts, olds with
  | t :: ts', old :: olds' => f t old /\ fresh_fields ts' olds'
  | _, _ => True
  end.
End fresh_fields.

(** An object that a read of type [t] can be directed at and that no
    earlier read has left a value in: an optional reached without passing
    through a freshly constructed object is disengaged.  (A read of an
    absent optional leaves its target as it is.) *)
Fixpoint fresh_for (t : ty) (old : value) {struct t} : Prop :=
  match t with
  | TOptional _ => old = VOptional None
  | TPair first second =>
      match old with
      | VPair a b => fresh_for first a /\ fresh_for second b
      | _ => True
      end
  | TTuple ts =>
      fresh_fields (fun t old => fresh_for t old) ts (fields_of old)
  | TDescribed ts =>
      fresh_fields (fun t old => fresh_for t old) ts (fields_of old)
  | _ => True
  end.

Section WithState.

(** The serializer state type; [empty_serializer_state] when the connection
    has none.  The codec only carries it for the user's hooks. *)
Context {State : Type}.

(** *** Writer *)

Record Writer : Type := mkWriter {
  storage : list byte;
  w_state : State
}.

(** [Writer::add]: [storage.insert(storage.end(), begin, begin + size)]. *)
Definition add (bytes : list byte) (w : Writer) : Writer :=
  {| storage := storage w ++ bytes; w_state := w_state w |}.

(** [write(begin, end, std::true_type)]: one contiguous copy of the
    elements, skipped for an empty range. *)
Definition write_contiguous (reprs : list (list byte)) (w : Writer) : Writer :=
  match reprs with
  | [] => w
  | _ :: _ => add (List.concat reprs) w
  end.

(** [write(static_cast<uint32_t>(size))]. *)
Definition write_size (size : nat) (w : Writer) : Writer :=
  add (le_bytes 4 (Z.of_nat size mod 2 ^ 32)) w.

(** [write(static_cast<uint16_t>(val.index()))]. *)
Definition write_index (index : nat) (w : Writer) : Writer :=
  add (le_bytes 2 (Z.of_nat index mod 2 ^ 16)) w.

Definition write_bool (b : bool) (w : Writer) : Writer :=
  add [if b then x01 else x00] w.

(** [write_tuple_helper], and [mp_for_each] over the described members:
    the fields written in declaration order. *)
Section write_fields.
Context (f : ty -> value -> Writer -> Writer).

Fixpoint write_fields (ts : list ty) (vs : list value) (w : Writer) {struct vs} : Writer :=
  match ts, vs with
  | t :: ts', x :: vs' => write_fields ts' vs' (f t x w)
  | _, _ => w
  end.
End write_fields.

(** [Writer::write], all overloads.  A variant always holds one of its
    alternatives here, so the index given to [mp_with_index] is in range
    and the alternative is looked up directly. *)
Fixpoint write (t : ty) (v : value) (w : Writer) {struct v} : Writer :=
  match t, v with
  | TTrivial _, VTrivial repr => add repr w
  | TString _, VString chars =>
      write_contiguous chars (write_size (length chars) w)
  | TVector elem, VVector elems =>
      let w := write_size (length elems) w in
      if trivially_copyable elem
      then write_contiguous (map object_repr elems) w
      else fold_left (fun w e => write elem e w) elems w
  | TOptional elem, VOptional o =>
      match o with
      | Some x => write elem x (write_bool true w)
      | None => write_bool false w
      end
  | TExpected val err, VExpected present x =>
      if present
      then write val x (write_bool true w)
      else write err x (write_bool false w)
  | TPair first second, VPair a b => write second b (write first a w)
  | TTuple ts, VTuple vs =>
      write_fields (fun t x w => write t x w) ts vs w
  | TVariant alts, VVariant index x =>
      let w := write_index index w in
      match nth_error alts index with
      | Some t => write t x w
      | None => w
      end
  | TDescribed ts, VDescribed vs =>
      write_fields (fun t x w => write t x w) ts vs w
  | _, _ => w
  end.

(** [create_writer_with_state(state, args...)]: the arguments written in
    order to a new Writer. *)
Definition create_writer_with_state (state : State) (args : list (ty * value)) : Writer :=
  fold_left (fun w a => write (fst a) (snd a) w) args (mkWriter [] state).

(** [create_writer_on_with_state(std::move(data), state, arg)]. *)
Definition create_writer_on_with_state (data : list byte) (state : State)
    (t : ty) (v : value) : Writer :=
  write t v (mkWriter data state).

(** *** Reader

    [range] is the span given to the Reader and [it] the offset of the
    cursor from its beginning.  [memory_after] is the content of memory
    past the end of the span, where [it] points once it leaves the span. *)
Record Reader : Type := mkReader {
  range : list byte;
  it : nat;
  memory_after : nat -> byte;
  r_state : State
}.

(** The byte at offset [i] from the beginning of the span. *)
Definition byte_at (r : Reader) (i : nat) : byte :=
  match nth_error (range r) i with
  | Some b => b
  | None => memory_after r (i - length (range r))
  end.

(** [Reader::read(std::byte *destination, size_t size)]:
    [std::copy(it, it + size, destination); it += size;] *)
Definition read_bytes (size : nat) (r : Reader) : list byte * Reader :=
  (map (byte_at r) (seq (it r) size),
   {| range := range r; it := (it r + size)%nat;
      memory_after := memory_after r; r_state := r_state r |}).

(** [read(begin, end, std::true_type)]: the copy is skipped when the
    range is empty. *)
Definition read_contiguous (size : nat) (r : Reader) : list byte * Reader :=
  if Nat.eqb size 0 then ([], r) else read_bytes size r.

(** [uint32_t count; read(count);] *)
Definition read_count (r : Reader) : nat * Reader :=
  let '(bs, r) := read_bytes 4 r in (Z.to_nat (le_value bs), r).

(** [uint16_t index; read(index);] *)
Definition read_index (r : Reader) : nat * Reader :=
  let '(bs, r) := read_bytes 2 r in (Z.to_nat (le_value bs), r).

(** [bool present{}; read(present);] a [bool] is true when its byte is
    not zero. *)
Definition read_bool (r : Reader) : bool * Reader :=
  let '(bs, r) := read_bytes 1 r in (negb (le_value bs =? 0), r).

(** [count] consecutive objects of [size] bytes each. *)
Fixpoint split_objects (size count : nat) (bytes : list byte) : list (list byte) :=
  match count with
  | O => []
  | S count' => take size bytes :: split_objects size count' (drop size bytes)
  end.

Definition first_of (old : value) (t : ty) : value :=
  match old with
  | VPair a _ => a
  | _ => default_value t
  end.

Definition second_of (old : value) (t : ty) : value :=
  match old with
  | VPair _ b => b
  | _ => default_value t
  end.

(** [read_range(val, count, std::false_type)]: [count] elements, each read
    into a new object and appended. *)
Section read_elements.
Context (read_elem : Reader -> outcome (value * Reader)).

Fixpoint read_elements (count : nat) (r : Reader) : outcome (list value * Reader) :=
  match count with
  | O => Returned ([], r)
  | S count' =>
      outcome_bind (read_elem r) (fun vr =>
      outcome_bind (read_elements count' (snd vr)) (fun vsr =>
      Returned (fst vr :: fst vsr, snd vsr)))
  end.
End read_elements.

(** [read_tuple_helper], and [mp_for_each] over the described members: the
    fields read in declaration order, each into the field of the target. *)
Section read_fields.
Context (read_field : ty -> value -> Reader -> outcome (value * Reader)).

Fixpoint read_fields (ts : list ty) (olds : list value) (r : Reader)
    : outcome (list value * Reader) :=
  match ts with
  | [] => Returned ([], r)
  | t :: ts' =>
      outcome_bind (read_field t (hd (default_value t) olds) r) (fun vr =>
      outcome_bind (read_fields ts' (tl olds) (snd vr)) (fun vsr =>
      Returned (fst vr :: fst vsr, snd vsr)))
  end.
End read_fields.

(** [Reader::read], all overloads.  [old] is the object read into: the
    reads assign to it in place.  A string or a sequence is resized to the
    count read from the payload before its elements are read; the memory
    that takes is obtained here.  What happens when it is refused is in
    [read_with]. *)
Fixpoint read (t : ty) (old : value) (r : Reader) {struct t}
    : outcome (value * Reader) :=
  match t with
  | TTrivial size =>
      let '(bs, r) := read_bytes size r in Returned (VTrivial bs, r)
  | TString char_size =>
      let '(count, r) := read_count r in
      let '(bs, r) := read_bytes (char_size * count) r in
      Returned (VString (split_objects char_size count bs), r)
  | TVector elem =>
      let '(count, r) := read_count r in
      if trivially_copyable elem
      then
        let '(bs, r) := read_contiguous (size_of elem * count) r in
        Returned (VVector (map VTrivial (split_objects (size_of elem) count bs)), r)
      else
        outcome_bind (read_elements (read elem (default_value elem)) count r)
          (fun vsr => Returned (VVector (fst vsr), snd vsr))
  | TOptional elem =>
      let '(present, r) := read_bool r in
      if present
      then outcome_bind (read elem (default_value elem) r) (fun vr =>
           Returned (VOptional (Some (fst vr)), snd vr))
      else Returned (old, r)
  | TExpected val err =>
      let '(present, r) := read_bool r in
      if present
      then outcome_bind (read val (default_value val) r) (fun vr =>
           Returned (VExpected true (fst vr), snd vr))
      else outcome_bind (read err (default_value err) r) (fun vr =>
           Returned (VExpected false (fst vr), snd vr))
  | TPair first second =>
      outcome_bind (read first (first_of old first) r) (fun ar =>
      outcome_bind (read second (second_of old second) (snd ar)) (fun br =>
      Returned (VPair (fst ar) (fst br), snd br)))
  | TTuple ts =>
      outcome_bind (read_fields (fun t old r => read t old r) ts (fields_of old) r)
        (fun vsr => Returned (VTuple (fst vsr), snd vsr))
  | TVariant alts =>
      let '(index, r) := read_index r in
      mp_with_index (fun t =>
        outcome_bind (read t (default_value t) r) (fun vr =>
        Returned (VVariant index (fst vr), snd vr))) alts index
  | TDescribed ts =>
      outcome_bind (read_fields (fun t old r => read t old r) ts (fields_of old) r)
        (fun vsr => Returned (VDescribed (fst vsr), snd vsr))
  end.

(** The cursor moved forward by [n] bytes. *)
Definition advance (n : nat) (r : Reader) : Reader :=
  {| range := range r; it := (it r + n)%nat;
     memory_after := memory_after r; r_state := r_state r |}.

(** The cursor is inside the span and [data] is what lies between it and
    the end of the span. *)
Definition remaining (r : Reader) (data : list byte) : Prop :=
  (it r <= length (range r))%nat /\ drop (it r) (range r) = data.

(** [Reader{ data, state }]: the cursor at the beginning of the span. *)
Definition make_Reader (data : list byte) (state : State)
    (memory_after : nat -> byte) : Reader :=
  {| range := data; it := 0%nat; memory_after := memory_after; r_state := state |}.

(** [Reader::get_remaining]: the bytes between the cursor and the end of
    the span. *)
Definition get_remaining (r : Reader) : list byte := drop (it r) (range r).

(** The cursor has left the span. *)
Definition past_the_end (r : Reader) : bool :=
  Nat.ltb (length (range r)) (it r).

(** marshal.h, [unmarshal<R>]: [R result; Reader{ data, state } >> result;] *)
Definition unmarshal (t : ty) (data : list byte) (state : State)
    (memory_after : nat -> byte) : outcome value :=
  outcome_bind (read t (default_value t) (make_Reader data state memory_after))
    (fun vr => Returned (fst vr)).

(** [v], written as any type it has, is read back from any Reader whose
    cursor stands before its encoding, into any fresh target; the cursor
    ends right after the encoding. *)
Definition reads_back (v : value) : Prop :=
  forall t old (r : Reader) tail,
    has_type t v = true -> sizes_fit v = true -> fresh_for t old ->
    remaining r (encoding t v ++ tail) ->
    read t old r = Returned (v, advance (length (encoding t v)) r).

(** [Writer w; w << v; w.get()]: the payload that carries [v]. *)
Definition payload_of (t : ty) (v : value) (state : State) : list byte :=
  storage (write t v (mkWriter [] state)).

End WithState.

Arguments Writer : clear implicits.
Arguments reads_back : clear implicits.
Arguments Reader : clear implicits.

(** *** Induction over nested values and types *)

Section value_induction.
Variable P : value -> Prop.
Hypothesis case_trivial : forall repr, P (VTrivial repr).
Hypothesis case_string : forall chars, P (VString chars).
Hypothesis case_vector : forall elems, Forall P elems -> P (VVector elems).
Hypothesis case_none : P (VOptional None).
Hypothesis case_some : forall x, P x -> P (VOptional (Some x)).
Hypothesis case_expected : forall present x, P x -> P (VExpected present x).
Hypothesis case_pair : forall a b, P a -> P b -> P (VPair a b).
Hypothesis case_tuple : forall vs, Forall P vs -> P (VTuple vs).
Hypothesis case_variant : forall index x, P x -> P (VVariant index x).
Hypothesis case_described : forall vs, Forall P vs -> P (VDescribed vs).

Fixpoint value_nested_ind (v : value) : P v :=
  let all :=
    fix all (vs : list value) : Forall P vs :=
      match vs with
      | [] => List.Forall_nil P
      | x :: vs' => List.Forall_cons P x vs' (value_nested_ind x) (all vs')
      end in
  match v with
  | VTrivial repr => case_trivial repr
  | VString chars => case_string chars
  | VVector elems => case_vector elems (all elems)
  | VOptional None => case_none
  | VOptional (Some x) => case_some x (value_nested_ind x)
  | VExpected present x => case_expected present x (value_nested_ind x)
  | VPair a b => case_pair a b (value_nested_ind a) (value_nested_ind b)
  | VTuple vs => case_tuple vs (all vs)
  | VVariant index x => case_variant index x (value_nested_ind x)
  | VDescribed vs => case_described vs (all vs)
  end.
End value_induction.

Section ty_induction.
Variable P : ty -> Prop.
Hypothesis case_trivial : forall size, P (TTrivial size).
Hypothesis case_string : forall char_size, P (TString char_size).
Hypothesis case_vector : forall elem, P elem -> P (TVector elem).
Hypothesis case_optional : forall elem, P elem -> P (TOptional elem).
Hypothesis case_expected : forall val err, P val -> P err -> P (TExpected val err).
Hypothesis case_pair : forall a b, P a -> P b -> P (TPair a b).
Hypothesis case_tuple : forall ts, Forall P ts -> P (TTuple ts).
Hypothesis case_variant : forall ts, Forall P ts -> P (TVariant ts).
Hypothesis case_described : forall ts, Forall P ts -> P (TDescribed ts).

Fixpoint ty_nested_ind (t : ty) : P t :=
  let all :=
    fix all (ts : list ty) : Forall P ts :=
      match ts with
      | [] => List.Forall_nil P
      | x :: ts' => List.Forall_cons P x ts' (ty_nested_ind x) (all ts')
      end in
  match t with
  | TTrivial size => case_trivial size
  | TString char_size => case_string char_size
  | TVector elem => case_vector elem (ty_nested_ind elem)
  | TOptional elem => case_optional elem (ty_nested_ind elem)
  | TExpected val err => case_expected val err (ty_nested_ind val) (ty_nested_ind err)
  | TPair a b => case_pair a b (ty_nested_ind a) (ty_nested_ind b)
  | TTuple ts => case_tuple ts (all ts)
  | TVariant ts => case_variant ts (all ts)
  | TDescribed ts => case_described ts (all ts)
  end.
End ty_induction.

(** Sample values: a 32-bit integer and a narrow string. *)
Definition int32 (z : Z) : value := VTrivial (le_bytes 4 z).

Definition narrow_string (text : string) : value :=
  VString (map (fun c => [byte_of_Z (Fnv.code c)]) (list_ascii_of_string text)).





(** *** Further members of the Reader, and what a type contains *)

Section ReaderMembers.
Context {State : Type}.

(** [Reader::read_bytes(std::span<std::byte> destination)], which is
    [read_range(destination)]: the count is read; a span has no [resize],
    so [read(val.begin(), val.end(), std::true_type)] then copies as many
    elements as the destination has, [size] of them, of one byte each. *)
Definition Reader_read_bytes (size : nat) (r : Reader State)
    : list byte * Reader State :=
  let '(count, r) := read_count r in
  read_contiguous (1 * size) r.

(** The [n] bytes at the cursor: those of the span as far as it goes,
    those of the memory after it beyond. *)
Definition at_cursor (r : Reader State) (n : nat) : list byte :=
  map (byte_at r) (seq (it r) n).

End ReaderMembers.


(** *** Reads on a machine that can refuse memory

    [read] takes every [resize], [reserve] and [resize_and_overwrite] to
    obtain the memory it asks for.  [read_with allocate] is the same read
    where [allocate t count] tells whether a container of type [t] obtains
    the memory for [count] elements.  A request that is refused ends the
    read with [std::bad_alloc] or [std::length_error], an exception that is
    not an [hresult_error]; a request for no element is always granted.
    The count is the one read from the payload, so whoever sends the
    payload chooses what is asked for. *)
Section Allocation.
Context {State : Type}.
Context (allocate : ty -> nat -> bool).

Definition granted (t : ty) (count : nat) : bool :=
  Nat.eqb count 0 || allocate t count.

Fixpoint read_with (t : ty) (old : value) (r : Reader State) {struct t}
    : outcome (value * Reader State) :=
  match t with
  | TTrivial size =>
      let '(bs, r) := read_bytes size r in Returned (VTrivial bs, r)
  | TString char_size =>
      let '(count, r) := read_count r in
      if granted (TString char_size) count
      then
        let '(bs, r) := read_bytes (char_size * count) r in
        Returned (VString (split_objects char_size count bs), r)
      else Other_exception
  | TVector elem =>
      let '(count, r) := read_count r in
      if granted (TVector elem) count
      then
        if trivially_copyable elem
        then
          let '(bs, r) := read_contiguous (size_of elem * count) r in
          Returned (VVector (map VTrivial (split_objects (size_of elem) count bs)), r)
        else
          outcome_bind (read_elements (read_with elem (default_value elem)) count r)
            (fun vsr => Returned (VVector (fst vsr), snd vsr))
      else Other_exception
  | TOptional elem =>
      let '(present, r) := read_bool r in
      if present
      then outcome_bind (read_with elem (default_value elem) r) (fun vr =>
           Returned (VOptional (Some (fst vr)), snd vr))
      else Returned (old, r)
  | TExpected val err =>
      let '(present, r) := read_bool r in
      if present
      then outcome_bind (read_with val (default_value val) r) (fun vr =>
           Returned (VExpected true (fst vr), snd vr))
      else outcome_bind (read_with err (default_value err) r) (fun vr =>
           Returned (VExpected false (fst vr), snd vr))
  | TPair first second =>
      outcome_bind (read_with first (first_of old first) r) (fun ar =>
      outcome_bind (read_with second (second_of old second) (snd ar)) (fun br =>
      Returned (VPair (fst ar) (fst br), snd br)))
  | TTuple ts =>
      outcome_bind
        (read_fields (fun t old r => read_with t old r) ts (fields_of old) r)
        (fun vsr => Returned (VTuple (fst vsr), snd vsr))
  | TVariant alts =>
      let '(index, r) := read_index r in
      mp_with_index (fun t =>
        outcome_bind (read_with t (default_value t) r) (fun vr =>
        Returned (VVariant index (fst vr), snd vr))) alts index
  | TDescribed ts =>
      outcome_bind
        (read_fields (fun t old r => read_with t old r) ts (fields_of old) r)
        (fun vsr => Returned (VDescribed (fst vsr), snd vsr))
  end.




End Allocation.

(** *** Ranges that have no overload of their own

    A [common_range] other than [std::vector] and [std::basic_string]
    ([std::list], [std::deque], [std::set], ...) is written by
    [write_range] and read by [read_range], as a vector is.  Where its
    elements are not trivially copyable they are written and read one by
    one.  Where they are, both sides take the [std::true_type] path: one
    copy of [sizeof(T) * n] bytes at the address of the first element, as
    if the elements lay side by side.  In a range that keeps each element
    in a node of its own they do not: [behind] is the content of the memory
    that follows the first element. *)
Section Scattered.
Context {State : Type}.




End Scattered.
End Serializer.

(** ** crpc/impl/marshal.h *)

Module Marshal.
Import Serializer.

Definition method_id : Type := Z.
Definition payload_t : Type := list byte.

(** The return shape of a described method ([Member::result_type]):
    [void], [corsl::future<void>] or [corsl::future<R>]. *)
Inductive result_type : Type :=
| ret_void
| ret_future_void
| ret_future (R : ty).

(** A described member of the interface: its name, its return shape and
    the types of [stored_args_t]. *)
Record method_descriptor : Type := {
  name : string;
  result : result_type;
  stored_args : list ty
}.

(** [is_void_method]. *)
Definition is_void (M : method_descriptor) : bool :=
  match result M with
  | ret_void => true
  | _ => false
  end.

Definition stored_args_t (M : method_descriptor) : ty := TTuple (stored_args M).

Record method_map_entry : Type := {
  entry_name : method_id;
  ordinal : nat
}.

(** The order the map is sorted by. *)
Definition name_le (a b : method_map_entry) : Prop := entry_name a <= entry_name b.

(** The state of a binary search for [value] in [map]: everything before
    [first] is smaller than [value] and everything from [first + count] on
    is not. *)
Definition brackets (map : list method_map_entry) (value : method_id)
    (first count : nat) : Prop :=
  (first + count <= length map)%nat /\
  (forall j e, (j < first)%nat -> nth_error map j = Some e -> entry_name e < value) /\
  (forall j e, (first + count <= j)%nat -> nth_error map j = Some e ->
               value <= entry_name e).

Section Methods.

(** Signedness of plain [char] (see [Fnv.to_char]) and the described
    members of the interface, in declaration order. *)
Context (char_is_signed : bool) (Methods : list method_descriptor).

Definition get_method_id (M : method_descriptor) : method_id :=
  Fnv.get_method_id char_is_signed (name M).

(** The loop of [build_method_map]:
    [result[ord] = { get_method_id<M>(), ord }; ++ord;] *)
Fixpoint fill_method_map (ord : nat) (methods : list method_descriptor)
    : list method_map_entry :=
  match methods with
  | [] => []
  | M :: rest =>
      {| entry_name := get_method_id M; ordinal := ord |}
      :: fill_method_map (S ord) rest
  end.

(** [sr::sort(result, sr::less{}, name)], as an insertion sort. *)
Fixpoint insert_entry (e : method_map_entry) (sorted : list method_map_entry)
    : list method_map_entry :=
  match sorted with
  | [] => [e]
  | x :: rest =>
      if entry_name e <=? entry_name x
      then e :: sorted
      else x :: insert_entry e rest
  end.

Definition sort_by_name (entries : list method_map_entry) : list method_map_entry :=
  fold_right insert_entry [] entries.

Definition build_method_map : list method_map_entry :=
  sort_by_name (fill_method_map 0 Methods).

Definition static_method_map : list method_map_entry := build_method_map.

(** [sr::lower_bound(map, value, sr::less{}, name)]: the binary search of
    the standard library over the positions [first, first + count).
    [fuel] bounds the number of halvings. *)
Fixpoint lower_bound_loop (fuel : nat) (map : list method_map_entry)
    (value : method_id) (first count : nat) : nat :=
  match fuel with
  | O => first
  | S fuel' =>
      if Nat.eqb count 0 then first
      else
        let step := (count / 2)%nat in
        let it := (first + step)%nat in
        match nth_error map it with
        | Some e =>
            if entry_name e <? value
            then lower_bound_loop fuel' map value (S it) (count - (step + 1))
            else lower_bound_loop fuel' map value first step
        | None => first
        end
  end.

Definition lower_bound (map : list method_map_entry) (value : method_id) : nat :=
  lower_bound_loop (length map) map value 0 (length map).

(** The condition of [dispatch] and [void_dispatch]:
    [it != static_method_map.end() && it->name == name]; the entry found. *)
Definition find_entry (name : method_id) : option method_map_entry :=
  match nth_error static_method_map (lower_bound static_method_map name) with
  | Some e => if entry_name e =? name then Some e else None
  | None => None
  end.

Section Server.

(** The serializer state of the connection, the memory after a payload
    (see [Serializer.Reader]) and the user's implementation: the outcome of
    the callable of the member with the given ordinal applied to the
    argument tuple ([std::apply]), awaited when it returns a future. *)
Context {State : Type} (state : State) (memory_after : nat -> byte).
Context (implementation : nat -> value -> outcome value).

(** A call of a callable of the implementation. *)
Record invocation : Type := {
  invoked_ordinal : nat;
  invoked_args : value
}.

(** [typename Member::stored_args_t tuple; Reader{ data, get_state() } >> tuple;] *)
Definition read_args (M : method_descriptor) (data : payload_t) : outcome value :=
  unmarshal (stored_args_t M) data state memory_after.

(** The body [dispatch] runs for the member [M] with ordinal [I]: the
    result, and the calls made of the implementation. *)
Definition dispatch_member (I : nat) (M : method_descriptor) (data : payload_t)
    : outcome payload_t * list invocation :=
  match read_args M data with
  | Returned tuple =>
      match result M with
      | ret_future_void =>
          (outcome_bind (implementation I tuple) (fun _ => Returned []),
           [{| invoked_ordinal := I; invoked_args := tuple |}])
      | ret_future R =>
          (outcome_bind (implementation I tuple) (fun result =>
             Returned (storage (create_writer_on_with_state [] state R result))),
           [{| invoked_ordinal := I; invoked_args := tuple |}])
      | ret_void => (Returned [], [])
      end
  | Hresult_error hr => (Hresult_error hr, [])
  | Other_exception => (Other_exception, [])
  | Aborted => (Aborted, [])
  | Undefined => (Undefined, [])
  end.

(** [marshal_server::dispatch].  [mp_with_index<N>(it->ordinal, ...)]
    selects the member at the ordinal of the entry; an ordinal outside the
    members is outside its precondition. *)
Definition dispatch (name : method_id) (data : payload_t)
    : outcome payload_t * list invocation :=
  match find_entry name with
  | Some e =>
      match nth_error Methods (ordinal e) with
      | Some M => dispatch_member (ordinal e) M data
      | None => (Undefined, [])
      end
  | None => (Hresult_error E_NOTIMPL, [])
  end.

(** The body [void_dispatch] runs for the member [M] with ordinal [I]. *)
Definition void_dispatch_member (I : nat) (M : method_descriptor) (data : payload_t)
    : outcome unit * list invocation :=
  match result M with
  | ret_void =>
      match read_args M data with
      | Returned tuple =>
          (outcome_bind (implementation I tuple) (fun _ => Returned tt),
           [{| invoked_ordinal := I; invoked_args := tuple |}])
      | Hresult_error hr => (Hresult_error hr, [])
      | Other_exception => (Other_exception, [])
      | Aborted => (Aborted, [])
      | Undefined => (Undefined, [])
      end
  | _ => (Returned tt, [])
  end.

(** [marshal_server::void_dispatch]. *)
Definition void_dispatch (name : method_id) (data : payload_t)
    : outcome unit * list invocation :=
  match find_entry name with
  | Some e =>
      match nth_error Methods (ordinal e) with
      | Some M => void_dispatch_member (ordinal e) M data
      | None => (Undefined, [])
      end
  | None => (Hresult_error E_NOTIMPL, [])
  end.

(** The client side of a call: [create_writer_with_state(get_state(),
    args...).get()], the payload of the request for the arguments. *)
Definition marshal_args (args : list (ty * value)) : payload_t :=
  storage (create_writer_with_state state args).

End Server.

End Methods.

(** *** The calculator service of the sample (shared/common.h) *)

(** [telemetry_info]: event, type, success, time (written by its hook as a
    [time_t]). *)
Definition telemetry_info : ty :=
  TTuple [std_string; TTrivial 4; bool_t; TTrivial 8].

Definition error_t : ty := TTuple [std_string; TTrivial 4].

Definition int_or_string : ty := TVariant [int32_t; std_string].

Definition CalculatorService : list method_descriptor :=
  [ {| name := "simple_sum"; result := ret_future int32_t;
       stored_args := [int32_t; int32_t] |};
    {| name := "array_sum"; result := ret_future int32_t;
       stored_args := [TVector int32_t] |};
    {| name := "string_concatenate"; result := ret_future std_string;
       stored_args := [std_string; std_string] |};
    {| name := "universal_add";
       result := ret_future (TVariant [int32_t; std_string; error_t]);
       stored_args := [int_or_string; int_or_string] |};
    {| name := "send_telemetry_event"; result := ret_void;
       stored_args := [telemetry_info] |} ].

Definition int_of (v : value) : Z := le_value (object_repr v).

Definition chars_of (v : value) : list (list byte) :=
  match v with
  | VString chars => chars
  | _ => []
  end.

(** The implementation of the sample server (sample_rpc_server/server.cpp). *)
Definition calculator (I : nat) (args : value) : outcome value :=
  match I, args with
  | 0%nat, VTuple [a; b] => Returned (int32 (int_of a + int_of b))
  | 1%nat, VTuple [VVector values] =>
      Returned (int32 (fold_right (fun v sum => int_of v + sum) 0 values))
  | 2%nat, VTuple [a; b] => Returned (VString (chars_of a ++ chars_of b))
  | 3%nat, VTuple [VVariant i a; VVariant j b] =>
      if negb (Nat.eqb i j)
      then Returned (VVariant 2 (VTuple [narrow_string "Incompatible argument types";
                                         VTrivial (le_bytes 4 1)]))
      else if Nat.eqb i 0
      then Returned (VVariant 0 (int32 (int_of a + int_of b)))
      else Returned (VVariant 1 (VString (chars_of a ++ chars_of b)))
  | 4%nat, VTuple [_] => Returned (VTuple [])
  | _, _ => Other_exception
  end.


(** *** The client side: [marshal_client] *)

Section Client.
Context {State : Type} (state : State) (memory_after : nat -> byte).

(** The payload a stub built by [build_call_member] sends for its
    arguments: empty for a member without parameters ([call(name, {})]),
    otherwise [create_writer_with_state(get_state(), p1, ..., pn).get()],
    each argument written as its parameter type. *)
Definition call_payload (params : list ty) (args : list value) : payload_t :=
  match params with
  | [] => []
  | _ :: _ => marshal_args state (combine params args)
  end.


End Client.

(** [only_void_methods] of a marshaller (client or server) for an
    interface: every method returns [void]. *)
Definition only_void_methods (Methods : list method_descriptor) : bool :=
  forallb is_void Methods.
End Marshal.

(** ** crpc/impl/transport.h and crpc/impl/connection.h *)

Module Connection.
Import Serializer Marshal.

(** *** transport.h: messages *)

Inductive call_type : Type :=
| request
| void_request
| response
| response_error.

Definition call_type_eqb (a b : call_type) : bool :=
  match a, b with
  | request, request | void_request, void_request
  | response, response | response_error, response_error => true
  | _, _ => false
  end.

(** [message_t]: the members of [message_header] and the payload.
    [call_id] is the 30-bit bit-field, [type] the 2-bit one. *)
Record message_t : Type := {
  call_id : Z;
  type : call_type;
  id : method_id;
  payload : payload_t
}.

(** [message_t{ message_header{call_id, type, id}, payload }]: the call
    identifier given is stored in a field of 30 bits. *)
Definition make_message (a_call_id : Z) (a_type : call_type) (an_id : method_id)
    (a_payload : payload_t) : message_t :=
  {| call_id := a_call_id mod 2 ^ 30; type := a_type; id := an_id;
     payload := a_payload |}.

(** *** connection.h *)

Inductive captured_on : Type :=
| send
| receive
| stop_.

(** What a [corsl::promise<payload_t>] is completed with: [set_async] with
    a payload, [set_exception_async] with a [corsl::hresult_error] carrying
    a code, or [set_exception_async] with [corsl::operation_cancelled]. *)
Inductive completion : Type :=
| payload_set (p : payload_t)
| hresult_error_set (code : HRESULT)
| operation_cancelled_set.

(** The server marshaller a connection inherits from. *)
Record server_marshaller : Type := {
  srv_dispatch : method_id -> payload_t -> outcome payload_t;
  srv_void_dispatch : method_id -> payload_t -> outcome unit
}.

(** [server_of<Interface>] with an implementation. *)
Definition server_of {State : Type} (char_is_signed : bool)
    (Methods : list method_descriptor) (state : State)
    (memory_after : nat -> byte) (implementation : nat -> value -> outcome value)
    : server_marshaller :=
  {| srv_dispatch := fun name data =>
       fst (dispatch char_is_signed Methods state memory_after implementation name data);
     srv_void_dispatch := fun name data =>
       fst (void_dispatch char_is_signed Methods state memory_after implementation name data) |}.

(** The members of a [connection], and the part of the rest of the program
    it acts on:
    - [cancel] is [cancel.is_cancelled()] of the current cancellation source;
    - [transport] tells whether the [std::optional<Transport>] holds a value;
    - [write_queue] holds the messages pushed and not yet taken by the writer;
    - [completions] maps a call identifier to the address of the promise of
      the caller;
    - [error_handler] and the handlers given to [on_error] are named by
      numbers;
    - [promises] records, for the promise at each address, the completions
      delivered to it, in order; [next_promise] is the address the next
      promise of a [do_call] frame gets;
    - [handler_calls] records the calls of error handlers;
    - [written] records the messages handed to [transport->write]. *)
Record connection : Type := {
  cancel : bool;
  transport : bool;
  write_queue : list message_t;
  completions : gmap Z nat;
  last_call_id : Z;
  running : bool;
  error_handler : option nat;
  last_error : option (HRESULT * captured_on);
  promises : gmap nat (list completion);
  next_promise : nat;
  handler_calls : list (nat * HRESULT * captured_on);
  written : list message_t
}.

(** A connection after its constructor. *)
Definition new_connection : connection :=
  {| cancel := false; transport := false; write_queue := [];
     completions := ∅; last_call_id := 0; running := false;
     error_handler := None; last_error := None;
     promises := ∅; next_promise := 0; handler_calls := []; written := [] |}.

Definition set_cancel (b : bool) (c : connection) : connection :=
  {| cancel := b; transport := transport c; write_queue := write_queue c;
     completions := completions c; last_call_id := last_call_id c;
     running := running c; error_handler := error_handler c;
     last_error := last_error c; promises := promises c;
     next_promise := next_promise c; handler_calls := handler_calls c;
     written := written c |}.

Definition set_transport (b : bool) (c : connection) : connection :=
  {| cancel := cancel c; transport := b; write_queue := write_queue c;
     completions := completions c; last_call_id := last_call_id c;
     running := running c; error_handler := error_handler c;
     last_error := last_error c; promises := promises c;
     next_promise := next_promise c; handler_calls := handler_calls c;
     written := written c |}.

Definition set_running (b : bool) (c : connection) : connection :=
  {| cancel := cancel c; transport := transport c; write_queue := write_queue c;
     completions := completions c; last_call_id := last_call_id c;
     running := b; error_handler := error_handler c;
     last_error := last_error c; promises := promises c;
     next_promise := next_promise c; handler_calls := handler_calls c;
     written := written c |}.

Definition set_write_queue (q : list message_t) (c : connection) : connection :=
  {| cancel := cancel c; transport := transport c; write_queue := q;
     completions := completions c; last_call_id := last_call_id c;
     running := running c; error_handler := error_handler c;
     last_error := last_error c; promises := promises c;
     next_promise := next_promise c; handler_calls := handler_calls c;
     written := written c |}.

Definition set_completions (m : gmap Z nat) (c : connection) : connection :=
  {| cancel := cancel c; transport := transport c; write_queue := write_queue c;
     completions := m; last_call_id := last_call_id c;
     running := running c; error_handler := error_handler c;
     last_error := last_error c; promises := promises c;
     next_promise := next_promise c; handler_calls := handler_calls c;
     written := written c |}.

Definition set_promises (ps : gmap nat (list completion)) (c : connection) : connection :=
  {| cancel := cancel c; transport := transport c; write_queue := write_queue c;
     completions := completions c; last_call_id := last_call_id c;
     running := running c; error_handler := error_handler c;
     last_error := last_error c; promises := ps;
     next_promise := next_promise c; handler_calls := handler_calls c;
     written := written c |}.

(** [write_queue.push(m)]. *)
Definition push (m : message_t) (c : connection) : connection :=
  set_write_queue (write_queue c ++ [m]) c.

(** [last_call_id.fetch_add(1)] on the [std::atomic<uint32_t>]: the value
    before, and the connection after. *)
Definition fetch_add_call_id (c : connection) : Z * connection :=
  (last_call_id c,
   {| cancel := cancel c; transport := transport c; write_queue := write_queue c;
      completions := completions c;
      last_call_id := (last_call_id c + 1) mod 2 ^ 32;
      running := running c; error_handler := error_handler c;
      last_error := last_error c; promises := promises c;
      next_promise := next_promise c; handler_calls := handler_calls c;
      written := written c |}).

(** A completion delivered to the promise at address [p]. *)
Definition deliver (p : nat) (x : completion)
    (ps : gmap nat (list completion)) : gmap nat (list completion) :=
  <[p := default [] (ps !! p) ++ [x]]> ps.

(** The completions the caller awaiting the promise at [p] has observed. *)
Definition observed (c : connection) (p : nat) : list completion :=
  default [] (promises c !! p).

(** [error_on_background(hr, on)]: the handler installed, if any, is taken
    out and called; otherwise the error is kept for a later [on_error]. *)
Definition error_on_background (hr : HRESULT) (on : captured_on) (c : connection)
    : connection :=
  match error_handler c with
  | Some handler =>
      {| cancel := cancel c; transport := transport c; write_queue := write_queue c;
         completions := completions c; last_call_id := last_call_id c;
         running := running c; error_handler := None;
         last_error := last_error c; promises := promises c;
         next_promise := next_promise c;
         handler_calls := handler_calls c ++ [(handler, hr, on)];
         written := written c |}
  | None =>
      {| cancel := cancel c; transport := transport c; write_queue := write_queue c;
         completions := completions c; last_call_id := last_call_id c;
         running := running c; error_handler := error_handler c;
         last_error := Some (hr, on); promises := promises c;
         next_promise := next_promise c; handler_calls := handler_calls c;
         written := written c |}
  end.

(** [on_error(f)]. *)
Definition on_error (f : nat) (c : connection) : connection :=
  match last_error c with
  | Some (hr, on) =>
      {| cancel := cancel c; transport := transport c; write_queue := write_queue c;
         completions := completions c; last_call_id := last_call_id c;
         running := running c; error_handler := error_handler c;
         last_error := None; promises := promises c;
         next_promise := next_promise c;
         handler_calls := handler_calls c ++ [(f, hr, on)];
         written := written c |}
  | None =>
      {| cancel := cancel c; transport := transport c; write_queue := write_queue c;
         completions := completions c; last_call_id := last_call_id c;
         running := running c; error_handler := Some f;
         last_error := last_error c; promises := promises c;
         next_promise := next_promise c; handler_calls := handler_calls c;
         written := written c |}
  end.

(** *** What holds of every connection *)

(** A pending call has a promise that has been allocated and not been
    completed; two pending calls have two promises; a promise that has been
    completed has been completed once. *)
Record invariant (c : connection) : Prop := {
  inv_pending : forall key p,
    completions c !! key = Some p ->
    (p < next_promise c)%nat /\ promises c !! p = None;
  inv_distinct : forall key1 key2 p,
    completions c !! key1 = Some p -> completions c !! key2 = Some p -> key1 = key2;
  inv_completed : forall p l,
    promises c !! p = Some l -> (p < next_promise c)%nat /\ exists x, l = [x]
}.

(** The part of a connection the invariant speaks of. *)
Definition same_calls (c c' : connection) : Prop :=
  completions c' = completions c /\
  promises c' = promises c /\
  next_promise c' = next_promise c.

Section Connection.

(** The configuration of the connection type and of the build:
    - [has_server]: a server marshaller is among the traits, [server] is it;
    - [NDEBUG]: [assert] is compiled out;
    - [cancelled_token_throws]: whether obtaining a
      [corsl::cancellation_token] from a source that is already cancelled
      ([cancellation_token token{ co_await cancel }]) throws
      [operation_cancelled]; corsl decides. *)
Context (has_server : bool) (server : server_marshaller).
Context (NDEBUG : bool) (cancelled_token_throws : bool).

(** [assert(condition)]. *)
Definition assert {A : Type} (condition : bool) (k : outcome A) : outcome A :=
  if NDEBUG || condition then k else Aborted.

(** [cancellation_token token{ co_await cancel }]. *)
Definition await_cancel {A : Type} (c : connection) (k : outcome A) : outcome A :=
  if cancel c && cancelled_token_throws then operation_cancelled else k.

(** The state of the reader the request handlers share: the counter
    [outstanding_requests] and whether [finished] has been set. *)
Record reader_frame : Type := {
  outstanding_requests : Z;
  finished : bool
}.

(** [1 == outstanding_requests.fetch_sub(1)] then [finished.set()]. *)
Definition request_done (f : reader_frame) : reader_frame :=
  {| outstanding_requests := outstanding_requests f - 1;
     finished := finished f || (outstanding_requests f =? 1) |}.

Definition request_pending (f : reader_frame) : reader_frame :=
  {| outstanding_requests := outstanding_requests f + 1; finished := finished f |}.

(** The [try] block of [execute_request] when the connection has a server:
    how it ends, and the connection after it. *)
Definition execute_request_try (message : message_t) (c : connection)
    : outcome unit * connection :=
  match type message with
  | void_request =>
      (srv_void_dispatch server (id message) (payload message), c)
  | _ =>
      match await_cancel c (srv_dispatch server (id message) (payload message)) with
      | Returned result =>
          (Returned tt,
           push (make_message (call_id message) response (id message) result) c)
      | Hresult_error hr => (Hresult_error hr, c)
      | Other_exception => (Other_exception, c)
      | Aborted => (Aborted, c)
      | Undefined => (Undefined, c)
      end
  end.

(** The lines after the [try] block: the error reply, and the release of the
    pending request. *)
Definition execute_request_finish (message : message_t) (hr : HRESULT)
    (pending : bool) (f : reader_frame) (c : connection)
    : connection * reader_frame :=
  let c :=
    if negb (cancel c)
    then
      if negb (call_type_eqb (type message) void_request)
      then push (make_message (call_id message) response_error (id message)
                   (le_bytes 4 hr)) c
      else c
    else c in
  (c, if pending then request_done f else f).

(** [connection::execute_request]. *)
Definition execute_request (message : message_t) (f : reader_frame) (c : connection)
    : outcome (connection * reader_frame) :=
  if has_server
  then
    let pending := negb (call_type_eqb (type message) void_request) in
    let f := if pending then request_pending f else f in
    match execute_request_try message c with
    | (Returned _, c) => Returned (execute_request_finish message 0 pending f c)
    | (Hresult_error hr, c) => Returned (execute_request_finish message hr pending f c)
    | (Other_exception, c) => Returned (execute_request_finish message E_FAIL pending f c)
    | (Aborted, _) => Aborted
    | (Undefined, _) => Undefined
    end
  else Returned (execute_request_finish message E_INVALIDARG false f c).

(** The body of the loop of [connection::reader] for a message the
    transport has produced. *)
Definition reader_on_message (message : message_t) (f : reader_frame) (c : connection)
    : outcome (connection * reader_frame) :=
  if call_type_eqb (type message) response
     || call_type_eqb (type message) response_error
  then
    match completions c !! call_id message with
    | Some promise =>
        let c := set_completions (delete (call_id message) (completions c)) c in
        let x :=
          if call_type_eqb (type message) response_error
          then
            if Nat.eqb (length (payload message)) 4
            then hresult_error_set (le_value (payload message))
            else hresult_error_set E_FAIL
          else payload_set (payload message) in
        Returned (set_promises (deliver promise x (promises c)) c, f)
    | None => Returned (c, f)
    end
  else execute_request message f c.

(** The [catch] of the reader: a failed [transport->read]. *)
Definition reader_on_error (hr : HRESULT) (c : connection) : connection :=
  error_on_background hr receive (set_cancel true c).

(** One turn of the loop of [connection::writer]: the message at the front
    of the queue is handed to the transport. *)
Definition writer_on_message (c : connection) : connection :=
  match write_queue c with
  | [] => c
  | m :: rest =>
      {| cancel := cancel c; transport := transport c; write_queue := rest;
         completions := completions c; last_call_id := last_call_id c;
         running := running c; error_handler := error_handler c;
         last_error := last_error c; promises := promises c;
         next_promise := next_promise c; handler_calls := handler_calls c;
         written := written c ++ [m] |}
  end.

(** The [catch] of the writer: a failed [transport->write]. *)
Definition writer_on_error (hr : HRESULT) (c : connection) : connection :=
  error_on_background hr send (set_cancel true c).

(** [connection::start]. *)
Definition start (c : connection) : outcome connection :=
  assert (negb (transport c))
    (Returned (set_running true (set_transport true c))).

(** The loop of [stop] over the pending calls:
    [p.second->set_exception_async(operation_cancelled{})]. *)
Definition cancel_pending (pending : list (Z * nat))
    (ps : gmap nat (list completion)) : gmap nat (list completion) :=
  foldr (fun p ps => deliver (snd p) operation_cancelled_set ps) ps pending.

(** [connection::stop]. *)
Definition stop (c : connection) : connection :=
  if running c
  then
    let c := error_on_background E_ABORT stop_ c in
    let c := set_cancel true c in
    let c := set_promises (cancel_pending (map_to_list (completions c)) (promises c)) c in
    let c := set_completions ∅ c in
    let c := set_transport false c in
    let c := set_cancel false c in
    set_running false c
  else c.

(** [completions.emplace(call_id, &promise)]: nothing is inserted when the
    key is present. *)
Definition emplace (key : Z) (promise : nat) (m : gmap Z nat) : gmap Z nat :=
  match m !! key with
  | Some _ => m
  | None => <[key := promise]> m
  end.

(** [connection::do_call], up to [co_await promise.get_future()]: the
    address of the promise the caller then awaits, and the connection. *)
Definition do_call (name : method_id) (a_payload : payload_t) (c : connection)
    : outcome (nat * connection) :=
  assert (transport c)
    (await_cancel c
       (let '(call_id, c) := fetch_add_call_id c in
        let promise := next_promise c in
        let c :=
          {| cancel := cancel c; transport := transport c;
             write_queue := write_queue c;
             completions := emplace call_id promise (completions c);
             last_call_id := last_call_id c;
             running := running c; error_handler := error_handler c;
             last_error := last_error c; promises := promises c;
             next_promise := S promise; handler_calls := handler_calls c;
             written := written c |} in
        Returned (promise, push (make_message call_id request name a_payload) c))).

(** [connection::do_void_call]. *)
Definition do_void_call (name : method_id) (a_payload : payload_t) (c : connection)
    : outcome connection :=
  assert (transport c)
    (if cancel c then operation_cancelled
     else
       let '(call_id, c) := fetch_add_call_id c in
       Returned (push (make_message call_id void_request name a_payload) c)).

(** What can happen to a connection: the calls of its public members and
    the turns of its reader and writer tasks. *)
Inductive step : connection -> connection -> Prop :=
| step_start c c' :
    start c = Returned c' -> step c c'
| step_stop c :
    step c (stop c)
| step_on_error f c :
    step c (on_error f c)
| step_do_call name a_payload c promise c' :
    do_call name a_payload c = Returned (promise, c') -> step c c'
| step_do_void_call name a_payload c c' :
    do_void_call name a_payload c = Returned c' -> step c c'
| step_reader_on_message message f c c' f' :
    reader_on_message message f c = Returned (c', f') -> step c c'
| step_reader_on_error hr c :
    step c (reader_on_error hr c)
| step_writer_on_message c :
    step c (writer_on_message c)
| step_writer_on_error hr c :
    step c (writer_on_error hr c).

(** The states a connection can be in. *)
Inductive reachable : connection -> Prop :=
| reachable_new : reachable new_connection
| reachable_step c c' : reachable c -> step c c' -> reachable c'.

End Connection.

(** An outcome C++ defines: a normal return or a thrown exception. *)
Definition returns_or_throws {A : Type} (o : outcome A) : bool :=
  match o with
  | Returned _ | Hresult_error _ | Other_exception => true
  | Aborted | Undefined => false
  end.

(** The write queue a handler leaves behind. *)
Definition write_queue_after (o : outcome (connection * reader_frame))
    : outcome (list message_t) :=
  outcome_bind o (fun cf => Returned (write_queue (fst cf))).

(** *** The sample: the calculator server and a started connection *)

Definition sample_server : server_marshaller :=
  server_of true CalculatorService tt (fun _ => x00) calculator.

(** A connection after [start]. *)
Definition started : connection :=
  set_running true (set_transport true new_connection).

Definition simple_sum_id : method_id := Fnv.get_method_id true "simple_sum".

Definition send_telemetry_event_id : method_id :=
  Fnv.get_method_id true "send_telemetry_event".

(** The arguments of [simple_sum(17, 42)]. *)
Definition simple_sum_args : payload_t :=
  marshal_args tt [(int32_t, int32 17); (int32_t, int32 42)].

Definition telemetry_args : payload_t :=
  marshal_args tt
    [(telemetry_info,
      VTuple [narrow_string "Test 1"; VTrivial (le_bytes 4 0);
              VTrivial [x01]; VTrivial (le_bytes 8 1700000000)])].

(** The connection a caller of [do_call] leaves behind. *)
Definition after_do_call (name : method_id) (a_payload : payload_t) (c : connection)
    : connection :=
  match do_call true true name a_payload c with
  | Returned (_, c') => c'
  | _ => c
  end.

(** A started connection with two calls of [simple_sum] pending. *)
Definition two_pending : connection :=
  after_do_call simple_sum_id simple_sum_args
    (after_do_call simple_sum_id simple_sum_args started).

(** A connection that is running and idle: nothing is pending, queued or
    completed. *)
Definition idle (c : connection) : Prop :=
  running c = true /\ transport c = true /\ cancel c = false /\
  completions c = ∅ /\ write_queue c = [] /\ promises c = ∅.

(** The reader of a connection before any request: the counter counts the
    reader itself. *)
Definition reader_started : reader_frame :=
  {| outstanding_requests := 1; finished := false |}.


(** *** The reader and writer tasks *)

(** What [co_await transport->read()] produces: a message, or a thrown
    [corsl::hresult_error]. *)
Inductive read_result : Type :=
| read_message (message : message_t)
| read_failure (hr : HRESULT).

(** [reader_not_required] and [writer_not_required] of a connection with
    [clients_count] client marshallers, where [only_void_methods] is that
    of its first marshaller: with only [void] methods, a connection without
    server needs no reader and one without client needs no writer. *)
Definition reader_not_required (has_server only_void_methods : bool) : bool :=
  negb has_server && only_void_methods.

Definition writer_not_required (clients_count : nat) (only_void_methods : bool)
    : bool :=
  Nat.eqb clients_count 0 && only_void_methods.

Section Tasks.
Context (has_server : bool) (server : server_marshaller).
Context (cancelled_token_throws : bool).

(** The loop of [connection::writer] (the [else] branch of its
    [if constexpr (writer_not_required)]) over the messages in the queue.
    [transport_write] tells how [co_await transport->write(message)] ends
    for a message: [None] when it completes, [Some hr] when it throws
    [corsl::hresult_error{hr}].  The message taken from the queue is gone
    from it either way.  The loop is left when the token is cancelled or a
    write fails; with the queue empty the task waits in
    [write_queue.next()].  (What [write_queue.cancel()] does to the
    messages still queued is left to corsl; they are kept here.) *)
Fixpoint writer_loop (transport_write : message_t -> option HRESULT)
    (queue : list message_t) (c : connection) : connection :=
  if cancel c then set_write_queue queue c
  else
    match queue with
    | [] => set_write_queue [] c
    | message :: rest =>
        match transport_write message with
        | None =>
            writer_loop transport_write rest
              (writer_on_message (set_write_queue (message :: rest) c))
        | Some hr => writer_on_error hr (set_write_queue rest c)
        end
    end.

(** [connection::writer]: [if constexpr (writer_not_required) co_return;]
    and the loop otherwise.  A writer that is not required takes nothing
    from the queue and writes nothing. *)
Definition writer (writer_not_required : bool)
    (transport_write : message_t -> option HRESULT) (c : connection)
    : connection :=
  if writer_not_required then c
  else writer_loop transport_write (write_queue c) c.

(** The loop of [connection::reader] over what the transport produces, in
    order; with nothing more to read the task waits in [transport->read()].
    The loop is left when the token is cancelled or a read fails. *)
Fixpoint reader_loop (reads : list read_result) (f : reader_frame) (c : connection)
    : outcome (connection * reader_frame) :=
  match reads with
  | [] => Returned (c, f)
  | x :: rest =>
      if cancel c then Returned (c, f)
      else
        match x with
        | read_message message =>
            outcome_bind (reader_on_message has_server server cancelled_token_throws
                            message f c)
              (fun cf => reader_loop rest (snd cf) (fst cf))
        | read_failure hr => Returned (reader_on_error hr c, f)
        end
  end.

(** [connection::reader]: [if constexpr (reader_not_required) co_return;]
    and the loop otherwise. *)
Definition reader (reader_not_required : bool) (reads : list read_result)
    (f : reader_frame) (c : connection) : outcome (connection * reader_frame) :=
  if reader_not_required then Returned (c, f) else reader_loop reads f c.

End Tasks.

(** What the promise of a caller is completed with when the connection
    that handles its request is not cancelled.  With a server marshaller,
    [dispatch] ending as [o]: the payload returned; the code of a thrown
    [hresult_error]; [E_FAIL] for any other exception.  Without one:
    [E_INVALIDARG]. *)
Definition completion_of (has_server : bool) (o : outcome payload_t)
    : option completion :=
  if has_server
  then
    match o with
    | Returned result => Some (payload_set result)
    | Hresult_error hr => Some (hresult_error_set hr)
    | Other_exception => Some (hresult_error_set E_FAIL)
    | Aborted | Undefined => None
    end
  else Some (hresult_error_set E_INVALIDARG).

(** The messages pushed on the write queue between [c] and [c']. *)
Definition pushed (c c' : connection) : list message_t :=
  drop (length (write_queue c)) (write_queue c').
End Connection.


(** ** crpc/tcp_transport.h, crpc/pipe_transport.h and
       crpc/copydata_transport.h *)

Module Transports.
Import Serializer Marshal Connection.

(** A coroutine that may be left suspended: [None] when what it awaits
    has not completed, otherwise how it ended. *)
Definition task (A : Type) : Type := option (outcome A).

Definition task_bind {A B : Type} (x : task A) (k : A -> task B) : task B :=
  match x with
  | None => None
  | Some (Returned a) => k a
  | Some (Hresult_error hr) => Some (Hresult_error hr)
  | Some Other_exception => Some Other_exception
  | Some Aborted => Some Aborted
  | Some Undefined => Some Undefined
  end.

(** [HRESULT_FROM_WIN32], the code [corsl::throw_win32_error] throws. *)
Definition HRESULT_FROM_WIN32 (x : Z) : HRESULT :=
  if x <=? 0 then x mod 2 ^ 32
  else Z.lor (Z.lor (Z.land x 0xFFFF) (Z.shiftl 7 16)) 0x80000000.

Definition WSAECONNRESET : Z := 10054.

(** *** The header that precedes a payload

    [struct tcp_message_header : message_header { uint32_t payload_size; }]
    and its namesakes of the other two transports, as the bytes the
    transports copy ([reinterpret_cast], [as_bytes], [memcpy]).  The object
    representation is the one of the MSVC targets: the bit-fields
    [call_id : 30] and [type : 2] share one 32-bit unit with [call_id] in
    its low bits; [id] and [payload_size] follow; 12 bytes in all. *)
Definition call_type_value (t : call_type) : Z :=
  match t with
  | request => 0
  | void_request => 1
  | response => 2
  | response_error => 3
  end.

Definition to_call_type (z : Z) : call_type :=
  if z =? 0 then request
  else if z =? 1 then void_request
  else if z =? 2 then response
  else response_error.

Definition sizeof_header : nat := 12.

Definition header_bytes (m : message_t) (payload_size : Z) : list byte :=
  le_bytes 4 (call_id m + 2 ^ 30 * call_type_value (type m))
  ++ le_bytes 4 (id m) ++ le_bytes 4 payload_size.

(** [header->payload_size] of the header at the beginning of [bytes]. *)
Definition payload_size_of (bytes : list byte) : Z :=
  le_value (take 4 (drop 8 bytes)).

(** [message_t{ *header, payload }]. *)
Definition message_of (bytes : list byte) (a_payload : payload_t) : message_t :=
  let unit := le_value (take 4 bytes) in
  {| call_id := unit mod 2 ^ 30;
     type := to_call_type (unit / 2 ^ 30);
     id := le_value (take 4 (drop 4 bytes));
     payload := a_payload |}.

(** The members of a message hold values of their types. *)
Definition valid_message (m : message_t) : Prop :=
  0 <= call_id m < 2 ^ 30 /\ 0 <= id m < 2 ^ 32.

(** The buffers handed to the transport between two of its states. *)
Definition added {A : Type} (before after : list A) : list A :=
  drop (length before) after.

(** *** tcp_transport.h *)

Module tcp.

(** [receive_buffer] is the member; [incoming] holds what the calls of
    [socket->receive] still to come return, in order (an empty vector when
    the peer has closed the connection); [sent] holds the buffers passed to
    [socket->send], which is taken to complete. *)
Record tcp_transport : Type := {
  receive_buffer : list byte;
  incoming : list (list byte);
  sent : list (list byte)
}.

(** [tcp_transport::read_next]; suspended while nothing has come in. *)
Definition read_next (t : tcp_transport) : task tcp_transport :=
  match incoming t with
  | [] => None
  | data :: rest =>
      match data with
      | [] => Some (Hresult_error (HRESULT_FROM_WIN32 WSAECONNRESET))
      | _ :: _ =>
          Some (Returned {| receive_buffer := receive_buffer t ++ data;
                            incoming := rest; sent := sent t |})
      end
  end.

(** [while (receive_buffer.size() < size) co_await read_next();]
    [turns] bounds the turns of the loop; each turn takes one element of
    [incoming], so [length (incoming t)] turns are all there can be. *)
Fixpoint read_until (turns : nat) (size : nat) (t : tcp_transport)
    : task tcp_transport :=
  if Nat.ltb (length (receive_buffer t)) size
  then
    match turns with
    | O => None
    | S turns' => task_bind (read_next t) (read_until turns' size)
    end
  else Some (Returned t).

(** [tcp_transport::read]. *)
Definition read (t : tcp_transport) : task (message_t * tcp_transport) :=
  task_bind (read_until (length (incoming t)) sizeof_header t) (fun t =>
  let full_size :=
    (sizeof_header + Z.to_nat (payload_size_of (receive_buffer t)))%nat in
  task_bind (read_until (length (incoming t)) full_size t) (fun t =>
  let m := receive_buffer t in
  let data := drop sizeof_header m in
  let result := message_of m (take (Z.to_nat (payload_size_of m)) data) in
  Some (Returned (result,
                  {| receive_buffer := drop full_size (receive_buffer t);
                     incoming := incoming t; sent := sent t |})))).

(** [tcp_transport::write]: the header, then the payload. *)
Definition write (message : message_t) (t : tcp_transport) : tcp_transport :=
  let header :=
    header_bytes message (Z.of_nat (length (payload message)) mod 2 ^ 32) in
  {| receive_buffer := receive_buffer t; incoming := incoming t;
     sent := sent t ++ [header; payload message] |}.

End tcp.

(** *** pipe_transport.h *)

Module pipe.

Definition MaxSupportedRead : nat := Z.to_nat 65536.

(** [pipe] tells whether the handle is valid; [in_pipe] holds the bytes
    the other end has written and this end has not read; [transfers] holds,
    for the calls of [ReadFile] still to come, the most bytes the system
    transfers in each; [written] holds the buffers passed to [WriteFile],
    which is taken to complete.  The transport is not cancelled. *)
Record pipe_transport : Type := {
  pipe : bool;
  in_pipe : list byte;
  transfers : list nat;
  written : list (list byte)
}.

(** The private [write(std::span<const std::byte>)]. *)
Definition write_span (NDEBUG : bool) (data : list byte) (t : pipe_transport)
    : outcome pipe_transport :=
  if NDEBUG || Nat.leb (length data) MaxSupportedRead
  then Returned {| pipe := pipe t; in_pipe := in_pipe t;
                   transfers := transfers t; written := written t ++ [data] |}
  else Aborted.

(** The loop of [write] over the payload:
    [while (size) { towrite = min(size, MaxSupportedRead); ... }].
    [fuel] bounds the turns; each turn writes at least one byte, so
    [length data] turns are all there can be. *)
Fixpoint write_payload (NDEBUG : bool) (fuel : nat) (data : list byte)
    (t : pipe_transport) : outcome pipe_transport :=
  match data with
  | [] => Returned t
  | _ :: _ =>
      match fuel with
      | O => Undefined
      | S fuel' =>
          let towrite := Nat.min (length data) MaxSupportedRead in
          outcome_bind (write_span NDEBUG (take towrite data) t)
            (write_payload NDEBUG fuel' (drop towrite data))
      end
  end.

(** [pipe_transport::write]. *)
Definition write (NDEBUG : bool) (message : message_t) (t : pipe_transport)
    : outcome pipe_transport :=
  if negb (pipe t) then Hresult_error E_FAIL
  else
    let pmh :=
      header_bytes message (Z.of_nat (length (payload message)) mod 2 ^ 32) in
    outcome_bind (write_span NDEBUG pmh t)
      (write_payload NDEBUG (length (payload message)) (payload message)).

(** The private [read(std::span<std::byte>, pover)]: the bytes one
    [ReadFile] of at most [size] bytes transfers; suspended while the pipe
    is empty. *)
Definition read_span (NDEBUG : bool) (size : nat) (t : pipe_transport)
    : task (list byte * pipe_transport) :=
  if NDEBUG || Nat.leb size MaxSupportedRead
  then
    match transfers t, in_pipe t with
    | [], _ | _, [] => None
    | n :: rest, _ :: _ =>
        let data := take (Nat.min size n) (in_pipe t) in
        Some (Returned (data,
                        {| pipe := pipe t;
                           in_pipe := drop (length data) (in_pipe t);
                           transfers := rest; written := written t |}))
    end
  else Some Aborted.

(** The loop of [read] over the payload:
    [while (size) { toread = min(MaxSupportedRead, size); ...;
    size -= read_bytes; }] with [size] a [uint32_t].  Each turn takes one
    element of [transfers], so [length (transfers t)] turns are all there
    can be. *)
Fixpoint read_payload (NDEBUG : bool) (turns : nat) (size : Z)
    (a_payload : list byte) (t : pipe_transport)
    : task (list byte * pipe_transport) :=
  if size =? 0 then Some (Returned (a_payload, t))
  else
    match turns with
    | O => None
    | S turns' =>
        let toread := Z.to_nat (Z.min (Z.of_nat MaxSupportedRead) size) in
        task_bind (read_span NDEBUG toread t) (fun dt =>
          read_payload NDEBUG turns'
            ((size - Z.of_nat (length (fst dt))) mod 2 ^ 32)
            (a_payload ++ fst dt) (snd dt))
    end.

(** [pipe_transport::read]. *)
Definition read (NDEBUG : bool) (t : pipe_transport)
    : task (message_t * pipe_transport) :=
  if negb (pipe t) then Some (Hresult_error E_FAIL)
  else
    task_bind (read_span NDEBUG sizeof_header t) (fun ht =>
      let pmh := fst ht in
      if negb (Nat.eqb sizeof_header (length pmh))
      then Some (Hresult_error E_INVALIDARG)
      else
        task_bind (read_payload NDEBUG (length (transfers (snd ht)))
                     (payload_size_of pmh) [] (snd ht)) (fun pt =>
          Some (Returned (message_of pmh (fst pt), snd pt)))).

End pipe.

(** *** copydata_transport.h *)

Module copydata.

(** [fnv::fnv_hash("AsyncCppRpc-CopyData-Transport"sv)]. *)
Definition CALL_ID : Z := Fnv.fnv_hash true "AsyncCppRpc-CopyData-Transport".

Definition WM_COPYDATA : Z := 0x004A.

Record COPYDATASTRUCT : Type := {
  dwData : Z;
  cbData : Z;
  lpData : list byte
}.

(** A window message: [lParam] is the structure it points to. *)
Record MSG : Type := {
  message : Z;
  wParam : Z;
  lParam : COPYDATASTRUCT
}.

(** Window handles are numbers, 0 the null handle. *)
Record copydata_transport : Type := {
  other_party : Z;
  this_party : Z;
  sync_write : bool;
  input_queue : list message_t
}.

(** [copydata_transport::write]: the message [SendMessageW] or
    [SendMessageCallbackW] delivers to the window [other_party]. *)
Definition write (a_message : message_t) (t : copydata_transport) : MSG :=
  let header :=
    header_bytes a_message (Z.of_nat (length (payload a_message)) mod 2 ^ 32) in
  let send_buffer := header ++ payload a_message in
  {| message := WM_COPYDATA;
     wParam := this_party t;
     lParam := {| dwData := CALL_ID;
                  cbData := Z.of_nat (length send_buffer) mod 2 ^ 32;
                  lpData := send_buffer |} |}.

Section Build.

(** [NDEBUG], and the width of [size_t] in bits. *)
Context (NDEBUG : bool) (size_t_bits : Z).

(** [on_copydata(HWND caller, const COPYDATASTRUCT &cs)]: whether the
    message was taken, and the transport after. *)
Definition on_copydata_from (caller : Z) (cs : COPYDATASTRUCT)
    (t : copydata_transport) : outcome (bool * copydata_transport) :=
  if dwData cs =? CALL_ID
  then
    if NDEBUG || (other_party t =? 0) || (caller =? other_party t)
    then
      if Z.of_nat sizeof_header <=? cbData cs
      then
        let header := lpData cs in
        if (payload_size_of header + Z.of_nat sizeof_header) mod 2 ^ size_t_bits
           =? cbData cs
        then
          let begin := drop sizeof_header (lpData cs) in
          Returned
            (true,
             {| other_party := other_party t; this_party := this_party t;
                sync_write := sync_write t;
                input_queue :=
                  input_queue t
                  ++ [message_of header
                        (take (Z.to_nat (payload_size_of header)) begin)] |})
        else Returned (false, t)
      else Returned (false, t)
    else Aborted
  else Returned (false, t).

(** [on_copydata(const MSG &msg)]. *)
Definition on_copydata (msg : MSG) (t : copydata_transport)
    : outcome (bool * copydata_transport) :=
  if message msg =? WM_COPYDATA
  then on_copydata_from (wParam msg) (lParam msg) t
  else Returned (false, t).

End Build.

(** [copydata_transport::read], not cancelled: the next message of the
    input queue; suspended while the queue is empty. *)
Definition read (t : copydata_transport) : task (message_t * copydata_transport) :=
  match input_queue t with
  | [] => None
  | m :: rest =>
      Some (Returned (m, {| other_party := other_party t;
                            this_party := this_party t;
                            sync_write := sync_write t;
                            input_queue := rest |}))
  end.

End copydata.

(** *** impl/sockets_impl_win8.h *)

Module sockets.

(** An [int] result: outside the range of the type it is undefined. *)
Definition int (z : Z) : outcome Z :=
  if (- 2 ^ 31 <=? z) && (z <? 2 ^ 31) then Returned z else Undefined.

(** The loop of [to_integer(std::wstring_view text)], the characters being
    their codes: [result = result * 10 + c - '0'] for as long as
    ['0' <= c && c <= '9']. *)
Fixpoint to_integer_loop (result : Z) (text : list Z) : outcome Z :=
  match text with
  | [] => Returned result
  | c :: rest =>
      if (48 <=? c) && (c <=? 57)
      then
        outcome_bind (int (result * 10)) (fun a =>
        outcome_bind (int (a + c)) (fun b =>
        outcome_bind (int (b - 48)) (fun result => to_integer_loop result rest)))
      else Returned result
  end.

Definition to_integer (text : list Z) : outcome Z := to_integer_loop 0 text.

(** The characters of a decimal numeral. *)
Fixpoint numeral (d : Decimal.uint) : list Z :=
  match d with
  | Decimal.Nil => []
  | Decimal.D0 d => 48 :: numeral d
  | Decimal.D1 d => 49 :: numeral d
  | Decimal.D2 d => 50 :: numeral d
  | Decimal.D3 d => 51 :: numeral d
  | Decimal.D4 d => 52 :: numeral d
  | Decimal.D5 d => 53 :: numeral d
  | Decimal.D6 d => 54 :: numeral d
  | Decimal.D7 d => 55 :: numeral d
  | Decimal.D8 d => 56 :: numeral d
  | Decimal.D9 d => 57 :: numeral d
  end.

(** The text does not go on with a digit. *)
Definition no_digit_first (text : list Z) : Prop :=
  match text with
  | [] => True
  | c :: _ => c < 48 \/ 57 < c
  end.

End sockets.

End Transports.
Module FnvFacts.
Import Fnv.

Example fnv1a_empty : fnv1a "" = 0x811C9DC5.
Proof. reflexivity. Qed.

Example fnv1a_a : fnv1a "a" = 0xE40C292C.
Proof. reflexivity. Qed.

Example fnv1a_foobar : fnv1a "foobar" = 0xBF9CF968.
Proof. reflexivity. Qed.

Example fnv_hash_simple_sum : fnv_hash true "simple_sum" = fnv1a "simple_sum".
Proof. reflexivity. Qed.

Lemma code_range (c : ascii) : 0 <= code c < 256.
Proof.
  unfold code. pose proof (N_ascii_bounded c) as H. lia.
Qed.

Lemma fnv_step_ascii (cs : bool) (val : Z) (c : ascii) :
  code c < 128 ->
  fnv_step cs val c = (Z.lxor val (code c) * 0x01000193) mod 2 ^ 32.
Proof.
  intros Hc. pose proof (code_range c) as Hr.
  unfold fnv_step, to_char, uint32, prime.
  replace (128 <=? code c) with false by (symmetry; apply Z.leb_gt; lia).
  rewrite andb_false_r. rewrite (Z.mod_small (code c)) by lia. reflexivity.
Qed.

Lemma fnv_step_unsigned (val : Z) (c : ascii) :
  fnv_step false val c = (Z.lxor val (code c) * 0x01000193) mod 2 ^ 32.
Proof.
  pose proof (code_range c) as Hr.
  unfold fnv_step, to_char, uint32, prime. simpl andb. cbv iota.
  rewrite (Z.mod_small (code c)) by lia. reflexivity.
Qed.

Lemma fnv_loop_ascii (cs : bool) (name : string) :
  is_ascii name = true ->
  forall val, fnv_loop cs val name = fnv1a_from val (name_bytes name).
Proof.
  induction name as [|c rest IH]; intros Hname val; simpl in *.
  - reflexivity.
  - apply andb_prop in Hname as [Hc Hrest].
    apply Z.ltb_lt in Hc.
    rewrite fnv_step_ascii by assumption.
    apply IH. assumption.
Qed.

Lemma fnv_loop_unsigned (name : string) :
  forall val, fnv_loop false val name = fnv1a_from val (name_bytes name).
Proof.
  induction name as [|c rest IH]; intros val; simpl.
  - reflexivity.
  - rewrite fnv_step_unsigned. apply IH.
Qed.

(** Where plain [char] is unsigned the hash is FNV-1a for every name. *)
Lemma fnv_hash_unsigned_char (name : string) : fnv_hash false name = fnv1a name.
Proof. apply fnv_loop_unsigned. Qed.

Lemma fnv_loop_range (cs : bool) (name : string) :
  forall val, 0 <= val < 2 ^ 32 -> 0 <= fnv_loop cs val name < 2 ^ 32.
Proof.
  induction name as [|c rest IH]; intros val Hval; simpl.
  - exact Hval.
  - apply IH. unfold fnv_step, uint32. apply Z.mod_pos_bound. lia.
Qed.

(** C8, as amended.  For every method name made of ASCII characters (codes
    below 128) the method identifier is a 32-bit value equal to the FNV-1a
    hash of the bytes of the name, with basis 0x811C9DC5 and prime
    0x01000193, each byte XORed into the accumulator before the
    multiplication, modulo 2^32; this holds whether plain [char] is signed
    or not. *)
Theorem get_method_id_fnv1a (char_is_signed : bool) (name : string) :
  is_ascii name = true ->
  get_method_id char_is_signed name = fnv1a name /\
  0 <= get_method_id char_is_signed name < 2 ^ 32.
Proof.
  intros Hname. split.
  - unfold get_method_id, fnv_hash, fnv1a. apply fnv_loop_ascii. exact Hname.
  - unfold get_method_id, fnv_hash. apply fnv_loop_range.
    unfold initial_val. lia.
Qed.

(** C8, witness: the identifier of [simple_sum]. *)
Lemma get_method_id_fnv1a_witness :
  is_ascii "simple_sum" = true /\
  get_method_id true "simple_sum" = fnv1a "simple_sum" /\
  0 <= get_method_id true "simple_sum" < 2 ^ 32.
Proof.
  split; [reflexivity|].
  apply (get_method_id_fnv1a true "simple_sum"). reflexivity.
Defined.

Example name_bytes_cafe : name_bytes "café" = [99; 97; 102; 195; 169].
Proof. reflexivity. Qed.

Example to_char_signed : to_char true "195"%char = -61.
Proof. reflexivity. Qed.

(** C8, counterexample: with the signed [char] of the targets of the
    library, the identifier of a method named [café] (bytes 63 61 66 C3 A9)
    is not the FNV-1a hash of those bytes: the bytes C3 and A9 are
    sign-extended to 32 bits before the XOR. *)
Lemma get_method_id_counterexample :
  get_method_id true "café" = 0x7572C049 /\
  fnv1a "café" = 0xA82B5049 /\
  get_method_id true "café" <> fnv1a "café".
Proof.
  split; [vm_compute; reflexivity|]. split; [vm_compute; reflexivity|].
  vm_compute. discriminate.
Qed.


(** *** Wide strings *)

Lemma wchar_to_char_low (char_is_signed : bool) (c : Z) :
  wchar_to_char char_is_signed (c mod 256) = wchar_to_char char_is_signed c.
Proof. unfold wchar_to_char. rewrite Z.mod_mod by lia. reflexivity. Qed.

Lemma wchar_to_char_code (char_is_signed : bool) (c : ascii) :
  wchar_to_char char_is_signed (code c) = to_char char_is_signed c.
Proof.
  unfold wchar_to_char, to_char.
  rewrite Z.mod_small by apply code_range. reflexivity.
Qed.

(** X1.  Of a wide character only the low byte enters the hash: a wide string
    hashes as the string of the low bytes of its characters, so wide
    strings that agree in these collide; and the wide string made of the
    bytes of a narrow string, each zero-extended, hashes as the narrow
    string. *)
Theorem fnv_hash_wide_low_bytes (char_is_signed : bool) :
  (forall text,
     fnv_hash_wide char_is_signed text
     = fnv_hash_wide char_is_signed (List.map (fun c => c mod 256) text)) /\
  (forall name,
     fnv_hash_wide char_is_signed (widen name) = fnv_hash char_is_signed name).
Proof.
  assert (Hlow : forall text val,
             fnv_loop_wide char_is_signed val text
             = fnv_loop_wide char_is_signed val
                 (List.map (fun c => c mod 256) text)).
  { induction text as [|c text IH]; intros val; simpl; [reflexivity|].
    unfold fnv_step_wide. rewrite wchar_to_char_low. apply IH. }
  assert (Hnarrow : forall name val,
             fnv_loop_wide char_is_signed val (widen name)
             = fnv_loop char_is_signed val name).
  { induction name as [|c name IH]; intros val; simpl; [reflexivity|].
    unfold fnv_step_wide, fnv_step. rewrite wchar_to_char_code. apply IH. }
  unfold fnv_hash_wide, fnv_hash. split; intros x; [apply Hlow | apply Hnarrow].
Qed.
End FnvFacts.
Module SerializerFacts.
Import Serializer.

(** *** Bytes and little-endian integers *)

Lemma Z_of_byte_range (b : byte) : 0 <= Z_of_byte b < 256.
Proof.
  unfold Z_of_byte. pose proof (Byte.to_N_bounded b) as H. lia.
Qed.

Lemma Z_of_byte_of_Z (z : Z) : Z_of_byte (byte_of_Z z) = z mod 256.
Proof.
  unfold Z_of_byte, byte_of_Z.
  assert (Hr : 0 <= z mod 256 < 256) by (apply Z.mod_pos_bound; lia).
  destruct (Byte.of_N (Z.to_N (z mod 256))) as [b|] eqn:Hb; simpl.
  - apply Byte.to_of_N in Hb. rewrite Hb. lia.
  - apply Byte.of_N_None_iff in Hb. lia.
Qed.

Lemma length_le_bytes (n : nat) (z : Z) : length (le_bytes n z) = n.
Proof.
  revert z. induction n as [|n IH]; intros z; simpl; [reflexivity|].
  rewrite IH. reflexivity.
Qed.

Lemma le_value_le_bytes (n : nat) (z : Z) :
  le_value (le_bytes n z) = z mod 256 ^ Z.of_nat n.
Proof.
  revert z. induction n as [|n IH]; intros z.
  - simpl. rewrite Z.mod_1_r. reflexivity.
  - cbn [le_bytes le_value]. rewrite IH, Z_of_byte_of_Z.
    rewrite Nat2Z.inj_succ, Z.pow_succ_r by lia.
    rewrite Z.rem_mul_r by lia. reflexivity.
Qed.

Lemma le_value_uint32 (z : Z) :
  0 <= z < 2 ^ 32 -> le_value (le_bytes 4 (z mod 2 ^ 32)) = z.
Proof.
  intros Hz. rewrite le_value_le_bytes.
  change (256 ^ Z.of_nat 4) with (2 ^ 32).
  rewrite Z.mod_mod by lia. apply Z.mod_small. exact Hz.
Qed.

Lemma le_value_uint16 (z : Z) :
  0 <= z < 2 ^ 16 -> le_value (le_bytes 2 (z mod 2 ^ 16)) = z.
Proof.
  intros Hz. rewrite le_value_le_bytes.
  change (256 ^ Z.of_nat 2) with (2 ^ 16).
  rewrite Z.mod_mod by lia. apply Z.mod_small. exact Hz.
Qed.

(** *** The Writer produces the wire format *)

Section WithState.
Context {State : Type}.
Implicit Types (w : Writer State) (r : Reader State).

Lemma add_nil w : add [] w = w.
Proof. destruct w as [bs st]. unfold add. simpl. rewrite app_nil_r. reflexivity. Qed.

Lemma add_add (a b : list byte) w : add b (add a w) = add (a ++ b) w.
Proof. unfold add. simpl. rewrite app_assoc. reflexivity. Qed.

Lemma write_contiguous_add (reprs : list (list byte)) w :
  write_contiguous reprs w = add (List.concat reprs) w.
Proof.
  destruct reprs as [|c reprs]; [symmetry; apply add_nil | reflexivity].
Qed.

Lemma write_fold_encoding (elem : ty) (elems : list value) :
  Forall (fun e => forall t w, write t e w = add (encoding t e) w) elems ->
  forall w, fold_left (fun w e => write elem e w) elems w
            = add (flat_map (encoding elem) elems) w.
Proof.
  induction 1 as [|e elems He _ IH]; intros w; simpl.
  - symmetry. apply add_nil.
  - rewrite He, IH, add_add. reflexivity.
Qed.

Lemma write_fields_encoding (vs : list value) :
  Forall (fun x => forall t w, write t x w = add (encoding t x) w) vs ->
  forall ts w,
    write_fields (fun t x w => write t x w) ts vs w
    = add (concat_fields (fun t x => encoding t x) ts vs) w.
Proof.
  induction 1 as [|x vs Hx _ IH]; intros ts w.
  - destruct ts; symmetry; apply add_nil.
  - destruct ts as [|t ts]; [symmetry; apply add_nil|].
    simpl. rewrite Hx, IH, add_add. reflexivity.
Qed.

(** Every [write] appends the encoding of its argument to the storage. *)
Lemma write_encoding (v : value) :
  forall t w, write t v w = add (encoding t v) w.
Proof.
  induction v as [repr|chars|elems IH| |x IH|present x IH|a b IHa IHb|vs IH|index x IH|vs IH]
    using value_nested_ind; intros t w;
    destruct t as [size|cs|elem|elem|tv te|t1 t2|ts|alts|ts];
    try (symmetry; apply add_nil); cbn [write encoding].
  - reflexivity.
  - rewrite write_contiguous_add. unfold write_size. apply add_add.
  - unfold write_size.
    destruct (trivially_copyable elem).
    + rewrite write_contiguous_add. apply add_add.
    + rewrite (write_fold_encoding _ _ IH). apply add_add.
  - reflexivity.
  - rewrite IH. unfold write_bool. rewrite add_add. reflexivity.
  - destruct present; rewrite IH; unfold write_bool; rewrite add_add; reflexivity.
  - rewrite IHa, IHb. apply add_add.
  - apply write_fields_encoding. exact IH.
  - unfold write_index. destruct (nth_error alts index) as [t|].
    + rewrite IH. apply add_add.
    + rewrite app_nil_r. reflexivity.
  - apply write_fields_encoding. exact IH.
Qed.

Lemma storage_write (t : ty) (v : value) w :
  storage (write t v w) = storage w ++ encoding t v.
Proof. rewrite write_encoding. reflexivity. Qed.

(** *** Reading what lies at the cursor *)

Lemma advance_advance (n m : nat) r : advance m (advance n r) = advance (n + m) r.
Proof. unfold advance. simpl. f_equal. lia. Qed.

Lemma advance_0 r : advance 0 r = r.
Proof. destruct r as [bs i m st]. unfold advance. simpl. f_equal. lia. Qed.

Lemma advance_eq (n m : nat) r : n = m -> advance n r = advance m r.
Proof. intros ->. reflexivity. Qed.

Lemma map_byte_at (bs : list byte) :
  forall r (pre tail : list byte),
    range r = pre ++ bs ++ tail ->
    map (byte_at r) (seq (length pre) (length bs)) = bs.
Proof.
  induction bs as [|b bs IH]; intros r pre tail Hrange; simpl.
  - reflexivity.
  - f_equal.
    + unfold byte_at. rewrite Hrange.
      rewrite nth_error_app2 by lia. rewrite Nat.sub_diag. reflexivity.
    + specialize (IH r (pre ++ [b]) tail).
      rewrite length_app in IH. simpl in IH.
      rewrite Nat.add_1_r in IH. apply IH.
      rewrite Hrange, <- app_assoc. reflexivity.
Qed.

Lemma read_bytes_remaining (bs tail : list byte) r :
  remaining r (bs ++ tail) ->
  read_bytes (length bs) r = (bs, advance (length bs) r).
Proof.
  intros [Hle Hdrop]. unfold read_bytes, advance. f_equal.
  assert (Hlen : length (take (it r) (range r)) = it r)
    by (rewrite length_take; lia).
  rewrite <- Hlen at 1.
  apply map_byte_at with (tail := tail).
  rewrite <- Hdrop. symmetry. apply take_drop.
Qed.

Lemma remaining_advance (bs tail : list byte) r :
  remaining r (bs ++ tail) -> remaining (advance (length bs) r) tail.
Proof.
  intros [Hle Hdrop]. unfold remaining, advance. simpl.
  assert (Hlen : length (range r) = (it r + length (bs ++ tail))%nat).
  { rewrite <- Hdrop, length_drop. lia. }
  rewrite length_app in Hlen. split; [lia|].
  rewrite <- drop_drop, Hdrop. apply drop_app_length.
Qed.

Lemma remaining_nil r : remaining r [] -> get_remaining r = [].
Proof. intros [_ H]. exact H. Qed.

Lemma read_count_remaining (n : nat) (tail : list byte) r :
  Z.of_nat n < 2 ^ 32 ->
  remaining r (le_bytes 4 (Z.of_nat n mod 2 ^ 32) ++ tail) ->
  read_count r = (n, advance 4 r).
Proof.
  intros Hn Hrem. unfold read_count.
  pose proof (read_bytes_remaining _ _ _ Hrem) as Hread.
  rewrite length_le_bytes in Hread. rewrite Hread.
  rewrite le_value_uint32 by lia. rewrite Nat2Z.id. reflexivity.
Qed.

Lemma read_index_remaining (n : nat) (tail : list byte) r :
  Z.of_nat n < 2 ^ 16 ->
  remaining r (le_bytes 2 (Z.of_nat n mod 2 ^ 16) ++ tail) ->
  read_index r = (n, advance 2 r).
Proof.
  intros Hn Hrem. unfold read_index.
  pose proof (read_bytes_remaining _ _ _ Hrem) as Hread.
  rewrite length_le_bytes in Hread. rewrite Hread.
  rewrite le_value_uint16 by lia. rewrite Nat2Z.id. reflexivity.
Qed.

Lemma read_bool_remaining (b : bool) (tail : list byte) r :
  remaining r ((if b then x01 else x00) :: tail) ->
  read_bool r = (b, advance 1 r).
Proof.
  intros Hrem. unfold read_bool.
  pose proof (read_bytes_remaining [if b then x01 else x00] tail r Hrem) as Hread.
  simpl length in Hread. rewrite Hread. destruct b; reflexivity.
Qed.

(** A contiguous run of objects of one size splits back into the objects. *)
Lemma length_concat_uniform (size : nat) (reprs : list (list byte)) :
  Forall (fun c => length c = size) reprs ->
  length (List.concat reprs) = (size * length reprs)%nat.
Proof.
  induction 1 as [|c reprs Hc _ IH]; simpl; [lia|].
  rewrite length_app, IH, Hc. lia.
Qed.

Lemma split_objects_concat (size : nat) (reprs : list (list byte)) :
  Forall (fun c => length c = size) reprs ->
  split_objects size (length reprs) (List.concat reprs) = reprs.
Proof.
  induction 1 as [|c reprs Hc _ IH]; simpl; [reflexivity|].
  rewrite <- Hc. rewrite take_app_length, drop_app_length.
  rewrite Hc, IH. reflexivity.
Qed.

(** *** Fresh targets *)

Lemma fresh_for_default (t : ty) : fresh_for t (default_value t).
Proof.
  induction t as [size|cs|elem IH|elem IH|tv te IHv IHe|a b IHa IHb|ts IH|ts IH|ts IH]
    using ty_nested_ind; simpl; try exact I; try reflexivity.
  - split; assumption.
  - induction IH as [|t ts Ht _ IHts]; simpl; [exact I | split; assumption].
  - induction IH as [|t ts Ht _ IHts]; simpl; [exact I | split; assumption].
Qed.

Lemma fresh_for_first (a b : ty) (old : value) :
  fresh_for (TPair a b) old -> fresh_for a (first_of old a).
Proof.
  destruct old; simpl; try (intros _; apply fresh_for_default).
  intros [H _]. exact H.
Qed.

Lemma fresh_for_second (a b : ty) (old : value) :
  fresh_for (TPair a b) old -> fresh_for b (second_of old b).
Proof.
  destruct old; simpl; try (intros _; apply fresh_for_default).
  intros [_ H]. exact H.
Qed.

Lemma trivial_elements (size : nat) (elems : list value) :
  forallb (has_type (TTrivial size)) elems = true ->
  map VTrivial (map object_repr elems) = elems /\
  Forall (fun c => length c = size) (map object_repr elems).
Proof.
  induction elems as [|e elems IH]; simpl; intros H.
  - split; constructor.
  - apply andb_prop in H as [He Hrest]. destruct (IH Hrest) as [IH1 IH2].
    destruct e; simpl in He; try discriminate.
    apply Nat.eqb_eq in He. simpl. rewrite IH1. split; [reflexivity|].
    constructor; assumption.
Qed.

Lemma uniform_chars (size : nat) (chars : list (list byte)) :
  forallb (fun c => Nat.eqb (length c) size) chars = true ->
  Forall (fun c => length c = size) chars.
Proof.
  induction chars as [|c chars IH]; simpl; intros H; constructor.
  - apply andb_prop in H as [H _]. apply Nat.eqb_eq. exact H.
  - apply IH. apply andb_prop in H as [_ H]. exact H.
Qed.

(** *** Reading back what was written *)

Abbreviation reads_back := (Serializer.reads_back State).

Ltac finish_cursor :=
  repeat rewrite advance_advance;
  match goal with
  | |- Returned (_, ?a) = Returned (_, ?b) =>
      replace a with b; [reflexivity|]
  end;
  apply advance_eq;
  repeat (rewrite ?length_app, ?length_le_bytes; simpl length);
  try lia.

Lemma reads_back_trivial (repr : list byte) : reads_back (VTrivial repr).
Proof.
  intros t old r tail Ht _ _ Hrem.
  destruct t as [size| | | | | | | |]; try discriminate.
  simpl in Ht. apply Nat.eqb_eq in Ht. subst size.
  cbn [read encoding] in *.
  rewrite (read_bytes_remaining _ _ _ Hrem). reflexivity.
Qed.

Lemma reads_back_string (chars : list (list byte)) : reads_back (VString chars).
Proof.
  intros t old r tail Ht Hfit _ Hrem.
  destruct t as [|cs| | | | | | |]; try discriminate.
  cbn [has_type sizes_fit read encoding] in *.
  apply uniform_chars in Ht. apply Z.ltb_lt in Hfit.
  rewrite <- app_assoc in Hrem.
  rewrite (read_count_remaining _ _ _ Hfit Hrem).
  apply remaining_advance in Hrem. rewrite length_le_bytes in Hrem.
  rewrite <- (length_concat_uniform _ _ Ht).
  rewrite (read_bytes_remaining _ _ _ Hrem).
  rewrite (length_concat_uniform _ _ Ht), (split_objects_concat _ _ Ht).
  finish_cursor. rewrite (length_concat_uniform _ _ Ht). lia.
Qed.

Lemma read_elements_back (elem : ty) (elems : list value) :
  Forall reads_back elems ->
  forallb (has_type elem) elems = true ->
  forallb sizes_fit elems = true ->
  forall r tail,
    remaining r (flat_map (encoding elem) elems ++ tail) ->
    read_elements (read elem (default_value elem)) (length elems) r
    = Returned (elems, advance (length (flat_map (encoding elem) elems)) r).
Proof.
  induction 1 as [|e elems He _ IH]; intros Ht Hfit r tail Hrem; simpl in *.
  - rewrite advance_0. reflexivity.
  - apply andb_prop in Ht as [Hte Ht]. apply andb_prop in Hfit as [Hfe Hfit].
    rewrite <- app_assoc in Hrem.
    rewrite (He elem _ r _ Hte Hfe (fresh_for_default elem) Hrem). simpl.
    apply remaining_advance in Hrem.
    rewrite (IH Ht Hfit _ _ Hrem). simpl.
    finish_cursor.
Qed.

Lemma reads_back_vector (elems : list value) :
  Forall reads_back elems -> reads_back (VVector elems).
Proof.
  intros IH t old r tail Ht Hfit _ Hrem.
  destruct t as [| |elem| | | | | |]; try discriminate.
  cbn [has_type sizes_fit read encoding] in *.
  apply andb_prop in Hfit as [Hlen Hfit]. apply Z.ltb_lt in Hlen.
  rewrite <- app_assoc in Hrem.
  rewrite (read_count_remaining _ _ _ Hlen Hrem).
  apply remaining_advance in Hrem. rewrite length_le_bytes in Hrem.
  destruct (trivially_copyable elem) eqn:Htc.
  - destruct elem as [size| | | | | | | |]; try discriminate.
    destruct (trivial_elements _ _ Ht) as [Hmap Hall].
    pose proof (length_concat_uniform _ _ Hall) as Hsize.
    rewrite length_map in Hsize.
    simpl size_of.
    assert (Hread : read_contiguous (size * length elems) (advance 4 r)
                    = (List.concat (map object_repr elems),
                       advance (size * length elems) (advance 4 r))).
    { unfold read_contiguous.
      destruct (Nat.eqb (size * length elems) 0) eqn:Hz.
      - apply Nat.eqb_eq in Hz. rewrite Hz in *.
        apply length_zero_iff_nil in Hsize. rewrite Hsize.
        rewrite advance_0. reflexivity.
      - rewrite <- Hsize. apply read_bytes_remaining with (tail := tail).
        exact Hrem. }
    rewrite Hread.
    rewrite <- (length_map object_repr elems) at 1.
    rewrite (split_objects_concat _ _ Hall), Hmap.
    finish_cursor.
  - rewrite (read_elements_back _ _ IH Ht Hfit _ _ Hrem). simpl.
    finish_cursor.
Qed.

Lemma reads_back_none : reads_back (VOptional None).
Proof.
  intros t old r tail Ht _ Hfresh Hrem.
  destruct t as [| | |elem| | | | |]; try discriminate.
  cbn [read encoding fresh_for] in *. subst old.
  rewrite (read_bool_remaining false _ _ Hrem). reflexivity.
Qed.

Lemma reads_back_some (x : value) :
  reads_back x -> reads_back (VOptional (Some x)).
Proof.
  intros IH t old r tail Ht Hfit _ Hrem.
  destruct t as [| | |elem| | | | |]; try discriminate.
  cbn [has_type sizes_fit read encoding] in *.
  rewrite (read_bool_remaining true _ _ Hrem).
  apply (remaining_advance [x01]) in Hrem. simpl length in Hrem.
  rewrite (IH elem _ _ _ Ht Hfit (fresh_for_default elem) Hrem). simpl.
  finish_cursor.
Qed.

Lemma reads_back_expected (present : bool) (x : value) :
  reads_back x -> reads_back (VExpected present x).
Proof.
  intros IH t old r tail Ht Hfit _ Hrem.
  destruct t as [| | | |tv te| | | |]; try discriminate.
  cbn [has_type sizes_fit read encoding] in *.
  destruct present.
  - rewrite (read_bool_remaining true _ _ Hrem).
    apply (remaining_advance [x01]) in Hrem. simpl length in Hrem.
    rewrite (IH tv _ _ _ Ht Hfit (fresh_for_default tv) Hrem). simpl.
    finish_cursor.
  - rewrite (read_bool_remaining false _ _ Hrem).
    apply (remaining_advance [x00]) in Hrem. simpl length in Hrem.
    rewrite (IH te _ _ _ Ht Hfit (fresh_for_default te) Hrem). simpl.
    finish_cursor.
Qed.

Lemma reads_back_pair (a b : value) :
  reads_back a -> reads_back b -> reads_back (VPair a b).
Proof.
  intros IHa IHb t old r tail Ht Hfit Hfresh Hrem.
  destruct t as [| | | | |ta tb| | |]; try discriminate.
  cbn [has_type sizes_fit read encoding] in *.
  apply andb_prop in Ht as [Hta Htb]. apply andb_prop in Hfit as [Hfa Hfb].
  rewrite <- app_assoc in Hrem.
  rewrite (IHa ta _ _ _ Hta Hfa (fresh_for_first _ _ _ Hfresh) Hrem). simpl.
  apply remaining_advance in Hrem.
  rewrite (IHb tb _ _ _ Htb Hfb (fresh_for_second _ _ _ Hfresh) Hrem). simpl.
  finish_cursor.
Qed.

Lemma read_fields_back (vs : list value) :
  Forall reads_back vs ->
  forall ts olds r tail,
    all_fields (fun t x => has_type t x) ts vs = true ->
    forallb sizes_fit vs = true ->
    fresh_fields (fun t old => fresh_for t old) ts olds ->
    remaining r (concat_fields (fun t x => encoding t x) ts vs ++ tail) ->
    read_fields (fun t old r => read t old r) ts olds r
    = Returned (vs, advance (length (concat_fields (fun t x => encoding t x) ts vs)) r).
Proof.
  induction 1 as [|x vs Hx _ IH]; intros ts olds r tail Ht Hfit Hfresh Hrem.
  - destruct ts; try discriminate. simpl.
    rewrite advance_0. reflexivity.
  - destruct ts as [|t ts]; try discriminate. simpl in *.
    apply andb_prop in Ht as [Htx Ht]. apply andb_prop in Hfit as [Hfx Hfit].
    rewrite <- app_assoc in Hrem.
    assert (Hhd : fresh_for t (hd (default_value t) olds)).
    { destruct olds as [|old olds]; simpl; [apply fresh_for_default|].
      destruct Hfresh as [H _]. exact H. }
    assert (Htl : fresh_fields (fun t old => fresh_for t old) ts (tl olds)).
    { destruct olds as [|old olds]; simpl.
      - destruct ts; exact I.
      - destruct Hfresh as [_ H]. exact H. }
    rewrite (Hx t _ _ _ Htx Hfx Hhd Hrem). simpl.
    apply remaining_advance in Hrem.
    rewrite (IH ts _ _ _ Ht Hfit Htl Hrem). simpl.
    finish_cursor.
Qed.

Lemma reads_back_tuple (vs : list value) :
  Forall reads_back vs -> reads_back (VTuple vs).
Proof.
  intros IH t old r tail Ht Hfit Hfresh Hrem.
  destruct t as [| | | | | |ts| |]; try discriminate.
  cbn [has_type sizes_fit read encoding fresh_for] in *.
  rewrite (read_fields_back _ IH _ _ _ _ Ht Hfit Hfresh Hrem). reflexivity.
Qed.

Lemma reads_back_described (vs : list value) :
  Forall reads_back vs -> reads_back (VDescribed vs).
Proof.
  intros IH t old r tail Ht Hfit Hfresh Hrem.
  destruct t as [| | | | | | | |ts]; try discriminate.
  cbn [has_type sizes_fit read encoding fresh_for] in *.
  rewrite (read_fields_back _ IH _ _ _ _ Ht Hfit Hfresh Hrem). reflexivity.
Qed.

Lemma mp_with_index_nth {A B : Type} (f : A -> outcome B) (alts : list A) :
  forall i a, nth_error alts i = Some a -> mp_with_index f alts i = f a.
Proof.
  induction alts as [|a' alts IH]; intros [|i] a H; simpl in *; try discriminate.
  - congruence.
  - apply IH. exact H.
Qed.

Lemma mp_with_index_out_of_range {A B : Type} (f : A -> outcome B) (alts : list A) :
  forall i, (length alts <= i)%nat -> mp_with_index f alts i = Undefined.
Proof.
  induction alts as [|a' alts IH]; intros [|i] H; simpl in *; try reflexivity; try lia.
  apply IH. lia.
Qed.

Lemma reads_back_variant (index : nat) (x : value) :
  reads_back x -> reads_back (VVariant index x).
Proof.
  intros IH t old r tail Ht Hfit _ Hrem.
  destruct t as [| | | | | | |alts|]; try discriminate.
  cbn [has_type sizes_fit read encoding] in *.
  apply andb_prop in Hfit as [Hidx Hfit]. apply Z.ltb_lt in Hidx.
  destruct (nth_error alts index) as [t|] eqn:Halt; try discriminate.
  rewrite <- app_assoc in Hrem.
  rewrite (read_index_remaining _ _ _ Hidx Hrem).
  apply remaining_advance in Hrem. rewrite length_le_bytes in Hrem.
  rewrite (mp_with_index_nth _ _ _ _ Halt).
  rewrite (IH t _ _ _ Ht Hfit (fresh_for_default t) Hrem). simpl.
  finish_cursor.
Qed.

(** Every value is read back. *)
Lemma read_encoding (v : value) : reads_back v.
Proof.
  induction v using value_nested_ind;
    eauto using reads_back_trivial, reads_back_string, reads_back_vector,
      reads_back_none, reads_back_some, reads_back_expected, reads_back_pair,
      reads_back_tuple, reads_back_variant, reads_back_described.
Qed.



End WithState.








(** *** Tagged unions *)

Lemma read_index_bound {State : Type} (r : Reader State) :
  Z.of_nat (fst (read_index r)) < 2 ^ 16.
Proof.
  unfold read_index, read_bytes. simpl.
  pose proof (Z_of_byte_range (byte_at r (it r))) as H0.
  pose proof (Z_of_byte_range (byte_at r (S (it r)))) as H1.
  rewrite Z2Nat.id by lia. lia.
Qed.

(** C9, as amended.  Decoding a [std::variant] reads a 16-bit tag index;
    when the index is smaller than the number of alternatives the
    alternative it selects is decoded and becomes the value; the Reader
    does not check the index, and an index that is not smaller than the
    number of alternatives reaches [mp_with_index] outside its
    precondition: the result is undefined, nothing is signalled. *)
Theorem read_variant_by_index {State : Type} (alts : list ty) (old : value)
    (r : Reader State) :
  let index := fst (read_index r) in
  let r' := snd (read_index r) in
  Z.of_nat index < 2 ^ 16 /\
  r' = advance 2 r /\
  (forall t, nth_error alts index = Some t ->
     read (TVariant alts) old r
     = outcome_bind (read t (default_value t) r') (fun vr =>
       Returned (VVariant index (fst vr), snd vr))) /\
  ((length alts <= index)%nat ->
     read (TVariant alts) old r = Undefined /\
     signalled_failure (read (TVariant alts) old r) = false).
Proof.
  intros index r'. split; [apply read_index_bound|]. split; [reflexivity|].
  cbn [read]. fold (read_index r).
  destruct (read_index r) as [i r0] eqn:Hri. subst index r'. simpl fst. simpl snd.
  split.
  - intros t Ht. rewrite (mp_with_index_nth _ _ _ _ Ht). reflexivity.
  - intros Hle. rewrite mp_with_index_out_of_range by exact Hle.
    split; reflexivity.
Qed.

(** C9, witness: tag 1 of [std::variant<int, std::string>] selects the
    string; tag 2 is out of range. *)
Lemma read_variant_by_index_witness :
  let alts := [int32_t; std_string] in
  read (TVariant alts) (default_value (TVariant alts))
    (make_Reader [x01; x00; x01; x00; x00; x00; x78] tt (fun _ => x00))
  = Returned (VVariant 1 (narrow_string "x"),
              advance 7 (make_Reader [x01; x00; x01; x00; x00; x00; x78] tt (fun _ => x00)))
  /\
  read (TVariant alts) (default_value (TVariant alts))
    (make_Reader [x02; x00] tt (fun _ => x00)) = Undefined.
Proof.
  intros alts. split.
  - pose proof (read_variant_by_index alts (default_value (TVariant alts))
      (make_Reader [x01; x00; x01; x00; x00; x00; x78] tt (fun _ => x00))) as H.
    destruct H as (_ & _ & H & _). rewrite (H std_string); reflexivity.
  - pose proof (read_variant_by_index alts (default_value (TVariant alts))
      (make_Reader [x02; x00] tt (fun _ => x00))) as H.
    destruct H as (_ & _ & _ & H). apply H. vm_compute. lia.
Defined.

(** C9, counterexample: the payload 02 00 decoded as
    [std::variant<int, std::string>] carries tag index 2, which is not
    smaller than the number of alternatives, and decoding it is not a
    signalled failure. *)
Lemma read_variant_counterexample :
  let alts := [int32_t; std_string] in
  let r := make_Reader [x02; x00] tt (fun _ => x00) in
  fst (read_index r) = 2%nat /\
  (length alts <= fst (read_index r))%nat /\
  signalled_failure (read (TVariant alts) (default_value (TVariant alts)) r) = false.
Proof.
  intros alts r. split; [reflexivity|]. split; [vm_compute; lia | reflexivity].
Qed.

(** *** Reads are not checked against the end of the span *)

Lemma length_read_bytes {State : Type} (size : nat) (r : Reader State) :
  length (fst (read_bytes size r)) = size.
Proof. unfold read_bytes. simpl. rewrite length_map, length_seq. reflexivity. Qed.

Lemma nth_error_map_seq {A : Type} (f : nat -> A) (n : nat) :
  forall start i, (i < n)%nat ->
    nth_error (List.map f (seq start n)) i = Some (f (start + i)%nat).
Proof.
  induction n as [|n IH]; intros start i Hi; [lia|].
  destruct i as [|i]; simpl.
  - rewrite Nat.add_0_r. reflexivity.
  - rewrite IH by lia. f_equal. f_equal. lia.
Qed.

Lemma byte_at_cases {State : Type} (r : Reader State) (j : nat) :
  byte_at r j
  = if (j <? length (range r))%nat
    then nth j (range r) x00
    else memory_after r (j - length (range r))%nat.
Proof.
  unfold byte_at.
  destruct (Nat.ltb_spec j (length (range r))) as [Hlt | Hge].
  - destruct (nth_error (range r) j) as [b|] eqn:Hb.
    + symmetry. apply nth_error_nth. exact Hb.
    + apply nth_error_None in Hb. lia.
  - apply nth_error_None in Hge. rewrite Hge. reflexivity.
Qed.

Lemma byte_at_advance {State : Type} (n : nat) (r : Reader State) :
  byte_at (advance n r) = byte_at r.
Proof. reflexivity. Qed.

Lemma read_contiguous_bytes {State : Type} (size : nat) (r : Reader State) :
  read_contiguous size r
  = (List.map (byte_at r) (seq (it r) size), advance size r).
Proof.
  unfold read_contiguous. destruct size as [|size].
  - simpl. rewrite advance_0. reflexivity.
  - reflexivity.
Qed.

Lemma read_count_bytes {State : Type} (r : Reader State) :
  read_count r
  = (Z.to_nat (le_value (List.map (byte_at r) (seq (it r) 4))), advance 4 r).
Proof. reflexivity. Qed.

Lemma map_memory_after {State : Type} (r : Reader State) (n : nat) :
  forall start,
    List.map (byte_at r) (seq (length (range r) + start) n)
    = List.map (memory_after r) (seq start n).
Proof.
  induction n as [|n IH]; intros start; simpl; [reflexivity|].
  f_equal.
  - rewrite byte_at_cases.
    destruct (Nat.ltb_spec (length (range r) + start) (length (range r)));
      [lia|].
    f_equal. lia.
  - rewrite <- IH. f_equal. f_equal. lia.
Qed.

(** A payload shorter than a fixed-size value is decoded as its bytes
    followed by the bytes of the memory after it. *)
Lemma unmarshal_truncated {State : Type} (size : nat) (data : list byte)
    (state : State) (mem : nat -> byte) :
  (length data <= size)%nat ->
  unmarshal (TTrivial size) data state mem
  = Returned (VTrivial (data ++ List.map mem (seq 0 (size - length data)))).
Proof.
  intros Hle. unfold unmarshal. cbn [read read_bytes make_Reader it outcome_bind fst].
  do 2 f_equal.
  replace size with (length data + (size - length data))%nat at 1 by lia.
  rewrite seq_app, map_app. f_equal.
  - apply (map_byte_at data _ [] []). simpl. rewrite app_nil_r. reflexivity.
  - rewrite Nat.add_0_l.
    pose proof (map_memory_after (make_Reader data state mem)
                  (size - length data) 0) as H.
    cbn [range make_Reader memory_after] in H.
    rewrite Nat.add_0_r in H. exact H.
Qed.

(** C10.  The Reader never compares its cursor with the end of its span.
    For every Reader, wherever its cursor stands, and every size:
    - the primitive read yields exactly [size] bytes, the ones at the
      cursor, taken from the span as far as it goes and from the memory
      after it beyond, and advances the cursor by [size]; when fewer than
      [size] bytes were left the cursor ends past the end of the span;
    - the read of a contiguous range of trivially copyable elements, the
      read of a range into a span ([read_bytes]) and the read of a
      trivially copyable value do the same, and are never a failure;
    - a string and a vector of trivially copyable elements are read as the
      count at the cursor says: when the memory for that many elements is
      granted, that many elements are copied from behind the count and the
      cursor advances past them, whatever is left in the span;
    - so a payload shorter than a fixed-size value is decoded as its bytes
      followed by bytes of the memory after it: four bytes of a value are
      read from a payload of two; a string whose length prefix says five
      is read from a payload holding two characters, taking the next three
      from the memory after it; a vector of [int] whose length prefix says
      two is read from a payload holding one, taking the other from the
      memory after it; each leaves the cursor past the end of the span. *)
Theorem reader_is_unchecked (State : Type) (r : Reader State) (size : nat)
    (old : value) :
  let count := Z.to_nat (le_value (at_cursor r 4%nat)) in
  (read_bytes size r = (at_cursor r size, advance size r) /\
   length (at_cursor r size) = size /\
   (forall i, (i < size)%nat ->
      nth_error (at_cursor r size) i
      = Some (if (it r + i <? length (range r))%nat
              then nth (it r + i) (range r) x00
              else memory_after r (it r + i - length (range r))%nat)) /\
   ((length (range r) < it r + size)%nat ->
    past_the_end (advance size r) = true)) /\
  (read_contiguous size r = (at_cursor r size, advance size r) /\
   Reader_read_bytes size r
   = (at_cursor (advance 4 r) size, advance (4 + size)%nat r) /\
   read (TTrivial size) old r = Returned (VTrivial (at_cursor r size), advance size r)) /\
  (forall (allocate : ty -> nat -> bool) (char_size : nat),
     read_with allocate (TString char_size) old r
     = if granted allocate (TString char_size) count
       then Returned
              (VString (split_objects char_size count
                          (at_cursor (advance 4 r) (char_size * count)%nat)),
               advance (4 + char_size * count)%nat r)
       else Other_exception) /\
  (forall (allocate : ty -> nat -> bool) (elem_size : nat),
     read_with allocate (TVector (TTrivial elem_size)) old r
     = if granted allocate (TVector (TTrivial elem_size)) count
       then Returned
              (VVector (List.map VTrivial
                          (split_objects elem_size count
                             (at_cursor (advance 4 r) (elem_size * count)%nat))),
               advance (4 + elem_size * count)%nat r)
       else Other_exception) /\
  (forall (data : list byte) (state : State) (mem : nat -> byte),
     (length data <= size)%nat ->
     unmarshal (TTrivial size) data state mem
     = Returned (VTrivial (data ++ List.map mem (seq 0 (size - length data))))) /\
  (forall mem : nat -> byte,
     let r := make_Reader [x01; x02] tt mem in
     read int32_t (default_value int32_t) r
     = Returned (VTrivial [x01; x02; mem 0%nat; mem 1%nat], advance 4 r) /\
     past_the_end (advance 4 r) = true) /\
  (forall mem : nat -> byte,
     let r := make_Reader [x05; x00; x00; x00; x61; x62] tt mem in
     read std_string (default_value std_string) r
     = Returned (VString [[x61]; [x62]; [mem 0%nat]; [mem 1%nat]; [mem 2%nat]],
                 advance 9 r) /\
     past_the_end (advance 9 r) = true) /\
  (forall mem : nat -> byte,
     let r := make_Reader [x02; x00; x00; x00; x07; x00; x00; x00] tt mem in
     read (TVector int32_t) (default_value (TVector int32_t)) r
     = Returned (VVector [VTrivial [x07; x00; x00; x00];
                          VTrivial [mem 0%nat; mem 1%nat; mem 2%nat; mem 3%nat]],
                 advance 12 r) /\
     past_the_end (advance 12 r) = true).
Proof.
  intros count. subst count. unfold at_cursor.
  set (count := Z.to_nat (le_value (List.map (byte_at r) (seq (it r) 4)))).
  split; [|split; [|split; [|split; [|split; [|split; [|split]]]]]].
  - split; [reflexivity|]. split.
    { rewrite length_map, length_seq. reflexivity. }
    split.
    + intros i Hi.
      rewrite nth_error_map_seq by exact Hi.
      rewrite byte_at_cases. reflexivity.
    + intros Hshort. unfold past_the_end, advance. cbn [range it].
      apply Nat.ltb_lt. exact Hshort.
  - split; [apply read_contiguous_bytes|]. split; [|reflexivity].
    unfold Reader_read_bytes. rewrite read_count_bytes.
    rewrite read_contiguous_bytes, Nat.mul_1_l, advance_advance.
    reflexivity.
  - intros allocate char_size. cbn [read_with]. rewrite read_count_bytes.
    fold count. destruct (granted allocate (TString char_size) count);
      [|reflexivity].
    unfold read_bytes. fold (advance (char_size * count) (advance 4 r)).
    rewrite advance_advance. reflexivity.
  - intros allocate elem_size. cbn [read_with]. rewrite read_count_bytes.
    fold count. destruct (granted allocate (TVector (TTrivial elem_size)) count);
      [|reflexivity].
    cbn [trivially_copyable size_of].
    rewrite read_contiguous_bytes, advance_advance. reflexivity.
  - intros data state mem Hle. apply unmarshal_truncated. exact Hle.
  - intros mem. cbv zeta. split; reflexivity.
  - intros mem. cbv zeta. split; reflexivity.
  - intros mem. cbv zeta. split; reflexivity.
Qed.


(** *** Further properties of the codec *)

Section Codec.
Context {State : Type}.

Lemma remaining_make_Reader_all (data : list byte) (state : State) (mem : nat -> byte) :
  remaining (make_Reader data state mem) data.
Proof. unfold remaining, make_Reader. simpl. split; [lia | reflexivity]. Qed.

Lemma payload_of_encoding (t : ty) (v : value) (state : State) :
  payload_of t v state = encoding t v.
Proof. unfold payload_of. rewrite storage_write. reflexivity. Qed.

(** X2.  The wire format is unambiguous.  Two values of a type whose encodings,
    each followed by anything, give the same bytes are the same value, and
    what follows them is the same: no encoding is a proper prefix of
    another, so values written one after another can be told apart. *)
Theorem payload_of_prefix_free (t : ty) (v1 v2 : value) (state : State)
    (tail1 tail2 : list byte) :
  has_type t v1 = true -> sizes_fit v1 = true ->
  has_type t v2 = true -> sizes_fit v2 = true ->
  payload_of t v1 state ++ tail1 = payload_of t v2 state ++ tail2 ->
  v1 = v2 /\ tail1 = tail2.
Proof.
  intros Ht1 Hf1 Ht2 Hf2 Heq.
  rewrite !payload_of_encoding in Heq.
  set (r := make_Reader (encoding t v1 ++ tail1) state (fun _ => x00)).
  pose proof (read_encoding v1 t (default_value t) r tail1 Ht1 Hf1
                (fresh_for_default t) (remaining_make_Reader_all _ _ _)) as H1.
  assert (Hrem2 : remaining r (encoding t v2 ++ tail2)).
  { rewrite <- Heq. apply remaining_make_Reader_all. }
  pose proof (read_encoding v2 t (default_value t) r tail2 Ht2 Hf2
                (fresh_for_default t) Hrem2) as H2.
  rewrite H1 in H2. injection H2 as Hv _. subst v2.
  split; [reflexivity|]. apply (app_inv_head _ _ _ Heq).
Qed.

(** X3.  [Reader::read_bytes] does not use the count it reads: whatever the
    four bytes of the count say, the destination is filled with the
    [destination.size()] bytes that follow them and the cursor ends after
    those; what lies behind stays unread. *)
Theorem read_bytes_ignores_count (count data tail : list byte) (r : Reader State) :
  length count = 4%nat ->
  remaining r (count ++ data ++ tail) ->
  Reader_read_bytes (length data) r = (data, advance (4 + length data) r) /\
  get_remaining (advance (4 + length data) r) = tail.
Proof.
  intros Hcount Hrem.
  assert (Hrem' : remaining (advance 4 r) (data ++ tail)).
  { rewrite <- Hcount. apply (remaining_advance _ _ _ Hrem). }
  assert (Hend : remaining (advance (4 + length data) r) tail).
  { rewrite <- advance_advance. apply (remaining_advance _ _ _ Hrem'). }
  split; [|exact (proj2 Hend)].
  unfold Reader_read_bytes, read_count.
  pose proof (read_bytes_remaining _ _ _ Hrem) as Hread.
  rewrite Hcount in Hread. rewrite Hread.
  unfold read_contiguous. rewrite Nat.mul_1_l.
  destruct data as [|b data].
  - simpl. reflexivity.
  - change (Nat.eqb (length (b :: data)) 0) with false. cbv iota.
    fold (advance 4 r).
    rewrite (read_bytes_remaining (b :: data) tail _ Hrem').
    rewrite advance_advance. reflexivity.
Qed.

(** X4.  A target that is reused is not reset by an absent optional: reading
    the encoding of an empty [std::optional] into an optional that holds
    a value leaves that value in place, so the object read differs from
    the one written. *)
Theorem read_absent_optional_keeps_target (elem : ty) (x : value) (state : State)
    (mem : nat -> byte) :
  let data := payload_of (TOptional elem) (VOptional None) state in
  let r := make_Reader data state mem in
  read (TOptional elem) (VOptional (Some x)) r
  = Returned (VOptional (Some x), advance (length data) r) /\
  get_remaining (advance (length data) r) = [].
Proof.
  intros data r.
  assert (Hdata : data = [x00]) by reflexivity.
  rewrite Hdata. split; [|reflexivity].
  cbn [read].
  rewrite (read_bool_remaining false [] r).
  - reflexivity.
  - unfold r. rewrite Hdata. apply remaining_make_Reader_all.
Qed.

End Codec.

(** Two ways of writing the same [std::optional<int>], each followed by
    one more byte. *)
Lemma payload_of_prefix_free_witness :
  let t := TOptional int32_t in
  let v1 := VOptional (Some (int32 17)) in
  let v2 := VOptional (Some (VTrivial [x11; x00; x00; x00])) in
  has_type t v1 = true /\ sizes_fit v1 = true /\
  has_type t v2 = true /\ sizes_fit v2 = true /\
  payload_of t v1 tt ++ [x2a] = payload_of t v2 tt ++ [x2a] /\
  v1 = v2 /\ [x2a] = [x2a].
Proof.
  repeat (split; [reflexivity|]).
  apply (payload_of_prefix_free (TOptional int32_t)
           (VOptional (Some (int32 17)))
           (VOptional (Some (VTrivial [x11; x00; x00; x00]))) tt [x2a] [x2a]);
    reflexivity.
Defined.

(** A count of 9 in front of two bytes read into a destination of two. *)
Lemma read_bytes_ignores_count_witness :
  let r := make_Reader (le_bytes 4 9 ++ [x11; x22] ++ [x33]) tt (fun _ => x00) in
  Reader_read_bytes 2 r = ([x11; x22], advance 6 r) /\
  get_remaining (advance 6 r) = [x33].
Proof.
  intros r.
  apply (read_bytes_ignores_count (le_bytes 4 9) [x11; x22] [x33] r).
  - reflexivity.
  - split; [simpl; lia | reflexivity].
Defined.
End SerializerFacts.
Module MarshalFacts.
Import Serializer SerializerFacts Marshal.

(** *** The Reader reports nothing *)

Lemma quiet_bind {A B : Type} (o : outcome A) (k : A -> outcome B) :
  quiet o -> (forall a, quiet (k a)) -> quiet (outcome_bind o k).
Proof. destruct o; simpl; auto. Qed.

Lemma quiet_not_signalled {A : Type} (o : outcome A) :
  quiet o -> signalled_failure o = false.
Proof. destruct o; simpl; intros H; try reflexivity; destruct H. Qed.

Section Quiet.
Context {State : Type}.

Lemma read_elements_quiet (read_elem : Reader State -> outcome (value * Reader State)) :
  (forall r, quiet (read_elem r)) ->
  forall count r, quiet (read_elements read_elem count r).
Proof.
  intros Helem. induction count as [|count IH]; intros r; simpl; [exact I|].
  apply quiet_bind; [apply Helem|]. intros vr.
  apply quiet_bind; [apply IH|]. intros vsr. exact I.
Qed.

Lemma read_fields_quiet (ts : list ty) :
  Forall (fun t => forall old (r : Reader State), quiet (read t old r)) ts ->
  forall olds (r : Reader State),
    quiet (read_fields (fun t old r => read t old r) ts olds r).
Proof.
  induction 1 as [|t ts Ht _ IH]; intros olds r; simpl; [exact I|].
  apply quiet_bind; [apply Ht|]. intros vr.
  apply quiet_bind; [apply IH|]. intros vsr. exact I.
Qed.

Lemma mp_with_index_quiet {A B : Type} (f : A -> outcome B) (alts : list A) :
  Forall (fun a => quiet (f a)) alts ->
  forall i, quiet (mp_with_index f alts i).
Proof.
  induction 1 as [|a alts Ha _ IH]; intros [|i]; simpl; auto.
Qed.

(** Whatever the bytes, a read that obtains the memory it asks for ends
    normally or in undefined behaviour: no overload of [Reader::read]
    throws an exception of its own. *)
Lemma read_quiet (t : ty) :
  forall old (r : Reader State), quiet (read t old r).
Proof.
  induction t as [size|cs|elem IH|elem IH|tv te IHv IHe|a b IHa IHb|ts IH|ts IH|ts IH]
    using ty_nested_ind; intros old r; cbn [read].
  - destruct (read_bytes size r). exact I.
  - destruct (read_count r) as [count r1].
    destruct (read_bytes (cs * count) r1). exact I.
  - destruct (read_count r) as [count r1].
    destruct (trivially_copyable elem).
    + destruct (read_contiguous (size_of elem * count) r1). exact I.
    + apply quiet_bind; [|intros; exact I].
      apply read_elements_quiet. intros r2. apply IH.
  - destruct (read_bool r) as [[|] r1]; [|exact I].
    apply quiet_bind; [apply IH | intros; exact I].
  - destruct (read_bool r) as [[|] r1];
      (apply quiet_bind; [auto | intros; exact I]).
  - apply quiet_bind; [apply IHa|]. intros ar.
    apply quiet_bind; [apply IHb|]. intros br. exact I.
  - apply quiet_bind; [|intros; exact I].
    apply read_fields_quiet. exact IH.
  - destruct (read_index r) as [index r1].
    apply mp_with_index_quiet.
    eapply Forall_impl; [exact IH|]. intros t Ht. simpl.
    apply quiet_bind; [apply Ht | intros; exact I].
  - apply quiet_bind; [|intros; exact I].
    apply read_fields_quiet. exact IH.
Qed.

Lemma unmarshal_quiet (t : ty) (data : list byte) (state : State) (mem : nat -> byte) :
  quiet (unmarshal t data state mem).
Proof.
  unfold unmarshal. apply quiet_bind; [apply read_quiet | intros; exact I].
Qed.

End Quiet.

(** *** The method map is sorted by identifier *)

Lemma insert_entry_perm (e : method_map_entry) (l : list method_map_entry) :
  Permutation (insert_entry e l) (e :: l).
Proof.
  induction l as [|x l IH]; simpl.
  - apply Permutation_refl.
  - destruct (entry_name e <=? entry_name x).
    + apply Permutation_refl.
    + eapply Permutation_trans; [apply perm_skip, IH | apply perm_swap].
Qed.

Lemma sort_by_name_perm (l : list method_map_entry) : Permutation (sort_by_name l) l.
Proof.
  induction l as [|x l IH]; simpl.
  - apply Permutation_refl.
  - eapply Permutation_trans; [apply insert_entry_perm | apply perm_skip, IH].
Qed.

Lemma insert_entry_sorted (e : method_map_entry) (l : list method_map_entry) :
  StronglySorted name_le l -> StronglySorted name_le (insert_entry e l).
Proof.
  induction 1 as [|x l Hl IH Hx]; simpl.
  - constructor; constructor.
  - destruct (entry_name e <=? entry_name x) eqn:Hle.
    + apply Z.leb_le in Hle. constructor; [constructor; assumption|].
      constructor; [exact Hle|].
      eapply Forall_impl; [exact Hx|]. unfold name_le. intros y Hy. simpl in *. lia.
    + apply Z.leb_gt in Hle. constructor; [exact IH|].
      eapply Permutation_Forall; [symmetry; apply insert_entry_perm|].
      constructor; [unfold name_le; lia | exact Hx].
Qed.

Lemma sort_by_name_sorted (l : list method_map_entry) :
  StronglySorted name_le (sort_by_name l).
Proof.
  induction l as [|x l IH]; simpl; [constructor|].
  apply insert_entry_sorted. exact IH.
Qed.

Lemma sorted_nth_error (l : list method_map_entry) :
  StronglySorted name_le l ->
  forall i j ei ej,
    (i <= j)%nat -> nth_error l i = Some ei -> nth_error l j = Some ej ->
    entry_name ei <= entry_name ej.
Proof.
  induction 1 as [|x l Hl IH Hx]; intros i j ei ej Hij Hi Hj.
  - destruct i; discriminate.
  - destruct i as [|i], j as [|j]; simpl in *; try lia.
    + injection Hi as <-. injection Hj as <-. lia.
    + injection Hi as <-. apply nth_error_In in Hj.
      rewrite Forall_forall in Hx. apply (Hx ej).
      apply list_elem_of_In. exact Hj.
    + apply (IH i j); auto. lia.
Qed.

Lemma nth_error_lt {A : Type} (l : list A) (j : nat) (a : A) :
  nth_error l j = Some a -> (j < length l)%nat.
Proof. intros H. apply nth_error_Some. congruence. Qed.

(** *** Binary search *)

Section Search.
Context (map : list method_map_entry) (value : method_id).
Hypothesis map_sorted : StronglySorted name_le map.

Lemma lower_bound_loop_brackets (fuel : nat) :
  forall first count,
    (count <= fuel)%nat -> brackets map value first count ->
    brackets map value (lower_bound_loop fuel map value first count) 0.
Proof.
  induction fuel as [|fuel IH]; intros first count Hfuel Hb; cbn [lower_bound_loop].
  - assert (count = 0%nat) by lia. subst count. exact Hb.
  - destruct (Nat.eqb count 0) eqn:Hc.
    + apply Nat.eqb_eq in Hc. subst count. exact Hb.
    + apply Nat.eqb_neq in Hc.
      destruct Hb as (Hlen & Hbefore & Hafter).
      assert (Hstep : (count / 2 < count)%nat) by (apply Nat.div_lt; lia).
      destruct (nth_error map (first + count / 2)) as [e|] eqn:He.
      2:{ apply nth_error_None in He. lia. }
      destruct (entry_name e <? value) eqn:Hlt.
      * apply Z.ltb_lt in Hlt. apply IH; [lia|].
        split; [lia|]. split.
        -- intros j ej Hj Hej.
           assert (entry_name ej <= entry_name e)
             by (apply (sorted_nth_error map map_sorted j (first + count / 2)); auto; lia).
           lia.
        -- intros j ej Hj Hej. apply (Hafter j ej); [lia | exact Hej].
      * apply Z.ltb_ge in Hlt. apply IH; [lia|].
        split; [lia|]. split; [exact Hbefore|].
        intros j ej Hj Hej.
        assert (entry_name e <= entry_name ej)
          by (apply (sorted_nth_error map map_sorted (first + count / 2) j); auto).
        lia.
Qed.

(** [lower_bound] returns the first position whose identifier is not
    smaller than [value]. *)
Lemma lower_bound_brackets : brackets map value (lower_bound map value) 0.
Proof.
  unfold lower_bound. apply lower_bound_loop_brackets; [lia|].
  split; [simpl; lia|]. split.
  - intros j e Hj. lia.
  - intros j e Hj He. apply nth_error_lt in He. simpl in Hj. lia.
Qed.

Lemma lower_bound_finds (j : nat) (ej : method_map_entry) :
  nth_error map j = Some ej -> entry_name ej = value ->
  exists e, nth_error map (lower_bound map value) = Some e /\ entry_name e = value.
Proof.
  intros Hj Hname.
  destruct lower_bound_brackets as (Hlen & Hbefore & Hafter).
  set (i := lower_bound map value) in *.
  assert (Hij : (i <= j)%nat).
  { destruct (Nat.le_gt_cases i j) as [H|H]; [exact H|].
    specialize (Hbefore j ej H Hj). lia. }
  assert (Hi : (i < length map)%nat).
  { apply nth_error_lt in Hj. lia. }
  destruct (nth_error map i) as [e|] eqn:He.
  2:{ apply nth_error_None in He. lia. }
  exists e. split; [reflexivity|].
  assert (value <= entry_name e) by (apply (Hafter i e); [lia | exact He]).
  assert (entry_name e <= entry_name ej)
    by (apply (sorted_nth_error map map_sorted i j); auto).
  lia.
Qed.

End Search.

(** *** The entries of the method map *)

Section Dispatch.
Context (char_is_signed : bool) (Methods : list method_descriptor).

Abbreviation id_of := (get_method_id char_is_signed).
Abbreviation method_map := (static_method_map char_is_signed Methods).
Abbreviation ids := (List.map (get_method_id char_is_signed) Methods).

Lemma fill_method_map_nth (methods : list method_descriptor) :
  forall ord k,
    nth_error (fill_method_map char_is_signed ord methods) k
    = option_map (fun M => {| entry_name := id_of M; ordinal := ord + k |})
        (nth_error methods k).
Proof.
  induction methods as [|M methods IH]; intros ord k; simpl.
  - destruct k; reflexivity.
  - destruct k as [|k]; simpl.
    + rewrite Nat.add_0_r. reflexivity.
    + rewrite IH. replace (S ord + k)%nat with (ord + S k)%nat by lia. reflexivity.
Qed.

(** Every entry of the map pairs the identifier of a member with the
    position of that member in the interface, and every member has its
    entry. *)
Lemma method_map_entries (e : method_map_entry) :
  In e method_map <->
  exists M, nth_error Methods (ordinal e) = Some M /\ entry_name e = id_of M.
Proof.
  unfold static_method_map, build_method_map.
  split.
  - intros He.
    apply (Permutation_in _ (sort_by_name_perm _)) in He.
    apply In_nth_error in He as [k Hk].
    rewrite fill_method_map_nth in Hk.
    destruct (nth_error Methods k) as [M|] eqn:HM; [|discriminate].
    simpl in Hk. injection Hk as <-. simpl. eauto.
  - intros (M & HM & Hname).
    apply (Permutation_in _ (Permutation_sym (sort_by_name_perm _))).
    apply (nth_error_In _ (ordinal e)).
    rewrite fill_method_map_nth, HM. simpl.
    destruct e as [n o]. simpl in *. subst n. reflexivity.
Qed.

Lemma method_map_sorted : StronglySorted name_le method_map.
Proof. apply sort_by_name_sorted. Qed.

Lemma find_entry_Some (name : method_id) (e : method_map_entry) :
  find_entry char_is_signed Methods name = Some e ->
  entry_name e = name /\
  exists M, nth_error Methods (ordinal e) = Some M /\ id_of M = name.
Proof.
  unfold find_entry. intros H.
  destruct (nth_error method_map (lower_bound method_map name)) as [e'|] eqn:He';
    [|discriminate].
  destruct (entry_name e' =? name) eqn:Hn; [|discriminate].
  injection H as <-. apply Z.eqb_eq in Hn. split; [exact Hn|].
  apply nth_error_In in He'. apply method_map_entries in He' as (M & HM & HeM).
  exists M. split; [exact HM | congruence].
Qed.

Lemma find_entry_complete (name : method_id) :
  In name ids -> exists e, find_entry char_is_signed Methods name = Some e.
Proof.
  intros Hin. apply in_map_iff in Hin as (M & HidM & HM).
  apply In_nth_error in HM as [k Hk].
  assert (He : In {| entry_name := name; ordinal := k |} method_map).
  { apply method_map_entries. exists M. simpl. auto. }
  apply In_nth_error in He as [j Hj].
  destruct (lower_bound_finds method_map name method_map_sorted j _ Hj eq_refl)
    as (e & He & Hname).
  exists e. unfold find_entry. rewrite He.
  apply Z.eqb_eq in Hname. rewrite Hname. reflexivity.
Qed.

Lemma find_entry_None (name : method_id) :
  find_entry char_is_signed Methods name = None <-> ~ In name ids.
Proof.
  split.
  - intros Hnone Hin. apply find_entry_complete in Hin as [e He]. congruence.
  - intros Hnot.
    destruct (find_entry char_is_signed Methods name) as [e|] eqn:He; [|reflexivity].
    apply find_entry_Some in He as (_ & M & HM & Hname).
    exfalso. apply Hnot. apply in_map_iff. exists M. split; [exact Hname|].
    apply (nth_error_In _ _ HM).
Qed.

(** With distinct identifiers the entry found is the one of the member
    that carries the identifier. *)
Lemma find_entry_unique (name : method_id) (I : nat) (M : method_descriptor) :
  NoDup ids -> nth_error Methods I = Some M -> id_of M = name ->
  find_entry char_is_signed Methods name = Some {| entry_name := name; ordinal := I |}.
Proof.
  intros Hnodup HM Hname.
  destruct (find_entry_complete name) as [e He].
  { apply in_map_iff. exists M. split; [exact Hname | apply (nth_error_In _ _ HM)]. }
  rewrite He. f_equal.
  apply find_entry_Some in He as (Hen & M' & HM' & Hname').
  assert (Hord : ordinal e = I).
  { apply NoDup_ListNoDup in Hnodup.
    apply (proj1 (NoDup_nth_error ids) Hnodup).
    - rewrite length_map. apply (nth_error_lt _ _ _ HM').
    - rewrite !nth_error_map, HM, HM'. simpl. congruence. }
  destruct e as [n o]. simpl in *. congruence.
Qed.

Section Server.
Context {State : Type} (state : State) (memory_after : nat -> byte).
Context (implementation : nat -> value -> outcome value).

Abbreviation dispatch := (dispatch char_is_signed Methods state memory_after implementation).
Abbreviation dispatch_member := (dispatch_member state memory_after implementation).
Abbreviation void_dispatch := (void_dispatch char_is_signed Methods state memory_after implementation).
Abbreviation read_args := (read_args state memory_after).

Lemma dispatch_member_not_E_NOTIMPL (I : nat) (M : method_descriptor) (data : payload_t) :
  dispatch_member I M data <> (Hresult_error E_NOTIMPL, []).
Proof.
  unfold Marshal.dispatch_member.
  pose proof (unmarshal_quiet (stored_args_t M) data state memory_after) as Hq.
  unfold Marshal.read_args.
  destruct (unmarshal (stored_args_t M) data state memory_after);
    simpl in Hq; try contradiction; try discriminate.
  destruct (result M); discriminate.
Qed.

(** C7, as amended.  [dispatch(method_id, payload)] throws [E_NOTIMPL]
    without calling the implementation if and only if [method_id] is not
    the identifier of a member of the described interface.  Otherwise,
    identifiers being distinct, the binary search over the map sorted by
    identifier finds the entry of the one member [M] that carries the
    identifier, and [dispatch] runs the body of that member: the argument
    tuple is decoded from the payload and, when [M] returns a future, the
    callable of exactly that member is called once with the decoded tuple;
    when [M] is a fire-and-forget member ([void]), [dispatch] calls nothing
    and returns an empty payload (such members are called through
    [void_dispatch]). *)
Theorem dispatch_by_method_id (name : method_id) (data : payload_t) :
  (dispatch name data = (Hresult_error E_NOTIMPL, []) <-> ~ In name ids) /\
  (forall I M,
     NoDup ids -> nth_error Methods I = Some M -> id_of M = name ->
     find_entry char_is_signed Methods name
     = Some {| entry_name := name; ordinal := I |} /\
     dispatch name data = dispatch_member I M data /\
     (forall tuple,
        read_args M data = Returned tuple ->
        snd (dispatch name data)
        = if is_void M then []
          else [{| invoked_ordinal := I; invoked_args := tuple |}]) /\
     (is_void M = true ->
        forall tuple, read_args M data = Returned tuple ->
        dispatch name data = (Returned [], []))).
Proof.
  split.
  - split.
    + intros Hd. apply find_entry_None.
      unfold Marshal.dispatch in Hd.
      destruct (find_entry char_is_signed Methods name) as [e|] eqn:He; [|reflexivity].
      exfalso.
      destruct (find_entry_Some _ _ He) as (_ & M & HM & _).
      rewrite HM in Hd. exact (dispatch_member_not_E_NOTIMPL _ _ _ Hd).
    + intros Hnot. apply find_entry_None in Hnot.
      unfold Marshal.dispatch. rewrite Hnot. reflexivity.
  - intros I M Hnodup HM Hname.
    pose proof (find_entry_unique name I M Hnodup HM Hname) as Hfind.
    assert (Hd : dispatch name data = dispatch_member I M data).
    { unfold Marshal.dispatch. rewrite Hfind. simpl. rewrite HM. reflexivity. }
    split; [exact Hfind|]. split; [exact Hd|]. split.
    + intros tuple Htuple. rewrite Hd.
      unfold Marshal.dispatch_member, is_void. rewrite Htuple.
      destruct (result M); reflexivity.
    + intros Hvoid tuple Htuple. rewrite Hd.
      unfold Marshal.dispatch_member, is_void in *. rewrite Htuple.
      destruct (result M); try discriminate. reflexivity.
Qed.

End Server.

End Dispatch.

Lemma CalculatorService_ids_distinct :
  NoDup (List.map (get_method_id true) CalculatorService).
Proof. apply (bool_decide_unpack _). vm_compute. exact I. Qed.

(** C7, witness: [simple_sum(17, 42)] of the sample is found at ordinal 0
    and its callable is called with the decoded pair; identifier 5 is of no
    member. *)
Lemma dispatch_by_method_id_witness :
  let name := get_method_id true
                {| name := "simple_sum"; result := ret_future int32_t;
                   stored_args := [int32_t; int32_t] |} in
  let data := marshal_args tt [(int32_t, int32 17); (int32_t, int32 42)] in
  NoDup (List.map (get_method_id true) CalculatorService) /\
  snd (dispatch true CalculatorService tt (fun _ => x00) calculator name data)
  = [{| invoked_ordinal := 0; invoked_args := VTuple [int32 17; int32 42] |}] /\
  dispatch true CalculatorService tt (fun _ => x00) calculator 5 []
  = (Hresult_error E_NOTIMPL, []).
Proof.
  intros name data.
  split; [exact CalculatorService_ids_distinct|]. split.
  - destruct (dispatch_by_method_id true CalculatorService tt (fun _ => x00)
                calculator name data) as [_ H].
    destruct (H 0%nat _ CalculatorService_ids_distinct eq_refl eq_refl)
      as (_ & _ & Hcall & _).
    rewrite (Hcall (VTuple [int32 17; int32 42])); reflexivity.
  - apply (dispatch_by_method_id true CalculatorService tt (fun _ => x00) calculator 5 []).
    vm_compute. intuition discriminate.
Defined.

(** C7, counterexample: the identifier of [send_telemetry_event] is the
    identifier of a member of the interface, yet [dispatch] with it returns
    without calling the implementation. *)
Lemma dispatch_counterexample :
  let M := {| name := "send_telemetry_event"; result := ret_void;
              stored_args := [telemetry_info] |} in
  let data := marshal_args tt
                [(telemetry_info,
                  VTuple [narrow_string "Test 1"; VTrivial (le_bytes 4 0);
                          VTrivial [x01]; VTrivial (le_bytes 8 1700000000)])] in
  nth_error CalculatorService 4 = Some M /\
  In (get_method_id true M) (List.map (get_method_id true) CalculatorService) /\
  dispatch true CalculatorService tt (fun _ => x00) calculator
    (get_method_id true M) data = (Returned [], []) /\
  snd (void_dispatch true CalculatorService tt (fun _ => x00) calculator
         (get_method_id true M) data) <> [].
Proof.
  intros M data. split; [reflexivity|]. split.
  - vm_compute. tauto.
  - split; [vm_compute; reflexivity | vm_compute; discriminate].
Qed.


(** *** Decoding checks nothing, and asks for what the payload says *)

Section Total.
Context {State : Type}.






Section Allocator.
Context (allocate : ty -> nat -> bool).




End Allocator.

End Total.

(** *** The stub and the server agree on the arguments *)

Section Arguments.
Context {State : Type}.





End Arguments.

(** *** The members [dispatch] and [void_dispatch] run *)

Section Members.
Context (char_is_signed : bool) (Methods : list method_descriptor).
Context {State : Type} (state : State) (memory_after : nat -> byte).
Context (implementation : nat -> value -> outcome value).

Abbreviation id_of := (get_method_id char_is_signed).
Abbreviation method_map := (static_method_map char_is_signed Methods).
Abbreviation ids := (List.map (get_method_id char_is_signed) Methods).
Abbreviation dispatch := (dispatch char_is_signed Methods state memory_after implementation).
Abbreviation dispatch_member := (dispatch_member state memory_after implementation).
Abbreviation void_dispatch := (void_dispatch char_is_signed Methods state memory_after implementation).
Abbreviation void_dispatch_member := (void_dispatch_member state memory_after implementation).
Abbreviation read_args := (read_args state memory_after).

(** X7.  The method map [build_method_map] computes is sorted by identifier and
    holds, for every member of the interface and for nothing else, the
    identifier of the member with the position of its declaration. *)
Theorem static_method_map_sorted_complete :
  StronglySorted name_le method_map /\
  Permutation method_map (fill_method_map char_is_signed 0 Methods) /\
  length method_map = length Methods /\
  (forall e, In e method_map <->
             exists M, nth_error Methods (ordinal e) = Some M /\
                       entry_name e = id_of M).
Proof.
  split; [apply method_map_sorted|]. split; [apply sort_by_name_perm|]. split.
  - unfold static_method_map, build_method_map.
    rewrite (Permutation_length (sort_by_name_perm _)).
    clear. generalize 0%nat.
    induction Methods as [|M l IH]; intros ord; simpl; [reflexivity|].
    rewrite IH. reflexivity.
  - apply method_map_entries.
Qed.

(** X8.  Whatever the identifier and whether or not two members share one,
    [dispatch] and [void_dispatch] either throw [E_NOTIMPL] or run the
    body of a member of the interface that carries the identifier: the
    ordinal of the entry found is the position of a member, so the member
    selection is never outside its bounds. *)
Theorem dispatch_selects_member (name : method_id) (data : payload_t) :
  (dispatch name data = (Hresult_error E_NOTIMPL, []) /\
   void_dispatch name data = (Hresult_error E_NOTIMPL, []) /\
   ~ In name ids) \/
  (exists I M,
     nth_error Methods I = Some M /\ id_of M = name /\
     dispatch name data = dispatch_member I M data /\
     void_dispatch name data = void_dispatch_member I M data).
Proof.
  unfold Marshal.dispatch, Marshal.void_dispatch.
  destruct (find_entry char_is_signed Methods name) as [e|] eqn:He.
  - right. destruct (find_entry_Some _ _ _ _ He) as (_ & M & HM & Hname).
    exists (ordinal e), M. rewrite HM. auto.
  - left. apply find_entry_None in He. auto.
Qed.

Lemma void_dispatch_member_not_E_NOTIMPL (I : nat) (M : method_descriptor)
    (data : payload_t) :
  void_dispatch_member I M data <> (Hresult_error E_NOTIMPL, []).
Proof.
  unfold Marshal.void_dispatch_member.
  pose proof (unmarshal_quiet (stored_args_t M) data state memory_after) as Hq.
  unfold Marshal.read_args.
  destruct (result M); try discriminate.
  destruct (unmarshal (stored_args_t M) data state memory_after);
    simpl in Hq; try contradiction; discriminate.
Qed.

(** X9.  [void_dispatch(method_id, payload)] throws [E_NOTIMPL] without calling
    the implementation if and only if the identifier is of no member.
    Otherwise, identifiers being distinct, it runs the body of the member
    that carries the identifier: a fire-and-forget member is called once
    with the tuple decoded from the payload and what it throws is what
    [void_dispatch] throws; for a member that returns a future nothing is
    called and [void_dispatch] returns normally. *)
Theorem void_dispatch_by_method_id (name : method_id) (data : payload_t) :
  (void_dispatch name data = (Hresult_error E_NOTIMPL, []) <-> ~ In name ids) /\
  (forall I M,
     NoDup ids -> nth_error Methods I = Some M -> id_of M = name ->
     void_dispatch name data = void_dispatch_member I M data /\
     (is_void M = false -> void_dispatch name data = (Returned tt, [])) /\
     (is_void M = true ->
        forall tuple, read_args M data = Returned tuple ->
        void_dispatch name data
        = (outcome_bind (implementation I tuple) (fun _ => Returned tt),
           [{| invoked_ordinal := I; invoked_args := tuple |}]))).
Proof.
  split.
  - split.
    + intros Hd. apply find_entry_None.
      unfold Marshal.void_dispatch in Hd.
      destruct (find_entry char_is_signed Methods name) as [e|] eqn:He; [|reflexivity].
      exfalso.
      destruct (find_entry_Some _ _ _ _ He) as (_ & M & HM & _).
      rewrite HM in Hd. exact (void_dispatch_member_not_E_NOTIMPL _ _ _ Hd).
    + intros Hnot. apply find_entry_None in Hnot.
      unfold Marshal.void_dispatch. rewrite Hnot. reflexivity.
  - intros I M Hnodup HM Hname.
    pose proof (find_entry_unique _ _ name I M Hnodup HM Hname) as Hfind.
    assert (Hd : void_dispatch name data = void_dispatch_member I M data).
    { unfold Marshal.void_dispatch. rewrite Hfind. simpl. rewrite HM. reflexivity. }
    split; [exact Hd|]. split.
    + intros Hvoid. rewrite Hd.
      unfold Marshal.void_dispatch_member, is_void in *.
      destruct (result M); try discriminate; reflexivity.
    + intros Hvoid tuple Htuple. rewrite Hd.
      unfold Marshal.void_dispatch_member, is_void in *.
      destruct (result M); try discriminate. rewrite Htuple. reflexivity.
Qed.



End Members.



(** [send_telemetry_event] of the sample is called through [void_dispatch]
    with the decoded event; identifier 5 is of no member. *)
Lemma void_dispatch_by_method_id_witness :
  let M := {| name := "send_telemetry_event"; result := ret_void;
              stored_args := [telemetry_info] |} in
  let tm := VTuple [narrow_string "Test 1"; VTrivial (le_bytes 4 0);
                    VTrivial [x01]; VTrivial (le_bytes 8 1700000000)] in
  let data := call_payload tt [telemetry_info] [tm] in
  NoDup (List.map (get_method_id true) CalculatorService) /\
  void_dispatch true CalculatorService tt (fun _ => x00) calculator
    (get_method_id true M) data
  = (Returned tt, [{| invoked_ordinal := 4; invoked_args := VTuple [tm] |}]) /\
  void_dispatch true CalculatorService tt (fun _ => x00) calculator 5 []
  = (Hresult_error E_NOTIMPL, []).
Proof.
  intros M tm data.
  split; [exact CalculatorService_ids_distinct|]. split.
  - destruct (void_dispatch_by_method_id true CalculatorService tt (fun _ => x00)
                calculator (get_method_id true M) data) as [_ H].
    destruct (H 4%nat M CalculatorService_ids_distinct eq_refl eq_refl)
      as (_ & _ & Hcall).
    rewrite (Hcall eq_refl (VTuple [tm])); reflexivity.
  - apply (void_dispatch_by_method_id true CalculatorService tt (fun _ => x00)
             calculator 5 []).
    vm_compute. intuition discriminate.
Defined.


End MarshalFacts.
Module ConnectionFacts.
Import Serializer SerializerFacts Marshal Connection.

(** *** Delivering completions *)

Lemma deliver_lookup_eq (p : nat) (x : completion) (ps : gmap nat (list completion)) :
  deliver p x ps !! p = Some (default [] (ps !! p) ++ [x]).
Proof. unfold deliver. apply lookup_insert_eq. Qed.

Lemma deliver_lookup_ne (p q : nat) (x : completion) (ps : gmap nat (list completion)) :
  p <> q -> deliver p x ps !! q = ps !! q.
Proof. intros H. unfold deliver. apply lookup_insert_ne. exact H. Qed.

Lemma cancel_pending_other (pending : list (Z * nat)) (ps : gmap nat (list completion))
    (p : nat) :
  p ∉ pending.*2 -> cancel_pending pending ps !! p = ps !! p.
Proof.
  induction pending as [|[k q] pending IH]; simpl; intros Hp; [reflexivity|].
  rewrite not_elem_of_cons in Hp. destruct Hp as [Hne Hp].
  rewrite deliver_lookup_ne by congruence. apply IH. exact Hp.
Qed.

Lemma cancel_pending_one (pending : list (Z * nat)) (ps : gmap nat (list completion))
    (p : nat) :
  NoDup pending.*2 -> p ∈ pending.*2 -> ps !! p = None ->
  cancel_pending pending ps !! p = Some [operation_cancelled_set].
Proof.
  induction pending as [|[k q] pending IH]; simpl; intros Hnd Hp Hnone.
  - apply elem_of_nil in Hp. destruct Hp.
  - apply NoDup_cons in Hnd as [Hq Hnd].
    apply elem_of_cons in Hp as [->|Hp].
    + rewrite deliver_lookup_eq.
      rewrite cancel_pending_other by exact Hq. rewrite Hnone. reflexivity.
    + assert (q <> p) by (intros ->; contradiction).
      rewrite deliver_lookup_ne by assumption. apply IH; assumption.
Qed.

(** *** What holds of every connection *)

Lemma invariant_same_calls (c c' : connection) :
  same_calls c c' -> invariant c -> invariant c'.
Proof.
  intros (Hc & Hp & Hn) [H1 H2 H3].
  split; rewrite ?Hc, ?Hp, ?Hn; assumption.
Qed.

Lemma same_calls_refl (c : connection) : same_calls c c.
Proof. repeat split. Qed.

Lemma same_calls_trans (c1 c2 c3 : connection) :
  same_calls c1 c2 -> same_calls c2 c3 -> same_calls c1 c3.
Proof.
  intros (A1 & A2 & A3) (B1 & B2 & B3). repeat split; congruence.
Qed.

Lemma same_calls_push (m : message_t) (c : connection) : same_calls c (push m c).
Proof. repeat split. Qed.

Lemma same_calls_error_on_background (hr : HRESULT) (on : captured_on) (c : connection) :
  same_calls c (error_on_background hr on c).
Proof. unfold error_on_background. destruct (error_handler c); repeat split. Qed.

Lemma same_calls_on_error (f : nat) (c : connection) : same_calls c (on_error f c).
Proof.
  unfold on_error. destruct (last_error c) as [[hr on]|]; repeat split.
Qed.

Lemma invariant_new : invariant new_connection.
Proof.
  split; simpl.
  - intros key p H. rewrite lookup_empty in H. discriminate.
  - intros key1 key2 p H. rewrite lookup_empty in H. discriminate.
  - intros p l H. rewrite lookup_empty in H. discriminate.
Qed.

Section Connection.
Context (has_server : bool) (server : server_marshaller).
Context (NDEBUG : bool) (cancelled_token_throws : bool).

Abbreviation execute_request := (execute_request has_server server cancelled_token_throws).
Abbreviation reader_on_message := (reader_on_message has_server server cancelled_token_throws).
Abbreviation do_call := (do_call NDEBUG cancelled_token_throws).
Abbreviation do_void_call := (do_void_call NDEBUG).
Abbreviation start := (start NDEBUG).
Abbreviation step := (step has_server server NDEBUG cancelled_token_throws).
Abbreviation reachable := (reachable has_server server NDEBUG cancelled_token_throws).

Lemma same_calls_execute_request_try (m : message_t) (c c' : connection)
    (o : outcome unit) :
  execute_request_try server cancelled_token_throws m c = (o, c') -> same_calls c c'.
Proof.
  unfold execute_request_try. intros H.
  destruct (type m);
    try (injection H as _ <-; apply same_calls_refl);
    destruct (await_cancel cancelled_token_throws c
                (srv_dispatch server (id m) (payload m)));
    injection H as _ <-; try apply same_calls_refl; apply same_calls_push.
Qed.

Lemma same_calls_execute_request_finish (m : message_t) (hr : HRESULT) (pending : bool)
    (f : reader_frame) (c : connection) :
  same_calls c (fst (execute_request_finish m hr pending f c)).
Proof.
  unfold execute_request_finish. simpl.
  destruct (negb (cancel c)); [|apply same_calls_refl].
  destruct (negb (call_type_eqb (type m) void_request));
    [apply same_calls_push | apply same_calls_refl].
Qed.

(** A request handler leaves the pending calls alone. *)
Lemma same_calls_execute_request (m : message_t) (f f' : reader_frame)
    (c c' : connection) :
  execute_request m f c = Returned (c', f') -> same_calls c c'.
Proof.
  unfold Connection.execute_request. intros H.
  assert (Hfinish : forall hr pending f0 c0,
            Returned (execute_request_finish m hr pending f0 c0) = Returned (c', f') ->
            same_calls c0 c').
  { intros hr pending f0 c0 Heq.
    pose proof (same_calls_execute_request_finish m hr pending f0 c0) as Hfin.
    assert (Hx : execute_request_finish m hr pending f0 c0 = (c', f')) by congruence.
    rewrite Hx in Hfin. exact Hfin. }
  destruct has_server.
  - destruct (execute_request_try server cancelled_token_throws m c) as [o c1] eqn:Htry.
    apply same_calls_execute_request_try in Htry.
    destruct o; try discriminate;
      apply (same_calls_trans _ _ _ Htry); eapply Hfinish; exact H.
  - eapply Hfinish; exact H.
Qed.

Lemma invariant_stop (c : connection) : invariant c -> invariant (stop c).
Proof.
  intros [H1 H2 H3]. unfold stop. destruct (running c); [|split; assumption].
  pose proof (same_calls_error_on_background E_ABORT stop_ c) as (Hc & Hp & Hn).
  split; simpl.
  - intros key p H. rewrite lookup_empty in H. discriminate.
  - intros key1 key2 p H. rewrite lookup_empty in H. discriminate.
  - intros p l. rewrite Hc, Hp, Hn.
    destruct (decide (p ∈ (map_to_list (completions c)).*2)) as [Hin|Hnot].
    + assert (Hkey : exists key, completions c !! key = Some p).
      { apply list_elem_of_fmap in Hin as ([key q] & -> & Hin).
        apply elem_of_map_to_list in Hin. eauto. }
      destruct Hkey as [key Hkey]. destruct (H1 key p Hkey) as [Hlt Hnone].
      rewrite cancel_pending_one; [|
        apply NoDup_fmap_2_strong; [|apply NoDup_map_to_list];
        intros [k1 q1] [k2 q2] Hx Hy Heq; simpl in Heq; subst q2;
        apply elem_of_map_to_list in Hx; apply elem_of_map_to_list in Hy;
        f_equal; eapply H2; eassumption
        | exact Hin | exact Hnone].
      intros Hl. injection Hl as <-. split; [exact Hlt | eauto].
    + rewrite cancel_pending_other by exact Hnot. apply H3.
Qed.

Lemma invariant_do_call (name : method_id) (data : payload_t) (c c' : connection)
    (promise : nat) :
  do_call name data c = Returned (promise, c') -> invariant c -> invariant c'.
Proof.
  unfold Connection.do_call, assert, await_cancel.
  destruct (NDEBUG || transport c); [|discriminate].
  destruct (cancel c && cancelled_token_throws); [discriminate|].
  simpl. intros H [H1 H2 H3]. injection H as <- <-.
  unfold emplace.
  destruct (completions c !! last_call_id c) as [q|] eqn:Hq;
    split; cbn [completions promises next_promise push set_write_queue].
  - intros key p Hkey. destruct (H1 key p Hkey). split; [lia | assumption].
  - exact H2.
  - intros p l Hl. destruct (H3 p l Hl). split; [lia | assumption].
  - intros key p Hkey.
    destruct (decide (last_call_id c = key)) as [E|Hne].
    + subst key. rewrite lookup_insert_eq in Hkey. injection Hkey as <-.
      split; [lia|].
      destruct (promises c !! next_promise c) as [l|] eqn:Hl; [|reflexivity].
      destruct (H3 _ _ Hl). lia.
    + rewrite lookup_insert_ne in Hkey by exact Hne.
      destruct (H1 key p Hkey). split; [lia | assumption].
  - intros key1 key2 p Hk1 Hk2.
    destruct (decide (last_call_id c = key1)) as [E1|N1],
             (decide (last_call_id c = key2)) as [E2|N2].
    + congruence.
    + subst key1. rewrite lookup_insert_eq in Hk1. injection Hk1 as <-.
      rewrite lookup_insert_ne in Hk2 by exact N2.
      destruct (H1 _ _ Hk2). lia.
    + subst key2. rewrite lookup_insert_eq in Hk2. injection Hk2 as <-.
      rewrite lookup_insert_ne in Hk1 by exact N1.
      destruct (H1 _ _ Hk1). lia.
    + rewrite lookup_insert_ne in Hk1 by exact N1.
      rewrite lookup_insert_ne in Hk2 by exact N2.
      eapply H2; eassumption.
  - intros p l Hl. destruct (H3 p l Hl). split; [lia | assumption].
Qed.

Lemma invariant_reader_on_message (m : message_t) (f f' : reader_frame)
    (c c' : connection) :
  reader_on_message m f c = Returned (c', f') -> invariant c -> invariant c'.
Proof.
  unfold Connection.reader_on_message.
  destruct (call_type_eqb (type m) response || call_type_eqb (type m) response_error).
  - destruct (completions c !! call_id m) as [promise|] eqn:Hfound.
    + intros H [H1 H2 H3]. injection H as <- _.
      destruct (H1 _ _ Hfound) as [Hlt Hnone].
      split; cbn [completions promises next_promise set_promises set_completions].
      * intros key p Hkey.
        apply lookup_delete_Some in Hkey as [Hne Hkey].
        destruct (H1 _ _ Hkey) as [Hlt' Hnone'].
        split; [exact Hlt'|].
        rewrite deliver_lookup_ne; [exact Hnone'|].
        intros ->. apply Hne. eapply H2; eassumption.
      * intros key1 key2 p Hk1 Hk2.
        apply lookup_delete_Some in Hk1 as [_ Hk1].
        apply lookup_delete_Some in Hk2 as [_ Hk2].
        eapply H2; eassumption.
      * intros p l Hl.
        destruct (decide (promise = p)) as [->|Hne].
        -- rewrite deliver_lookup_eq, Hnone in Hl. injection Hl as <-.
           split; [exact Hlt | eauto].
        -- rewrite deliver_lookup_ne in Hl by exact Hne. apply H3. exact Hl.
    + intros H Hinv. injection H as <- _. exact Hinv.
  - intros H. apply invariant_same_calls.
    eapply same_calls_execute_request. exact H.
Qed.

Lemma invariant_step (c c' : connection) : invariant c -> step c c' -> invariant c'.
Proof.
  intros Hinv Hstep. destruct Hstep.
  - unfold Connection.start, assert in H.
    destruct (NDEBUG || negb (transport c)); [|discriminate].
    injection H as <-. revert Hinv. apply invariant_same_calls. repeat split.
  - apply invariant_stop. exact Hinv.
  - revert Hinv. apply invariant_same_calls, same_calls_on_error.
  - eapply invariant_do_call; eassumption.
  - unfold Connection.do_void_call, assert in H.
    destruct (NDEBUG || transport c); [|discriminate].
    destruct (cancel c); [discriminate|].
    simpl in H. injection H as <-.
    revert Hinv. apply invariant_same_calls. repeat split.
  - eapply invariant_reader_on_message; eassumption.
  - revert Hinv. apply invariant_same_calls.
    unfold reader_on_error.
    eapply same_calls_trans; [|apply same_calls_error_on_background]. repeat split.
  - revert Hinv. apply invariant_same_calls.
    unfold writer_on_message. destruct (write_queue c); repeat split.
  - revert Hinv. apply invariant_same_calls.
    unfold writer_on_error.
    eapply same_calls_trans; [|apply same_calls_error_on_background]. repeat split.
Qed.

Lemma invariant_reachable (c : connection) : reachable c -> invariant c.
Proof.
  induction 1 as [|c c' _ IH Hstep]; [apply invariant_new|].
  eapply invariant_step; eassumption.
Qed.

(** *** Request handlers *)

(** A Request whose dispatch succeeds on a connection that is not
    cancelled: the Response is pushed, and after it a ResponseError
    carrying [S_OK]. *)
Lemma execute_request_success (m : message_t) (f : reader_frame) (c : connection)
    (result : payload_t) :
  has_server = true -> type m = request -> cancel c = false ->
  srv_dispatch server (id m) (payload m) = Returned result ->
  execute_request m f c
  = Returned
      (push (make_message (call_id m) response_error (id m) (le_bytes 4 S_OK))
         (push (make_message (call_id m) response (id m) result) c),
       request_done (request_pending f)).
Proof.
  intros Hs Ht Hc Hd.
  unfold Connection.execute_request, execute_request_try, execute_request_finish,
    await_cancel.
  rewrite Hs, Ht, Hc, Hd. simpl. rewrite Hc. reflexivity.
Qed.

(** A Request whose dispatch throws, on a connection that is not
    cancelled: one ResponseError with the code. *)
Lemma execute_request_failure (m : message_t) (f : reader_frame) (c : connection)
    (hr : HRESULT) :
  has_server = true -> type m = request -> cancel c = false ->
  srv_dispatch server (id m) (payload m) = Hresult_error hr ->
  execute_request m f c
  = Returned
      (push (make_message (call_id m) response_error (id m) (le_bytes 4 hr)) c,
       request_done (request_pending f)).
Proof.
  intros Hs Ht Hc Hd.
  unfold Connection.execute_request, execute_request_try, execute_request_finish,
    await_cancel.
  rewrite Hs, Ht, Hc, Hd. simpl. rewrite Hc. reflexivity.
Qed.

(** C4.  For every inbound VoidRequest the connection pushes no reply,
    however the server side ends: the member is called and returns, the
    decoding or the implementation throws, the method identifier is
    unknown ([E_NOTIMPL] is thrown), or the connection has no server
    marshaller.  The handler returns and leaves the connection, its write
    queue included, and the reader's counter as they were. *)
Theorem void_request_no_reply (a_call_id : Z) (name : method_id) (data : payload_t)
    (f : reader_frame) (c : connection) :
  (has_server = true -> returns_or_throws (srv_void_dispatch server name data) = true) ->
  execute_request (make_message a_call_id void_request name data) f c = Returned (c, f) /\
  write_queue_after (execute_request (make_message a_call_id void_request name data) f c)
  = Returned (write_queue c).
Proof.
  intros Hdefined.
  assert (H : execute_request (make_message a_call_id void_request name data) f c
              = Returned (c, f)).
  { unfold Connection.execute_request, execute_request_try, execute_request_finish.
    destruct has_server; simpl.
    - specialize (Hdefined eq_refl).
      destruct (srv_void_dispatch server name data); try discriminate;
        simpl; destruct (cancel c); reflexivity.
    - destruct (cancel c); reflexivity. }
  split; [exact H|]. rewrite H. reflexivity.
Qed.

(** *** Stub calls *)

(** While the cancellation source is cancelled a fire-and-forget call
    throws [operation_cancelled]. *)
Lemma do_void_call_cancelled (name : method_id) (data : payload_t) (c : connection) :
  transport c = true -> cancel c = true ->
  do_void_call name data c = operation_cancelled.
Proof.
  intros Ht Hc. unfold Connection.do_void_call, assert.
  rewrite Ht, Hc, orb_true_r. reflexivity.
Qed.

(** [stop] leaves a renewed cancellation source and no transport. *)
Lemma stop_renews_cancel (c : connection) :
  running c = true ->
  cancel (stop c) = false /\ transport (stop c) = false /\ running (stop c) = false.
Proof. intros Hr. unfold stop. rewrite Hr. repeat split. Qed.

(** *** Stopping *)





(** *** Call identifiers *)

(** The call identifier a message carries fits its 30 bits. *)
Lemma call_id_30_bits (a_call_id : Z) (t : call_type) (name : method_id)
    (data : payload_t) :
  0 <= call_id (make_message a_call_id t name data) < 2 ^ 30.
Proof. simpl. apply Z.mod_pos_bound. lia. Qed.

(** [do_call] on an idle connection: the call is registered under the
    32-bit value of the counter and the request carries its low 30 bits. *)
Lemma do_call_idle (name : method_id) (data : payload_t) (c : connection) :
  idle c ->
  exists c',
    do_call name data c = Returned (next_promise c, c') /\
    write_queue c' = [make_message (last_call_id c) request name data] /\
    completions c' = {[ last_call_id c := next_promise c ]} /\
    promises c' = ∅ /\
    last_call_id c' = (last_call_id c + 1) mod 2 ^ 32.
Proof.
  intros (Hrun & Htr & Hcan & Hcomp & Hq & Hps).
  eexists. unfold Connection.do_call, assert, await_cancel.
  rewrite Htr, Hcan, orb_true_r. simpl. split; [reflexivity|].
  cbn [write_queue completions promises last_call_id push set_write_queue].
  rewrite Hcomp, Hq, Hps. unfold emplace. rewrite lookup_empty.
  repeat split; reflexivity.
Qed.

(** Once the counter has passed 2^30 the reply to a call is looked up under
    the 30 bits the header carries, finds nothing, and is dropped: the
    connection is left as it was and the caller never completes. *)
Lemma reply_dropped_after_wrap (m : message_t) (f : reader_frame) (c : connection)
    (key : Z) (p : nat) :
  completions c = {[ key := p ]} -> 2 ^ 30 <= key ->
  (type m = response \/ type m = response_error) -> call_id m = key mod 2 ^ 30 ->
  reader_on_message m f c = Returned (c, f).
Proof.
  intros Hcomp Hkey Htype Hid.
  unfold Connection.reader_on_message.
  assert (Hreply : call_type_eqb (type m) response
                   || call_type_eqb (type m) response_error = true)
    by (destruct Htype as [-> | ->]; reflexivity).
  rewrite Hreply, Hcomp.
  rewrite lookup_singleton_ne; [reflexivity|].
  rewrite Hid. pose proof (Z.mod_pos_bound key (2 ^ 30)). lia.
Qed.

(** Before that the reply completes the promise of the caller. *)
Lemma reply_delivered_before_wrap (m : message_t) (f : reader_frame) (c : connection)
    (key : Z) (p : nat) :
  completions c = {[ key := p ]} -> promises c = ∅ -> 0 <= key < 2 ^ 30 ->
  type m = response -> call_id m = key mod 2 ^ 30 ->
  exists c',
    reader_on_message m f c = Returned (c', f) /\
    completions c' = ∅ /\
    observed c' p = [payload_set (payload m)].
Proof.
  intros Hcomp Hps Hkey Htype Hid.
  unfold Connection.reader_on_message. rewrite Htype. cbn [call_type_eqb orb].
  rewrite Hid, Z.mod_small by exact Hkey.
  rewrite Hcomp, lookup_singleton_eq. eexists. split; [reflexivity|].
  unfold observed.
  cbn [completions promises set_promises set_completions].
  rewrite Hps, delete_singleton_eq. split; [reflexivity|].
  rewrite deliver_lookup_eq, lookup_empty. reflexivity.
Qed.

End Connection.

(** *** The sample connection *)

Abbreviation sample_reachable := (reachable true sample_server true true).

Lemma reachable_started : sample_reachable started.
Proof.
  apply (reachable_step _ _ _ _ new_connection); [apply reachable_new|].
  apply step_start. reflexivity.
Qed.

Lemma idle_started : idle started.
Proof. repeat split. Qed.

(** Any value of the call counter is reached by an idle connection: by that
    many fire-and-forget calls, each taken by the writer. *)
Lemma reachable_call_counter (n : Z) :
  0 <= n ->
  exists c, sample_reachable c /\ idle c /\ next_promise c = 0%nat /\
            last_call_id c = n mod 2 ^ 32.
Proof.
  revert n. apply natlike_ind.
  - exists started. split; [apply reachable_started|].
    split; [apply idle_started|]. split; reflexivity.
  - intros n Hn (c & Hreach & Hidle & Hnext & Hid).
    destruct Hidle as (Hrun & Htr & Hcan & Hcomp & Hq & Hps).
    set (c1 := push (make_message (last_call_id c) void_request
                       send_telemetry_event_id telemetry_args)
                 (snd (fetch_add_call_id c))).
    assert (Hcall : do_void_call true send_telemetry_event_id telemetry_args c
                    = Returned c1).
    { unfold do_void_call, assert. rewrite Hcan. reflexivity. }
    exists (writer_on_message c1).
    split.
    { eapply reachable_step; [|apply step_writer_on_message].
      eapply reachable_step; [exact Hreach|].
      eapply step_do_void_call. exact Hcall. }
    unfold writer_on_message, c1.
    cbn [write_queue push set_write_queue fetch_add_call_id snd]. rewrite Hq.
    cbn [app]. unfold idle.
    cbn [running transport cancel completions write_queue promises next_promise
         last_call_id].
    repeat split; try assumption.
    rewrite Hid. unfold Z.succ. apply Zplus_mod_idemp_l.
Qed.

Lemma reachable_two_pending : sample_reachable two_pending.
Proof.
  eapply reachable_step.
  - eapply reachable_step; [apply reachable_started|].
    apply (step_do_call _ _ _ _ simple_sum_id simple_sum_args started 0%nat).
    reflexivity.
  - apply (step_do_call _ _ _ _ simple_sum_id simple_sum_args _ 1%nat).
    reflexivity.
Qed.





(** C4, witness: the telemetry event of the sample, and a VoidRequest on a
    connection without server. *)
Lemma void_request_no_reply_witness :
  returns_or_throws (srv_void_dispatch sample_server send_telemetry_event_id telemetry_args)
  = true /\
  execute_request true sample_server true
    (make_message 3 void_request send_telemetry_event_id telemetry_args)
    reader_started started
  = Returned (started, reader_started) /\
  execute_request false sample_server true
    (make_message 3 void_request send_telemetry_event_id telemetry_args)
    reader_started started
  = Returned (started, reader_started).
Proof.
  split; [reflexivity|]. split.
  - apply (void_request_no_reply true sample_server true). intros _. reflexivity.
  - apply (void_request_no_reply false sample_server true). intros H. discriminate H.
Defined.

(** C1, on the code.  The Request [simple_sum(17, 42)] with call-id 7,
    handled by a running connection of the sample server that is not
    cancelled: dispatch succeeds, and two replies with call-id 7 are
    pushed on the write queue, the Response carrying 59 and after it a
    ResponseError carrying the code 0. *)
Theorem execute_request_replies_twice :
  write_queue_after
    (execute_request true sample_server true
       (make_message 7 request simple_sum_id simple_sum_args)
       reader_started started)
  = Returned
      [make_message 7 response simple_sum_id (le_bytes 4 59);
       make_message 7 response_error simple_sum_id (le_bytes 4 S_OK)].
Proof. reflexivity. Qed.

(** C3, on the code.  A connection can reach the state in which its call
    counter is 2^30.  The call issued then is registered under the key
    2^30 while its request carries the call-id 0 (the low 30 bits); the
    server answers with call-id 0; the reader of the caller looks up 0,
    finds no pending call, and drops the reply: the pending call stays in
    the table and its caller has observed no completion. *)
Theorem call_id_wrap_loses_reply :
  exists c p c',
    sample_reachable c /\ idle c /\ last_call_id c = 2 ^ 30 /\
    do_call true true simple_sum_id simple_sum_args c = Returned (p, c') /\
    write_queue c' = [make_message 0 request simple_sum_id simple_sum_args] /\
    write_queue_after
      (execute_request true sample_server true
         (make_message 0 request simple_sum_id simple_sum_args)
         reader_started started)
    = Returned
        [make_message 0 response simple_sum_id (le_bytes 4 59);
         make_message 0 response_error simple_sum_id (le_bytes 4 S_OK)] /\
    reader_on_message true sample_server true
      (make_message 0 response simple_sum_id (le_bytes 4 59)) reader_started c'
    = Returned (c', reader_started) /\
    completions c' !! (2 ^ 30) = Some p /\
    observed c' p = [].
Proof.
  destruct (reachable_call_counter (2 ^ 30)) as (c & Hreach & Hidle & Hnext & Hid);
    [lia|].
  change (2 ^ 30 mod 2 ^ 32) with (2 ^ 30) in Hid.
  destruct (do_call_idle true true simple_sum_id simple_sum_args c Hidle)
    as (c' & Hcall & Hq & Hcomp & Hps & _).
  exists c, (next_promise c), c'.
  split; [exact Hreach|]. split; [exact Hidle|]. split; [exact Hid|].
  split; [exact Hcall|]. split.
  { rewrite Hq, Hid. reflexivity. }
  split; [reflexivity|]. split.
  { apply (reply_dropped_after_wrap true sample_server true _ _ _ (2 ^ 30) (next_promise c)).
    - rewrite Hcomp, Hid. reflexivity.
    - lia.
    - left. reflexivity.
    - reflexivity. }
  split.
  - rewrite Hcomp, Hid. apply lookup_singleton_eq.
  - unfold observed. rewrite Hps, lookup_empty. reflexivity.
Qed.

(** C5, on the code.  On a connection that was started and then stopped,
    [stop] having returned: the cancellation source is renewed and the
    transport is gone.  A fire-and-forget call does not throw
    [operation_cancelled]: where [assert] is compiled out it mints a
    call-id and pushes the VoidRequest on the write queue, elsewhere the
    assertion on the transport fails.  An awaited call does not either: it
    registers a pending call and pushes the Request, or fails the
    assertion. *)
Theorem stub_call_after_stop :
  let c := stop started in
  sample_reachable c /\
  cancel c = false /\ transport c = false /\ running c = false /\
  (exists c',
     do_void_call true send_telemetry_event_id telemetry_args c = Returned c' /\
     write_queue c'
     = [make_message 0 void_request send_telemetry_event_id telemetry_args] /\
     last_call_id c' = 1) /\
  do_void_call false send_telemetry_event_id telemetry_args c = Aborted /\
  (forall cancelled_token_throws,
     exists c',
       do_call true cancelled_token_throws simple_sum_id simple_sum_args c
       = Returned (0%nat, c') /\
       completions c' !! 0 = Some 0%nat /\
       write_queue c' = [make_message 0 request simple_sum_id simple_sum_args] /\
       observed c' 0 = []) /\
  (forall cancelled_token_throws,
     do_call false cancelled_token_throws simple_sum_id simple_sum_args c = Aborted).
Proof.
  intros c.
  split.
  { eapply reachable_step; [apply reachable_started | apply step_stop]. }
  split; [reflexivity|]. split; [reflexivity|]. split; [reflexivity|].
  split.
  { eexists. split; [reflexivity|]. split; reflexivity. }
  split; [reflexivity|]. split.
  - intros tok. eexists. split; [destruct tok; reflexivity|].
    split; [reflexivity|]. split; reflexivity.
  - intros tok. reflexivity.
Qed.


(** *** Callers, replies and the two tasks *)

Lemma pushed_push (m : message_t) (c : connection) : pushed c (push m c) = [m].
Proof.
  unfold pushed, push. cbn [write_queue set_write_queue].
  apply drop_app_length.
Qed.

Lemma pushed_push_push (m1 m2 : message_t) (c : connection) :
  pushed c (push m2 (push m1 c)) = [m1; m2].
Proof.
  unfold pushed, push. cbn [write_queue set_write_queue].
  rewrite <- app_assoc. apply drop_app_length.
Qed.

Lemma pushed_refl (c : connection) : pushed c c = [].
Proof. unfold pushed. apply drop_all. Qed.

Section Calls.
Context (has_server : bool) (server : server_marshaller).
Context (NDEBUG : bool) (cancelled_token_throws : bool).

Abbreviation execute_request := (execute_request has_server server cancelled_token_throws).
Abbreviation reader_on_message := (reader_on_message has_server server cancelled_token_throws).
Abbreviation do_call := (do_call NDEBUG cancelled_token_throws).
Abbreviation start := (start NDEBUG).
Abbreviation reachable := (reachable has_server server NDEBUG cancelled_token_throws).

(** X12.  The promise of a caller is completed at most once, whatever the
    connection has gone through, and not at all while its call is in the
    table of pending calls. *)
Theorem promise_completed_at_most_once (c : connection) :
  reachable c ->
  forall p,
    (length (observed c p) <= 1)%nat /\
    (forall key, completions c !! key = Some p -> observed c p = []).
Proof.
  intros Hreach p.
  destruct (invariant_reachable _ _ _ _ c Hreach) as [Hpending _ Hcompleted].
  unfold observed. split.
  - destruct (promises c !! p) as [l|] eqn:Hl; simpl; [|lia].
    destruct (Hcompleted p l Hl) as (_ & x & ->). simpl. lia.
  - intros key Hkey. destruct (Hpending key p Hkey) as [_ Hnone].
    rewrite Hnone. reflexivity.
Qed.

(** X13.  On a cancelled connection [execute_request] sends no error reply:
    whatever the request and however its handling ends, no
    [ResponseError] is pushed on the write queue; where a cancelled source
    gives no token, nothing is pushed at all. *)
Theorem no_error_reply_when_cancelled (m : message_t) (f f' : reader_frame)
    (c c' : connection) :
  cancel c = true ->
  execute_request m f c = Returned (c', f') ->
  Forall (fun x => type x <> response_error) (pushed c c') /\
  (cancelled_token_throws = true -> c' = c).
Proof.
  intros Hc H.
  unfold Connection.execute_request, execute_request_try, execute_request_finish,
    await_cancel in H.
  rewrite Hc in H. cbn [negb andb] in H.
  destruct has_server.
  - destruct (type m) eqn:Ht; cbn [call_type_eqb negb] in H.
    2:{ destruct (srv_void_dispatch server (id m) (payload m));
          inversion H; subst; rewrite ?Hc; cbn [negb];
          (split; [rewrite pushed_refl; constructor | reflexivity]). }
    all: destruct cancelled_token_throws;
      [ cbn in H; rewrite Hc in H; cbn in H; inversion H; subst;
        split; [rewrite pushed_refl; constructor | reflexivity]
      | destruct (srv_dispatch server (id m) (payload m));
        cbn in H; rewrite ?Hc in H; cbn in H; inversion H; subst;
        (split; [|discriminate]);
        rewrite ?pushed_refl, ?pushed_push; repeat constructor; discriminate ].
  - inversion H; subst.
    split; [rewrite pushed_refl; constructor | reflexivity].
Qed.

(** X14.  [stop] twice is [stop] once, and a stopped connection can be started
    again: after [stop] the connection is not running, holds no transport
    and no pending call and its cancellation source is fresh, so [start]
    passes its assertion and leaves a running, uncancelled connection. *)
Theorem stop_then_start (c : connection) :
  running c = true ->
  stop (stop c) = stop c /\
  running (stop c) = false /\ transport (stop c) = false /\
  cancel (stop c) = false /\ completions (stop c) = ∅ /\
  exists c',
    start (stop c) = Returned c' /\
    running c' = true /\ transport c' = true /\ cancel c' = false /\
    completions c' = ∅.
Proof.
  intros Hrun.
  assert (Hfields : running (stop c) = false /\ transport (stop c) = false /\
                    cancel (stop c) = false /\ completions (stop c) = ∅).
  { unfold stop. rewrite Hrun. repeat split. }
  destruct Hfields as (Hr & Ht & Hc & Hm).
  split.
  - unfold stop at 1. rewrite Hr. reflexivity.
  - repeat (split; [assumption|]).
    eexists. unfold Connection.start, assert. rewrite Ht, orb_true_r.
    split; [reflexivity|]. cbn. auto.
Qed.

End Calls.

(** *** Errors and their handler *)

(** X15.  Of errors raised in a row the installed handler, if there is one, gets
    the first and no other; an error raised with no handler installed is
    stored in place of what was stored before; [on_error] hands the stored
    error to its handler at once and then does not install that handler. *)
Theorem error_reported_once (c : connection) (hr0 hr1 : HRESULT)
    (on0 on1 : captured_on) (f : nat) :
  let c1 := error_on_background hr1 on1 (error_on_background hr0 on0 c) in
  handler_calls c1
  = handler_calls c ++ match error_handler c with
                       | Some handler => [(handler, hr0, on0)]
                       | None => []
                       end /\
  last_error c1 = Some (hr1, on1) /\
  error_handler c1 = None /\
  handler_calls (on_error f c1) = handler_calls c1 ++ [(f, hr1, on1)] /\
  last_error (on_error f c1) = None /\
  error_handler (on_error f c1) = None.
Proof.
  unfold error_on_background, on_error.
  destruct (error_handler c); cbn; rewrite ?app_nil_r; repeat split.
Qed.

(** *** The writer task *)

Section Writer.
Context (transport_write : message_t -> option HRESULT).

Lemma writer_loop_written (sent : list message_t) :
  forall (queue : list message_t) (c : connection),
    cancel c = false ->
    Forall (fun m => transport_write m = None) sent ->
    exists c',
      writer_loop transport_write (sent ++ queue) c
      = writer_loop transport_write queue c' /\
      written c' = written c ++ sent /\
      cancel c' = false /\
      error_handler c' = error_handler c /\
      last_error c' = last_error c /\
      handler_calls c' = handler_calls c /\
      completions c' = completions c /\
      promises c' = promises c.
Proof.
  induction sent as [|m sent IH]; intros queue c Hc Hok.
  - exists c. rewrite app_nil_r. repeat split; try reflexivity. exact Hc.
  - apply Forall_cons in Hok as [Hm Hok].
    cbn [app writer_loop]. rewrite Hc, Hm.
    destruct (IH queue
                (writer_on_message (set_write_queue (m :: sent ++ queue) c)))
      as (c' & Hloop & Hw & Hc' & Heh & Hle & Hhc & Hcomp & Hps);
      [exact Hc | exact Hok |].
    exists c'. rewrite Hloop. cbn in Hw, Heh, Hle, Hhc, Hcomp, Hps.
    rewrite Hw, <- app_assoc. repeat split; assumption.
Qed.

(** X16.  A connection that requires a writer (it has a client marshaller, or a
    method that returns a value) hands the queued messages to the transport
    in the order they were pushed.  When every write completes, all of them
    have been written, the queue is empty and nothing is reported.  When a
    write fails, the messages before the failing one have been written and
    neither the failing one nor any behind it has, the connection is
    cancelled and the error is reported as captured on [send]: to the
    installed handler, which is taken out, or stored when there is none.
    A connection without client whose methods are all [void] has a writer
    that returns at once: whatever is queued is never written. *)
Theorem writer_fifo (clients_count : nat) (only_void_methods : bool)
    (c : connection) (sent : list message_t) :
  let task := writer (writer_not_required clients_count only_void_methods)
                transport_write in
  (clients_count = 0%nat -> only_void_methods = true -> task c = c) /\
  (writer_not_required clients_count only_void_methods = false ->
   cancel c = false ->
   Forall (fun m => transport_write m = None) sent ->
   (write_queue c = sent ->
    written (task c) = written c ++ sent /\
    write_queue (task c) = [] /\
    cancel (task c) = false /\
    handler_calls (task c) = handler_calls c /\
    last_error (task c) = last_error c) /\
   (forall m hr rest,
      write_queue c = sent ++ m :: rest -> transport_write m = Some hr ->
      written (task c) = written c ++ sent /\
      cancel (task c) = true /\
      match error_handler c with
      | Some handler =>
          handler_calls (task c) = handler_calls c ++ [(handler, hr, send)] /\
          error_handler (task c) = None /\
          last_error (task c) = last_error c
      | None =>
          handler_calls (task c) = handler_calls c /\
          last_error (task c) = Some (hr, send)
      end)).
Proof.
  intros task. subst task. split.
  { intros -> ->. reflexivity. }
  intros Hreq Hc Hok. rewrite Hreq. unfold writer. split.
  - intros Hq. rewrite Hq.
    destruct (writer_loop_written sent [] c Hc Hok)
      as (c' & Hloop & Hw & Hc' & Heh & Hle & Hhc & _).
    rewrite app_nil_r in Hloop. rewrite Hloop.
    cbn [writer_loop]. rewrite Hc'. cbn. auto.
  - intros m hr rest Hq Hm. rewrite Hq.
    destruct (writer_loop_written sent (m :: rest) c Hc Hok)
      as (c' & Hloop & Hw & Hc' & Heh & Hle & Hhc & _).
    rewrite Hloop. cbn [writer_loop]. rewrite Hc', Hm.
    unfold writer_on_error, error_on_background.
    cbn [error_handler set_cancel set_write_queue].
    rewrite Heh.
    destruct (error_handler c); cbn; rewrite ?Hw, ?Hhc, ?Hle; repeat split.
Qed.

End Writer.

(** *** A call from one connection to another *)

Section EndToEnd.

(** The configuration of the connection of the caller, that of the
    connection that handles the request, and the builds of the two. *)
Context (client_has_server : bool) (client_server : server_marshaller).
Context (has_server : bool) (server : server_marshaller).
Context (NDEBUG client_token_throws server_token_throws : bool).

Abbreviation client_reader :=
  (Connection.reader_on_message client_has_server client_server client_token_throws).
Abbreviation client_reader_loop :=
  (reader_loop client_has_server client_server client_token_throws).

(** The completion the reader makes of a reply. *)
Lemma reader_delivers_reply (r : message_t) (f : reader_frame) (c : connection)
    (key : Z) (p : nat) :
  completions c = {[ key := p ]} -> promises c = ∅ ->
  call_id r = key ->
  (type r = response \/ type r = response_error) ->
  exists c',
    client_reader r f c = Returned (c', f) /\
    completions c' = ∅ /\
    cancel c' = cancel c /\
    observed c' p
    = [if call_type_eqb (type r) response_error
       then if Nat.eqb (length (payload r)) 4
            then hresult_error_set (le_value (payload r))
            else hresult_error_set E_FAIL
       else payload_set (payload r)].
Proof.
  intros Hcomp Hps Hid Htype.
  unfold Connection.reader_on_message.
  assert (Hreply : call_type_eqb (type r) response
                   || call_type_eqb (type r) response_error = true)
    by (destruct Htype as [-> | ->]; reflexivity).
  rewrite Hreply, Hid, Hcomp, lookup_singleton_eq.
  eexists. split; [reflexivity|].
  unfold observed.
  cbn [completions promises cancel set_promises set_completions].
  rewrite Hps, delete_singleton_eq. split; [reflexivity|]. split; [reflexivity|].
  rewrite deliver_lookup_eq, lookup_empty. reflexivity.
Qed.

Lemma reader_ignores_reply (r : message_t) (f : reader_frame) (c : connection) :
  completions c = ∅ ->
  (type r = response \/ type r = response_error) ->
  client_reader r f c = Returned (c, f).
Proof.
  intros Hcomp Htype.
  unfold Connection.reader_on_message.
  assert (Hreply : call_type_eqb (type r) response
                   || call_type_eqb (type r) response_error = true)
    by (destruct Htype as [-> | ->]; reflexivity).
  rewrite Hreply, Hcomp, lookup_empty. reflexivity.
Qed.

(** X17.  A call, end to end.  A caller on an idle connection whose call counter
    is below 2^30 makes a call; the request it queues is handled by the
    reader of a connection that is not cancelled; what that connection
    queues in reply is read, in order, by the reader of the caller's
    connection.  Then the promise of the caller is completed exactly once.
    When the handling connection has a server marshaller: with the payload
    [dispatch] returned; with the code of the [hresult_error] it threw;
    with [E_FAIL] when it threw anything else.  When it has none: with
    [E_INVALIDARG].  No call is left pending. *)
Theorem call_end_to_end (name : method_id) (data : payload_t)
    (c s : connection) (fc fs : reader_frame) (x : completion) :
  idle c -> 0 <= last_call_id c < 2 ^ 30 ->
  cancel s = false ->
  completion_of has_server (srv_dispatch server name data) = Some x ->
  (forall hr, srv_dispatch server name data = Hresult_error hr -> 0 <= hr < 2 ^ 32) ->
  exists c1 m s1 fs1 c2 fc2,
    do_call NDEBUG client_token_throws name data c = Returned (next_promise c, c1) /\
    write_queue c1 = [m] /\
    Connection.reader_on_message has_server server server_token_throws m fs s
    = Returned (s1, fs1) /\
    client_reader_loop (List.map read_message (pushed s s1)) fc c1
    = Returned (c2, fc2) /\
    observed c2 (next_promise c) = [x] /\
    completions c2 = ∅.
Proof.
  intros (Hrun & Htr & Hcan & Hcomp & Hq & Hps) Hid Hs Hx Hhr.
  set (p := next_promise c).
  set (m := make_message (last_call_id c) request name data).
  assert (Hcall : exists c1,
             do_call NDEBUG client_token_throws name data c = Returned (p, c1) /\
             write_queue c1 = [m] /\
             completions c1 = {[ last_call_id c := p ]} /\
             promises c1 = ∅ /\ cancel c1 = false).
  { eexists. unfold Connection.do_call, assert, await_cancel.
    rewrite Htr, Hcan, orb_true_r. simpl. split; [reflexivity|].
    cbn [write_queue completions promises cancel push set_write_queue].
    rewrite Hcomp, Hq, Hps. unfold emplace. rewrite lookup_empty.
    repeat split; try reflexivity. exact Hcan. }
  destruct Hcall as (c1 & Hdo & Hq1 & Hcomp1 & Hps1 & Hcan1).
  assert (Hm : call_id m = last_call_id c /\ type m = request /\
               id m = name /\ payload m = data).
  { unfold m, make_message. cbn. rewrite Z.mod_small by exact Hid. auto. }
  destruct Hm as (Hmid & Hmt & Hmn & Hmp).
  assert (Hkey : forall t pl,
             call_id (make_message (call_id m) t (id m) pl) = last_call_id c).
  { intros t pl. unfold make_message. cbn [call_id].
    fold m. rewrite Hmid. apply Z.mod_small. exact Hid. }
  assert (Hserve : Connection.reader_on_message has_server server
                     server_token_throws m fs s
                   = Connection.execute_request has_server server
                       server_token_throws m fs s).
  { unfold Connection.reader_on_message. rewrite Hmt. reflexivity. }
  exists c1, m.
  unfold completion_of in Hx.
  destruct has_server.
  2:{ (* no server marshaller *)
    injection Hx as <-.
    assert (Hex : Connection.execute_request false server server_token_throws m fs s
                  = Returned
                      (push (make_message (call_id m) response_error name
                               (le_bytes 4 E_INVALIDARG)) s, fs)).
    { unfold Connection.execute_request, execute_request_finish.
      rewrite Hs, Hmt, Hmn. reflexivity. }
    set (error := make_message (call_id m) response_error name
                    (le_bytes 4 E_INVALIDARG)) in *.
    destruct (reader_delivers_reply error fc c1 (last_call_id c) p Hcomp1 Hps1)
      as (c2 & Hr1 & Hcomp2 & Hcan2 & Hobs);
      [unfold error; rewrite <- Hmn; apply Hkey | right; reflexivity |].
    eexists _, _, c2, fc.
    split; [exact Hdo|]. split; [exact Hq1|].
    split; [rewrite Hserve; exact Hex|].
    rewrite pushed_push. cbn [List.map reader_loop].
    rewrite Hcan1, Hr1. cbn [outcome_bind fst snd].
    split; [reflexivity|]. split; [exact Hobs | exact Hcomp2]. }
  destruct (srv_dispatch server name data) as [result|hr| | |] eqn:Hd;
    simpl in Hx; try discriminate; injection Hx as <-.
  - (* dispatch returned *)
    pose proof (execute_request_success true server server_token_throws m fs s
                  result eq_refl Hmt Hs) as Hex.
    rewrite Hmn, Hmp in Hex. specialize (Hex Hd).
    set (reply := make_message (call_id m) response name result) in *.
    set (error := make_message (call_id m) response_error name (le_bytes 4 S_OK)) in *.
    destruct (reader_delivers_reply reply fc c1 (last_call_id c) p Hcomp1 Hps1)
      as (c2 & Hr1 & Hcomp2 & Hcan2 & Hobs);
      [unfold reply; rewrite <- Hmn; apply Hkey | left; reflexivity |].
    pose proof (reader_ignores_reply error fc c2 Hcomp2 (or_intror eq_refl)) as Hr2.
    eexists _, _, c2, fc.
    split; [exact Hdo|]. split; [exact Hq1|].
    split; [rewrite Hserve; exact Hex|].
    rewrite pushed_push_push. cbn [List.map reader_loop].
    rewrite Hcan1, Hr1. cbn [outcome_bind fst snd].
    rewrite Hcan2, Hcan1, Hr2. cbn [outcome_bind fst snd].
    split; [reflexivity|]. split; [exact Hobs | exact Hcomp2].
  - (* dispatch threw an hresult_error *)
    pose proof (execute_request_failure true server server_token_throws m fs s
                  hr eq_refl Hmt Hs) as Hex.
    rewrite Hmn, Hmp in Hex. specialize (Hex Hd).
    set (error := make_message (call_id m) response_error name (le_bytes 4 hr)) in *.
    destruct (reader_delivers_reply error fc c1 (last_call_id c) p Hcomp1 Hps1)
      as (c2 & Hr1 & Hcomp2 & Hcan2 & Hobs);
      [unfold error; rewrite <- Hmn; apply Hkey | right; reflexivity |].
    eexists _, _, c2, fc.
    split; [exact Hdo|]. split; [exact Hq1|].
    split; [rewrite Hserve; exact Hex|].
    rewrite pushed_push. cbn [List.map reader_loop].
    rewrite Hcan1, Hr1. cbn [outcome_bind fst snd].
    split; [reflexivity|]. split; [|exact Hcomp2].
    rewrite Hobs. unfold error. cbn [type payload make_message call_type_eqb].
    rewrite length_le_bytes. cbn [Nat.eqb].
    rewrite le_value_le_bytes. change (256 ^ Z.of_nat 4) with (2 ^ 32).
    rewrite Z.mod_small by (apply Hhr; reflexivity). reflexivity.
  - (* dispatch threw something else *)
    assert (Hex : Connection.execute_request true server server_token_throws m fs s
                  = Returned
                      (push (make_message (call_id m) response_error name
                               (le_bytes 4 E_FAIL)) s,
                       request_done (request_pending fs))).
    { unfold Connection.execute_request, execute_request_try,
        execute_request_finish, await_cancel.
      rewrite Hmt, Hs, Hmn, Hmp, Hd. simpl. rewrite Hs. reflexivity. }
    set (error := make_message (call_id m) response_error name (le_bytes 4 E_FAIL)) in *.
    destruct (reader_delivers_reply error fc c1 (last_call_id c) p Hcomp1 Hps1)
      as (c2 & Hr1 & Hcomp2 & Hcan2 & Hobs);
      [unfold error; rewrite <- Hmn; apply Hkey | right; reflexivity |].
    eexists _, _, c2, fc.
    split; [exact Hdo|]. split; [exact Hq1|].
    split; [rewrite Hserve; exact Hex|].
    rewrite pushed_push. cbn [List.map reader_loop].
    rewrite Hcan1, Hr1. cbn [outcome_bind fst snd].
    split; [reflexivity|]. split; [exact Hobs | exact Hcomp2].
Qed.

End EndToEnd.

(** *** The properties above on the sample *)

(** Two calls pending, then [stop]: each promise holds one completion. *)
Lemma promise_completed_at_most_once_witness :
  sample_reachable (stop two_pending) /\
  (length (observed (stop two_pending) 0) <= 1)%nat /\
  (length (observed (stop two_pending) 1) <= 1)%nat.
Proof.
  assert (H : sample_reachable (stop two_pending)).
  { eapply reachable_step; [apply reachable_two_pending | apply step_stop]. }
  split; [exact H|]. split.
  - apply (promise_completed_at_most_once true sample_server true true _ H 0%nat).
  - apply (promise_completed_at_most_once true sample_server true true _ H 1%nat).
Defined.

(** A request for [simple_sum(17, 42)] handled on a cancelled connection:
    the sum is sent, no error reply is. *)
Lemma no_error_reply_when_cancelled_witness :
  let c := set_cancel true started in
  let m := make_message 7 request simple_sum_id simple_sum_args in
  let c' := push (make_message 7 response simple_sum_id (le_bytes 4 59)) c in
  cancel c = true /\
  execute_request true sample_server false m reader_started c
  = Returned (c', reader_started) /\
  Forall (fun x => type x <> response_error) (pushed c c').
Proof.
  intros c m c'.
  split; [reflexivity|]. split; [reflexivity|].
  apply (no_error_reply_when_cancelled true sample_server false m
           reader_started reader_started c c'); reflexivity.
Defined.

(** [stop] with two calls pending, then [start]. *)
Lemma stop_then_start_witness :
  running two_pending = true /\
  stop (stop two_pending) = stop two_pending /\
  exists c',
    start false (stop two_pending) = Returned c' /\
    running c' = true /\ transport c' = true /\ cancel c' = false /\
    completions c' = ∅.
Proof.
  split; [reflexivity|].
  destruct (stop_then_start false two_pending eq_refl)
    as (Hidem & _ & _ & _ & _ & Hstart).
  split; [exact Hidem | exact Hstart].
Defined.

(** Two requests queued on a client connection and a transport that fails
    the second write. *)
Lemma writer_fifo_witness :
  let transport_write :=
    fun m : message_t => if call_id m =? 1 then Some E_FAIL else None in
  let first := make_message 0 request simple_sum_id simple_sum_args in
  let second := make_message 1 request simple_sum_id simple_sum_args in
  let task :=
    writer (writer_not_required 1 (Marshal.only_void_methods CalculatorService))
      transport_write in
  writer_not_required 1 (Marshal.only_void_methods CalculatorService) = false /\
  cancel two_pending = false /\
  write_queue two_pending = [first; second] /\
  written (task two_pending) = [first] /\
  cancel (task two_pending) = true /\
  last_error (task two_pending) = Some (E_FAIL, send).
Proof.
  intros transport_write first second task.
  split; [reflexivity|]. split; [reflexivity|]. split; [reflexivity|].
  destruct (writer_fifo transport_write 1
              (Marshal.only_void_methods CalculatorService) two_pending [first])
    as [_ H].
  destruct (H eq_refl eq_refl) as [_ H'].
  { repeat constructor. }
  destruct (H' second E_FAIL [] eq_refl eq_refl) as (Hw & Hc & _ & He).
  auto.
Defined.

(** [simple_sum(17, 42)] from a started connection to the sample server:
    the caller gets 59, once. *)
Lemma call_end_to_end_witness :
  idle started /\
  completion_of true (srv_dispatch sample_server simple_sum_id simple_sum_args)
  = Some (payload_set (le_bytes 4 59)) /\
  exists c1 m s1 fs1 c2 fc2,
    do_call true true simple_sum_id simple_sum_args started = Returned (0%nat, c1) /\
    write_queue c1 = [m] /\
    reader_on_message true sample_server true m reader_started started
    = Returned (s1, fs1) /\
    reader_loop false sample_server true (List.map read_message (pushed started s1))
      reader_started c1 = Returned (c2, fc2) /\
    observed c2 0 = [payload_set (le_bytes 4 59)] /\
    completions c2 = ∅.
Proof.
  split; [apply idle_started|]. split; [reflexivity|].
  apply (call_end_to_end false sample_server true sample_server true true true
           simple_sum_id simple_sum_args started started
           reader_started reader_started (payload_set (le_bytes 4 59))).
  - apply idle_started.
  - simpl. lia.
  - reflexivity.
  - reflexivity.
  - intros hr H. vm_compute in H. discriminate.
Defined.

(** *** Replies in any order *)

Section Multiplexing.
Context (has_server : bool) (server : server_marshaller).
Context (NDEBUG : bool) (cancelled_token_throws : bool).

Abbreviation a_reader := (Connection.reader_on_message has_server server cancelled_token_throws).
Abbreviation a_reader_loop := (reader_loop has_server server cancelled_token_throws).
Abbreviation a_call := (Connection.do_call NDEBUG cancelled_token_throws).

Lemma do_call_registers (name : method_id) (data : payload_t) (c : connection) :
  transport c = true -> cancel c = false ->
  completions c !! last_call_id c = None ->
  exists c',
    a_call name data c = Returned (next_promise c, c') /\
    completions c' = <[last_call_id c := next_promise c]> (completions c) /\
    promises c' = promises c /\
    write_queue c' = write_queue c ++ [make_message (last_call_id c) request name data] /\
    last_call_id c' = (last_call_id c + 1) mod 2 ^ 32 /\
    next_promise c' = S (next_promise c) /\
    cancel c' = false /\ transport c' = true.
Proof.
  intros Htr Hcan Hfree.
  eexists. unfold Connection.do_call, assert, await_cancel.
  rewrite Htr, Hcan, orb_true_r. simpl. split; [reflexivity|].
  cbn [write_queue completions promises last_call_id next_promise cancel transport
       push set_write_queue].
  unfold emplace. rewrite Hfree. repeat split; assumption.
Qed.

Lemma reader_completes (r : message_t) (f : reader_frame) (c : connection) (p : nat) :
  completions c !! call_id r = Some p ->
  type r = response ->
  exists c',
    a_reader r f c = Returned (c', f) /\
    completions c' = delete (call_id r) (completions c) /\
    promises c' = deliver p (payload_set (payload r)) (promises c) /\
    cancel c' = cancel c.
Proof.
  intros Hp Ht. unfold Connection.reader_on_message.
  rewrite Ht, Hp. cbn [call_type_eqb orb]. eexists. split; [reflexivity|].
  repeat split.
Qed.

(** X18.  Replies are matched to callers by call identifier, not by order.  Two
    calls made one after the other on an idle connection get different
    call identifiers; when the reply to the second is read before the
    reply to the first, each caller still gets the payload of the reply to
    its own call, once, and no call is left pending. *)
Theorem replies_matched_by_call_id (name1 name2 : method_id)
    (data1 data2 reply1 reply2 : payload_t) (c : connection) (f : reader_frame) :
  idle c -> 0 <= last_call_id c -> last_call_id c + 1 < 2 ^ 30 ->
  exists c1 c2 m1 m2 c3,
    a_call name1 data1 c = Returned (next_promise c, c1) /\
    a_call name2 data2 c1 = Returned (S (next_promise c), c2) /\
    pushed c c2 = [m1; m2] /\
    call_id m1 <> call_id m2 /\
    a_reader_loop
      [read_message (make_message (call_id m2) response name2 reply2);
       read_message (make_message (call_id m1) response name1 reply1)] f c2
    = Returned (c3, f) /\
    observed c3 (next_promise c) = [payload_set reply1] /\
    observed c3 (S (next_promise c)) = [payload_set reply2] /\
    completions c3 = ∅.
Proof.
  intros (Hrun & Htr & Hcan & Hcomp & Hq & Hps) Hlow Hhigh.
  set (k := last_call_id c) in *. set (p := next_promise c) in *.
  destruct (do_call_registers name1 data1 c Htr Hcan)
    as (c1 & Hdo1 & Hcomp1 & Hps1 & Hq1 & Hk1 & Hn1 & Hcan1 & Htr1).
  { fold k. rewrite Hcomp. apply lookup_empty. }
  fold k p in Hdo1, Hcomp1, Hq1, Hk1, Hn1.
  rewrite Z.mod_small in Hk1 by lia.
  destruct (do_call_registers name2 data2 c1 Htr1 Hcan1)
    as (c2 & Hdo2 & Hcomp2 & Hps2 & Hq2 & Hk2 & Hn2 & Hcan2 & Htr2).
  { rewrite Hcomp1, Hk1, Hcomp. rewrite lookup_insert_ne by lia. apply lookup_empty. }
  rewrite Hn1 in Hdo2. rewrite Hk1, Hn1 in Hcomp2. rewrite Hk1 in Hq2.
  set (m1 := make_message k request name1 data1) in *.
  set (m2 := make_message (k + 1) request name2 data2) in *.
  assert (Hid1 : call_id m1 = k) by (apply Z.mod_small; lia).
  assert (Hid2 : call_id m2 = k + 1) by (apply Z.mod_small; lia).
  set (r1 := make_message (call_id m1) response name1 reply1).
  set (r2 := make_message (call_id m2) response name2 reply2).
  assert (Hr1 : call_id r1 = k).
  { unfold r1, make_message. cbn [call_id]. fold m1. rewrite Hid1.
    apply Z.mod_small. lia. }
  assert (Hr2 : call_id r2 = k + 1).
  { unfold r2, make_message. cbn [call_id]. fold m2. rewrite Hid2.
    apply Z.mod_small. lia. }
  destruct (reader_completes r2 f c2 (S p)) as (c3 & Hread2 & Hcomp3 & Hps3 & Hcan3).
  { rewrite Hr2, Hcomp2. apply lookup_insert_eq. }
  { reflexivity. }
  destruct (reader_completes r1 f c3 p) as (c4 & Hread1 & Hcomp4 & Hps4 & Hcan4).
  { rewrite Hr1, Hcomp3, Hr2, Hcomp2, Hcomp1.
    rewrite lookup_delete_ne by lia. rewrite lookup_insert_ne by lia.
    apply lookup_insert_eq. }
  { reflexivity. }
  exists c1, c2, m1, m2, c4.
  split; [exact Hdo1|]. split; [exact Hdo2|]. split.
  { unfold pushed. rewrite Hq2, Hq1, Hq. reflexivity. }
  split; [lia|]. split.
  { cbn [reader_loop]. fold r1 r2.
    rewrite Hcan2, Hread2. cbn [outcome_bind fst snd].
    rewrite Hcan3, Hcan2, Hread1. reflexivity. }
  unfold observed. rewrite Hps4, Hps3, Hps2, Hps1, Hps.
  cbn [payload r1 r2 make_message].
  split; [|split].
  - rewrite deliver_lookup_eq, deliver_lookup_ne by lia.
    rewrite lookup_empty. reflexivity.
  - rewrite deliver_lookup_ne by lia. rewrite deliver_lookup_eq, lookup_empty.
    reflexivity.
  - rewrite Hcomp4, Hr1, Hcomp3, Hr2, Hcomp2, Hcomp1, Hcomp.
    apply map_eq. intros key. rewrite lookup_empty.
    destruct (decide (key = k)) as [->|Hk];
      [apply lookup_delete_eq | rewrite lookup_delete_ne by congruence].
    destruct (decide (key = k + 1)) as [->|Hk'];
      [apply lookup_delete_eq | rewrite lookup_delete_ne by congruence].
    rewrite !lookup_insert_ne by congruence. apply lookup_empty.
Qed.

End Multiplexing.

(** Two calls of [simple_sum] on a started connection, answered in the
    opposite order. *)
Lemma replies_matched_by_call_id_witness :
  idle started /\
  exists c1 c2 m1 m2 c3,
    do_call true true simple_sum_id simple_sum_args started = Returned (0%nat, c1) /\
    do_call true true simple_sum_id simple_sum_args c1 = Returned (1%nat, c2) /\
    pushed started c2 = [m1; m2] /\
    call_id m1 <> call_id m2 /\
    reader_loop false sample_server true
      [read_message (make_message (call_id m2) response simple_sum_id (le_bytes 4 2));
       read_message (make_message (call_id m1) response simple_sum_id (le_bytes 4 1))]
      reader_started c2
    = Returned (c3, reader_started) /\
    observed c3 0 = [payload_set (le_bytes 4 1)] /\
    observed c3 1 = [payload_set (le_bytes 4 2)] /\
    completions c3 = ∅.
Proof.
  split; [apply idle_started|].
  apply (replies_matched_by_call_id false sample_server true true
           simple_sum_id simple_sum_id simple_sum_args simple_sum_args
           (le_bytes 4 1) (le_bytes 4 2) started reader_started).
  - apply idle_started.
  - simpl. lia.
  - simpl. lia.
Defined.
End ConnectionFacts.

Module TransportsFacts.
Import Serializer SerializerFacts Marshal Connection Transports.

(** *** The header *)

Lemma length_header_bytes (m : message_t) (n : Z) :
  length (header_bytes m n) = sizeof_header.
Proof.
  unfold header_bytes. rewrite !length_app, !length_le_bytes. reflexivity.
Qed.

Lemma to_call_type_value (t : call_type) : to_call_type (call_type_value t) = t.
Proof. destruct t; reflexivity. Qed.

Lemma call_type_value_range (t : call_type) : 0 <= call_type_value t < 4.
Proof. destruct t; simpl; lia. Qed.

Lemma le_value_range (bs : list byte) : 0 <= le_value bs < 256 ^ Z.of_nat (length bs).
Proof.
  induction bs as [|b bs IH].
  - simpl. lia.
  - cbn [le_value length]. rewrite Nat2Z.inj_succ, Z.pow_succ_r by lia.
    pose proof (Z_of_byte_range b). lia.
Qed.

Lemma message_of_header_bytes (m : message_t) (n : Z) (tail : list byte)
    (a_payload : payload_t) :
  valid_message m ->
  message_of (header_bytes m n ++ tail) a_payload
  = {| call_id := call_id m; type := type m; id := id m; payload := a_payload |}.
Proof.
  intros [Hid Hname]. unfold message_of, header_bytes.
  rewrite <- !app_assoc.
  rewrite (take_app_length' (le_bytes 4 _)) by (rewrite length_le_bytes; reflexivity).
  rewrite (drop_app_length' (le_bytes 4 _)) by (rewrite length_le_bytes; reflexivity).
  rewrite (take_app_length' (le_bytes 4 (id m))) by (rewrite length_le_bytes; reflexivity).
  rewrite !le_value_le_bytes. change (256 ^ Z.of_nat 4) with (2 ^ 32).
  pose proof (call_type_value_range (type m)) as Ht.
  assert (Hunit : (call_id m + 2 ^ 30 * call_type_value (type m)) mod 2 ^ 32
                  = call_id m + 2 ^ 30 * call_type_value (type m))
    by (apply Z.mod_small; lia).
  rewrite Hunit.
  assert (Hlow : (call_id m + 2 ^ 30 * call_type_value (type m)) mod 2 ^ 30
                 = call_id m).
  { replace (call_id m + 2 ^ 30 * call_type_value (type m))
      with (call_id m + call_type_value (type m) * 2 ^ 30) by lia.
    rewrite Z.mod_add by lia. apply Z.mod_small. lia. }
  assert (Hhigh : (call_id m + 2 ^ 30 * call_type_value (type m)) / 2 ^ 30
                  = call_type_value (type m)).
  { replace (call_id m + 2 ^ 30 * call_type_value (type m))
      with (call_id m + call_type_value (type m) * 2 ^ 30) by lia.
    rewrite Z.div_add by lia.
    rewrite (Z.div_small (call_id m)) by lia. lia. }
  rewrite Hlow, Hhigh, to_call_type_value, (Z.mod_small (id m)) by lia.
  reflexivity.
Qed.

Lemma payload_size_of_header_bytes (m : message_t) (n : Z) (tail : list byte) :
  0 <= n < 2 ^ 32 ->
  payload_size_of (header_bytes m n ++ tail) = n.
Proof.
  intros Hn. unfold payload_size_of, header_bytes.
  rewrite <- !app_assoc, (app_assoc (le_bytes 4 _) (le_bytes 4 (id m))).
  rewrite drop_app_length' by (rewrite length_app, !length_le_bytes; reflexivity).
  rewrite take_app_length' by (rewrite length_le_bytes; reflexivity).
  rewrite le_value_le_bytes. change (256 ^ Z.of_nat 4) with (2 ^ 32).
  apply Z.mod_small. exact Hn.
Qed.

Lemma payload_size_of_range (bytes : list byte) : 0 <= payload_size_of bytes < 2 ^ 32.
Proof.
  unfold payload_size_of.
  pose proof (le_value_range (take 4 (drop 8 bytes))) as H.
  assert (Hlen : (length (take 4 (drop 8 bytes)) <= 4)%nat)
    by (rewrite length_take; lia).
  assert (256 ^ Z.of_nat (length (take 4 (drop 8 bytes))) <= 256 ^ 4)
    by (apply Z.pow_le_mono_r; lia).
  lia.
Qed.

Lemma message_eta (m : message_t) :
  {| call_id := call_id m; type := type m; id := id m; payload := payload m |} = m.
Proof. destruct m; reflexivity. Qed.

(** A prefix of at least the length of [front] begins with [front]. *)
Lemma begins_with (front rest buf more : list byte) :
  buf ++ more = front ++ rest -> (length front <= length buf)%nat ->
  buf = front ++ drop (length front) buf.
Proof.
  intros Heq Hlen.
  rewrite <- (take_drop (length front) buf) at 1. f_equal.
  rewrite <- (take_app_le buf more) by exact Hlen.
  rewrite Heq. apply take_app_length.
Qed.

(** *** tcp_transport *)

Section Tcp.
Import tcp.

Abbreviation nonempty := (fun data : list byte => data <> []).

Lemma read_until_eq (turns size : nat) (t : tcp_transport) :
  read_until turns size t
  = if Nat.ltb (length (receive_buffer t)) size
    then match turns with
         | O => None
         | S turns' => task_bind (read_next t) (read_until turns' size)
         end
    else Some (Returned t).
Proof. destruct turns; reflexivity. Qed.

(** With enough bytes on their way the loop ends with at least [size] of
    them in the buffer, having taken nothing it did not need. *)
Lemma read_until_enough (size : nat) (chunks : list (list byte)) :
  forall (post : list (list byte)) (buf : list byte) (snt : list (list byte)),
    Forall nonempty chunks ->
    (size <= length (buf ++ List.concat chunks))%nat ->
    exists buf' chunks',
      read_until (length (chunks ++ post)) size
        {| receive_buffer := buf; incoming := chunks ++ post; sent := snt |}
      = Some (Returned {| receive_buffer := buf'; incoming := chunks' ++ post;
                          sent := snt |}) /\
      buf' ++ List.concat chunks' = buf ++ List.concat chunks /\
      (size <= length buf')%nat /\
      Forall nonempty chunks'.
Proof.
  induction chunks as [|d chunks IH]; intros post buf snt Hne Hsize.
  - exists buf, []. rewrite read_until_eq. cbn [receive_buffer].
    simpl in Hsize. rewrite app_nil_r in Hsize.
    destruct (Nat.ltb_spec (length buf) size) as [Hlt|Hge]; [lia|].
    repeat split; auto.
  - rewrite read_until_eq. cbn [receive_buffer].
    destruct (Nat.ltb_spec (length buf) size) as [Hlt|Hge].
    + apply Forall_cons in Hne as [Hd Hne].
      cbn [app length]. unfold read_next. cbn [incoming receive_buffer sent].
      destruct d as [|b d]; [contradiction|]. cbn [task_bind].
      destruct (IH post (buf ++ b :: d) snt Hne) as (buf' & chunks' & Hr & Hcat & Hlen & Hne').
      { rewrite <- app_assoc. exact Hsize. }
      exists buf', chunks'. rewrite Hr. repeat split; auto.
      rewrite Hcat, <- app_assoc. reflexivity.
    + exists buf, (d :: chunks). repeat split; auto.
Qed.

(** With too few bytes on their way the loop takes all of them. *)
Lemma read_until_short (size : nat) (chunks : list (list byte)) :
  forall (post : list (list byte)) (buf : list byte) (snt : list (list byte)),
    Forall nonempty chunks ->
    (length (buf ++ List.concat chunks) < size)%nat ->
    read_until (length (chunks ++ post)) size
      {| receive_buffer := buf; incoming := chunks ++ post; sent := snt |}
    = read_until (length post) size
        {| receive_buffer := buf ++ List.concat chunks; incoming := post;
           sent := snt |}.
Proof.
  induction chunks as [|d chunks IH]; intros post buf snt Hne Hsize.
  - simpl. rewrite app_nil_r. reflexivity.
  - apply Forall_cons in Hne as [Hd Hne].
    rewrite read_until_eq. cbn [receive_buffer].
    assert (Hlt : (length buf < size)%nat).
    { rewrite length_app in Hsize. lia. }
    destruct (Nat.ltb_spec (length buf) size) as [_|Hge]; [|lia].
    cbn [app length]. unfold read_next. cbn [incoming receive_buffer sent].
    destruct d as [|b d]; [contradiction|]. cbn [task_bind].
    rewrite IH; [|exact Hne|].
    + cbn [List.concat]. rewrite <- app_assoc. reflexivity.
    + cbn [List.concat] in Hsize. rewrite <- app_assoc. exact Hsize.
Qed.

(** What [write] hands to the socket for a message. *)
Lemma tcp_write_sent (message : message_t) (sender : tcp_transport) :
  List.concat (added (sent sender) (sent (write message sender)))
  = header_bytes message (Z.of_nat (length (payload message)) mod 2 ^ 32)
    ++ payload message.
Proof.
  unfold added, write. cbn [sent]. rewrite drop_app_length.
  cbn [List.concat]. rewrite app_nil_r. reflexivity.
Qed.

(** X19.  A message written is the message read, however the network cuts the
    stream.  When what a receiver has buffered and what its socket still
    delivers, in non-empty pieces cut anywhere, is what [write] sent for a
    message followed by more bytes, [read] returns that message, sends
    nothing, and leaves exactly the bytes that followed to be read next. *)
Theorem tcp_read_written (message : message_t) (sender receiver : tcp_transport)
    (tail : list byte) :
  valid_message message ->
  Z.of_nat (length (payload message)) < 2 ^ 32 ->
  Forall nonempty (incoming receiver) ->
  receive_buffer receiver ++ List.concat (incoming receiver)
  = List.concat (added (sent sender) (sent (write message sender))) ++ tail ->
  exists receiver',
    read receiver = Some (Returned (message, receiver')) /\
    receive_buffer receiver' ++ List.concat (incoming receiver') = tail /\
    Forall nonempty (incoming receiver') /\
    sent receiver' = sent receiver.
Proof.
  intros Hvalid Hlen Hne Hstream.
  rewrite tcp_write_sent, Z.mod_small in Hstream by lia.
  destruct receiver as [buf chunks snt]. cbn [receive_buffer incoming sent] in *.
  set (header := header_bytes message (Z.of_nat (length (payload message)))) in *.
  assert (Hheader : length header = sizeof_header) by apply length_header_bytes.
  unfold read. cbn [incoming].
  (* the header *)
  destruct (read_until_enough sizeof_header chunks [] buf snt Hne)
    as (buf1 & chunks1 & Hr1 & Hcat1 & Hlen1 & Hne1).
  { rewrite Hstream, !length_app. lia. }
  rewrite !app_nil_r in Hr1. rewrite Hr1. cbn [task_bind receive_buffer incoming].
  assert (Hbuf1 : buf1 = header ++ drop (length header) buf1).
  { apply (begins_with header (payload message ++ tail) buf1 (List.concat chunks1)).
    - rewrite Hcat1, Hstream, <- app_assoc. reflexivity.
    - lia. }
  assert (Hsize1 : payload_size_of buf1 = Z.of_nat (length (payload message))).
  { rewrite Hbuf1. apply payload_size_of_header_bytes. lia. }
  rewrite Hsize1, Nat2Z.id.
  (* the payload *)
  destruct (read_until_enough (sizeof_header + length (payload message)) chunks1 []
              buf1 snt Hne1)
    as (buf2 & chunks2 & Hr2 & Hcat2 & Hlen2 & Hne2).
  { rewrite Hcat1, Hstream, !length_app. lia. }
  rewrite !app_nil_r in Hr2. rewrite Hr2. cbn [task_bind receive_buffer incoming sent].
  assert (Hbuf2 : buf2 = (header ++ payload message)
                         ++ drop (length (header ++ payload message)) buf2).
  { apply (begins_with (header ++ payload message) tail buf2 (List.concat chunks2)).
    - rewrite Hcat2, Hcat1, Hstream. reflexivity.
    - rewrite length_app. lia. }
  assert (Hfull : (sizeof_header + length (payload message))%nat
                  = length (header ++ payload message))
    by (rewrite length_app; lia).
  rewrite Hfull.
  set (rest := drop (length (header ++ payload message)) buf2) in *.
  assert (Hsize2 : payload_size_of buf2 = Z.of_nat (length (payload message))).
  { rewrite Hbuf2, <- app_assoc. apply payload_size_of_header_bytes. lia. }
  assert (Hmessage : forall a_payload,
             message_of buf2 a_payload
             = {| call_id := call_id message; type := type message;
                  id := id message; payload := a_payload |}).
  { intros a_payload. rewrite Hbuf2, <- app_assoc.
    apply message_of_header_bytes. exact Hvalid. }
  assert (Hdata : drop sizeof_header buf2 = payload message ++ rest).
  { rewrite Hbuf2, <- app_assoc, <- Hheader. apply drop_app_length. }
  eexists. split; [|split; [|split]].
  - rewrite Hsize2, Nat2Z.id, Hmessage, Hdata, take_app_length, message_eta.
    reflexivity.
  - cbn [receive_buffer incoming].
    apply (app_inv_head (header ++ payload message)).
    rewrite app_assoc. fold rest. rewrite <- Hbuf2, Hcat2, Hcat1, Hstream.
    reflexivity.
  - exact Hne2.
  - reflexivity.
Qed.

(** X20.  A frame that is cut short is never taken for a message.  When what
    the receiver has buffered and what its socket delivers before the peer
    closes is only a proper beginning of what [write] sent, [read] throws
    the error of a connection reset at the close, and stays suspended for
    as long as the close has not come. *)
Theorem tcp_read_cut_short (message : message_t) (sender receiver : tcp_transport)
    (chunks rest : list (list byte)) (missing : list byte) :
  valid_message message ->
  Z.of_nat (length (payload message)) < 2 ^ 32 ->
  Forall nonempty chunks -> missing <> [] ->
  receive_buffer receiver ++ List.concat chunks ++ missing
  = List.concat (added (sent sender) (sent (write message sender))) ->
  (incoming receiver = chunks -> read receiver = None) /\
  (incoming receiver = chunks ++ [] :: rest ->
   read receiver = Some (Hresult_error (HRESULT_FROM_WIN32 WSAECONNRESET))).
Proof.
  intros Hvalid Hlen Hne Hmissing Hstream.
  rewrite tcp_write_sent, Z.mod_small in Hstream by lia.
  destruct receiver as [buf inc snt]. cbn [receive_buffer incoming sent] in *.
  set (header := header_bytes message (Z.of_nat (length (payload message)))) in *.
  assert (Hheader : length header = sizeof_header) by apply length_header_bytes.
  assert (Hmis : (1 <= length missing)%nat)
    by (destruct missing; [contradiction | simpl; lia]).
  assert (Htotal : (length (buf ++ List.concat chunks) + length missing
                    = sizeof_header + length (payload message))%nat).
  { rewrite <- Hheader, <- !length_app, <- app_assoc, Hstream. reflexivity. }
  assert (Hend : forall post size buf',
             (length buf' < size)%nat ->
             (post = [] ->
              read_until (length post) size
                {| receive_buffer := buf'; incoming := post; sent := snt |} = None) /\
             (post = [] :: rest ->
              read_until (length post) size
                {| receive_buffer := buf'; incoming := post; sent := snt |}
              = Some (Hresult_error (HRESULT_FROM_WIN32 WSAECONNRESET)))).
  { intros post size buf' Hlt. split; intros ->; rewrite read_until_eq;
      cbn [receive_buffer];
      destruct (Nat.ltb_spec (length buf') size) as [_|Hge]; try lia; reflexivity. }
  assert (Hcases : forall post,
             let t := {| receive_buffer := buf; incoming := chunks ++ post;
                         sent := snt |} in
             (post = [] -> read t = None) /\
             (post = [] :: rest ->
              read t = Some (Hresult_error (HRESULT_FROM_WIN32 WSAECONNRESET)))).
  { intros post t. unfold t, read. cbn [incoming].
    destruct (Nat.lt_ge_cases (length (buf ++ List.concat chunks)) sizeof_header)
      as [Hshort|Hlong].
    - (* not even the header *)
      rewrite (read_until_short sizeof_header chunks post buf snt Hne Hshort).
      destruct (Hend post sizeof_header (buf ++ List.concat chunks) Hshort)
        as [Hnone Herr].
      split; intros Hpost; [rewrite (Hnone Hpost) | rewrite (Herr Hpost)]; reflexivity.
    - (* the header, and not all of the payload *)
      destruct (read_until_enough sizeof_header chunks post buf snt Hne Hlong)
        as (buf1 & chunks1 & Hr1 & Hcat1 & Hlen1 & Hne1).
      rewrite Hr1. cbn [task_bind receive_buffer incoming].
      assert (Hbuf1 : buf1 = header ++ drop (length header) buf1).
      { apply (begins_with header (payload message) buf1
                 (List.concat chunks1 ++ missing)).
        - rewrite app_assoc, Hcat1, <- app_assoc. exact Hstream.
        - lia. }
      assert (Hsize1 : payload_size_of buf1 = Z.of_nat (length (payload message))).
      { rewrite Hbuf1. apply payload_size_of_header_bytes. lia. }
      rewrite Hsize1, Nat2Z.id.
      assert (Hshort : (length (buf1 ++ List.concat chunks1)
                        < sizeof_header + length (payload message))%nat)
        by (rewrite Hcat1; lia).
      rewrite (read_until_short _ chunks1 post buf1 snt Hne1 Hshort).
      destruct (Hend post (sizeof_header + length (payload message))%nat
                  (buf1 ++ List.concat chunks1) Hshort) as [Hnone Herr].
      split; intros Hpost; [rewrite (Hnone Hpost) | rewrite (Herr Hpost)];
        reflexivity. }
  split; intros ->.
  - destruct (Hcases []) as [H _]. rewrite app_nil_r in H. apply H. reflexivity.
  - destruct (Hcases ([] :: rest)) as [_ H]. apply H. reflexivity.
Qed.

End Tcp.

(** *** pipe_transport *)

Section Pipe.
Import pipe.
Context (NDEBUG : bool).

Lemma MaxSupportedRead_bounds : (sizeof_header <= MaxSupportedRead)%nat.
Proof. unfold MaxSupportedRead, sizeof_header. lia. Qed.

Lemma write_span_small (data : list byte) (t : pipe_transport) :
  (length data <= MaxSupportedRead)%nat ->
  write_span NDEBUG data t
  = Returned {| pipe := pipe t; in_pipe := in_pipe t; transfers := transfers t;
                written := written t ++ [data] |}.
Proof.
  intros H. unfold write_span.
  apply Nat.leb_le in H. rewrite H, orb_true_r. reflexivity.
Qed.

Abbreviation fits := (fun chunk : list byte =>
                        (0 < length chunk <= MaxSupportedRead)%nat).

Lemma write_payload_chunks (fuel : nat) :
  forall (data : list byte) (t : pipe_transport),
    (length data <= fuel)%nat ->
    exists chunks,
      write_payload NDEBUG fuel data t
      = Returned {| pipe := pipe t; in_pipe := in_pipe t;
                    transfers := transfers t; written := written t ++ chunks |} /\
      List.concat chunks = data /\
      Forall fits chunks.
Proof.
  pose proof MaxSupportedRead_bounds as Hmax. unfold sizeof_header in Hmax.
  induction fuel as [|fuel IH]; intros data t Hfuel.
  - destruct data; [|simpl in Hfuel; lia].
    exists []. destruct t. cbn. rewrite app_nil_r. auto.
  - destruct data as [|b data].
    + exists []. destruct t. cbn. rewrite app_nil_r. auto.
    + cbn [write_payload].
      set (whole := b :: data) in *.
      set (towrite := Nat.min (length whole) MaxSupportedRead).
      assert (Hto : (1 <= towrite <= length whole)%nat)
        by (unfold towrite, whole; cbn [length]; lia).
      assert (Hchunk : length (take towrite whole) = towrite)
        by (rewrite length_take; lia).
      rewrite write_span_small by (rewrite Hchunk; unfold towrite; lia).
      cbn [outcome_bind].
      destruct (IH (drop towrite whole)
                  {| pipe := pipe t; in_pipe := in_pipe t; transfers := transfers t;
                     written := written t ++ [take towrite whole] |})
        as (chunks & Hw & Hcat & Hfit).
      { rewrite length_drop. unfold whole in *. cbn [length] in *. lia. }
      exists (take towrite whole :: chunks).
      rewrite Hw. cbn [pipe in_pipe transfers written].
      rewrite <- app_assoc. split; [reflexivity|]. split.
      * cbn [List.concat]. rewrite Hcat. apply take_drop.
      * constructor; [|exact Hfit]. rewrite Hchunk. unfold towrite. lia.
Qed.

Lemma write_chunks (message : message_t) (t : pipe_transport) :
  pipe t = true ->
  exists t',
    write NDEBUG message t = Returned t' /\
    List.concat (added (written t) (written t'))
    = header_bytes message (Z.of_nat (length (payload message)) mod 2 ^ 32)
      ++ payload message /\
    Forall fits (added (written t) (written t')) /\
    pipe t' = true /\ in_pipe t' = in_pipe t /\ transfers t' = transfers t.
Proof.
  intros Hpipe. unfold write. rewrite Hpipe. cbn [negb].
  set (pmh := header_bytes message _).
  assert (Hpmh : length pmh = sizeof_header) by apply length_header_bytes.
  pose proof MaxSupportedRead_bounds as Hmax.
  rewrite write_span_small by lia. cbn [outcome_bind].
  destruct (write_payload_chunks (length (payload message)) (payload message)
              {| pipe := pipe t; in_pipe := in_pipe t; transfers := transfers t;
                 written := written t ++ [pmh] |} (Nat.le_refl _))
    as (chunks & Hw & Hcat & Hfit).
  eexists. split; [exact Hw|].
  cbn [pipe in_pipe transfers written]. unfold added.
  rewrite <- app_assoc, drop_app_length. cbn [app List.concat].
  rewrite Hcat. split; [reflexivity|]. split; [|auto].
  constructor; [|exact Hfit]. rewrite Hpmh. unfold sizeof_header in *. lia.
Qed.

(** X21.  [write] passes the header and then the payload, in order and cut into
    pieces of at most [MaxSupportedRead] bytes none of which is empty, so
    the assertion of the private [write] holds in every call; nothing else
    of the transport changes. *)
Theorem pipe_write_chunks (message : message_t) (t : pipe_transport) :
  pipe t = true ->
  exists t',
    write NDEBUG message t = Returned t' /\
    List.concat (added (written t) (written t'))
    = header_bytes message (Z.of_nat (length (payload message)) mod 2 ^ 32)
      ++ payload message /\
    Forall fits (added (written t) (written t')) /\
    pipe t' = true /\ in_pipe t' = in_pipe t /\ transfers t' = transfers t.
Proof. exact (write_chunks message t). Qed.

Lemma read_payload_eq (turns : nat) (size : Z) (a_payload : list byte)
    (t : pipe_transport) :
  read_payload NDEBUG turns size a_payload t
  = if size =? 0 then Some (Returned (a_payload, t))
    else
      match turns with
      | O => None
      | S turns' =>
          let toread := Z.to_nat (Z.min (Z.of_nat MaxSupportedRead) size) in
          task_bind (read_span NDEBUG toread t) (fun dt =>
            read_payload NDEBUG turns'
              ((size - Z.of_nat (length (fst dt))) mod 2 ^ 32)
              (a_payload ++ fst dt) (snd dt))
      end.
Proof. destruct turns; reflexivity. Qed.

Lemma read_span_some (size n : nat) (rest : list nat) (data tail : list byte)
    (w : list (list byte)) :
  (size <= MaxSupportedRead)%nat -> data <> [] ->
  (Nat.min size n <= length data)%nat ->
  read_span NDEBUG size
    {| pipe := true; in_pipe := data ++ tail; transfers := n :: rest; written := w |}
  = Some (Returned (take (Nat.min size n) data,
                    {| pipe := true;
                       in_pipe := drop (Nat.min size n) data ++ tail;
                       transfers := rest; written := w |})).
Proof.
  intros Hsize Hdata Hk. unfold read_span.
  apply Nat.leb_le in Hsize. rewrite Hsize, orb_true_r.
  cbn [transfers in_pipe pipe written].
  destruct data as [|b data]; [contradiction|].
  cbn [app].
  change (b :: data ++ tail) with ((b :: data) ++ tail).
  rewrite take_app_le by exact Hk.
  rewrite length_take.
  rewrite (Nat.min_l (Nat.min size n) (length (b :: data))) by exact Hk.
  rewrite drop_app_le by exact Hk. reflexivity.
Qed.

Lemma read_payload_all (ns : list nat) :
  forall (data a_payload tail : list byte) (w : list (list byte)),
    Forall (fun n => (1 <= n)%nat) ns ->
    (length data <= length ns)%nat ->
    Z.of_nat (length data) < 2 ^ 32 ->
    exists ns',
      read_payload NDEBUG (length ns) (Z.of_nat (length data)) a_payload
        {| pipe := true; in_pipe := data ++ tail; transfers := ns; written := w |}
      = Some (Returned (a_payload ++ data,
                        {| pipe := true; in_pipe := tail; transfers := ns';
                           written := w |})).
Proof.
  induction ns as [|n ns IH]; intros data a_payload tail w Hns Hlen Hsize;
    rewrite read_payload_eq.
  - destruct data; [|simpl in Hlen; lia].
    exists []. cbn. rewrite app_nil_r. reflexivity.
  - destruct data as [|b data].
    + exists (n :: ns). cbn. rewrite app_nil_r. reflexivity.
    + set (whole := b :: data) in *.
      assert (Hwhole : (1 <= length whole)%nat) by (unfold whole; cbn; lia).
      destruct (Z.eqb_spec (Z.of_nat (length whole)) 0) as [H0|_]; [lia|].
      cbn [length]. cbv zeta.
      apply Forall_cons in Hns as [Hn Hns].
      set (toread := Z.to_nat (Z.min (Z.of_nat MaxSupportedRead)
                                 (Z.of_nat (length whole)))).
      assert (Hto : (1 <= toread <= length whole)%nat /\
                    (toread <= MaxSupportedRead)%nat).
      { pose proof MaxSupportedRead_bounds. unfold sizeof_header in *.
        unfold toread. lia. }
      set (k := Nat.min toread n).
      assert (Hk : (1 <= k <= length whole)%nat) by (unfold k; lia).
      rewrite (read_span_some toread n ns whole tail w);
        [|lia|discriminate|fold k; lia].
      fold k. cbn [task_bind fst snd].
      rewrite length_take, Nat.min_l by lia.
      assert (Hnew : (Z.of_nat (length whole) - Z.of_nat k) mod 2 ^ 32
                     = Z.of_nat (length (drop k whole))).
      { rewrite length_drop, Z.mod_small by lia. lia. }
      rewrite Hnew.
      destruct (IH (drop k whole) (a_payload ++ take k whole) tail w Hns)
        as (ns' & Hr).
      { rewrite length_drop. cbn [length] in Hlen. lia. }
      { rewrite length_drop. lia. }
      exists ns'. rewrite Hr. rewrite <- app_assoc, take_drop. reflexivity.
Qed.

(** X22.  A message written to a pipe is the message read from it, however the
    system cuts the payload.  When the pipe holds what [write] passed for
    a message, then more bytes, and the first [ReadFile] transfers the
    whole header while each later one transfers at least one byte, [read]
    returns that message and leaves in the pipe exactly the bytes that
    followed. *)
Theorem pipe_read_written (message : message_t) (sender sender' t : pipe_transport)
    (tail : list byte) (n : nat) (ns : list nat) :
  valid_message message ->
  Z.of_nat (length (payload message)) < 2 ^ 32 ->
  write NDEBUG message sender = Returned sender' ->
  pipe t = true ->
  in_pipe t = List.concat (added (written sender) (written sender')) ++ tail ->
  transfers t = n :: ns ->
  (sizeof_header <= n)%nat ->
  Forall (fun n => (1 <= n)%nat) ns ->
  (length (payload message) <= length ns)%nat ->
  exists t',
    read NDEBUG t = Some (Returned (message, t')) /\
    in_pipe t' = tail /\ pipe t' = true /\ written t' = written t.
Proof.
  intros Hvalid Hlen Hwrite Hpipe Hin Htr Hn Hns Henough.
  assert (Hsender : pipe sender = true).
  { unfold write in Hwrite. destruct (pipe sender); [reflexivity | discriminate]. }
  destruct (write_chunks message sender Hsender) as (s' & Hw & Hcat & _).
  rewrite Hwrite in Hw. injection Hw as <-.
  rewrite Hcat, Z.mod_small in Hin by lia.
  set (header := header_bytes message (Z.of_nat (length (payload message)))) in *.
  assert (Hheader : length header = sizeof_header) by apply length_header_bytes.
  destruct t as [p inp tr w]. cbn [pipe in_pipe transfers written] in *.
  subst p inp tr. unfold read. cbn [pipe negb].
  rewrite <- app_assoc.
  rewrite (read_span_some sizeof_header n ns header (payload message ++ tail) w).
  2: apply MaxSupportedRead_bounds.
  2: { intros H. rewrite H in Hheader. discriminate. }
  2: lia.
  rewrite Nat.min_l by exact Hn. cbn [task_bind fst snd transfers].
  rewrite (take_ge header sizeof_header), (drop_ge header sizeof_header) by lia.
  rewrite Hheader, Nat.eqb_refl. cbn [negb app].
  pose proof (payload_size_of_header_bytes message
                (Z.of_nat (length (payload message))) []) as Hsize.
  pose proof (message_of_header_bytes message
                (Z.of_nat (length (payload message))) []) as Hmessage.
  rewrite app_nil_r in Hsize, Hmessage. fold header in Hsize, Hmessage.
  rewrite Hsize by lia.
  destruct (read_payload_all ns (payload message) [] tail w Hns Henough Hlen)
    as (ns' & Hr).
  rewrite Hr. cbn [task_bind fst snd app].
  eexists. split.
  - do 3 f_equal.
    rewrite Hmessage by exact Hvalid. apply message_eta.
  - repeat split.
Qed.

(** X23.  A header that does not arrive in one piece is an error.  When the
    first [ReadFile] transfers fewer than the 12 bytes of a header, because
    the system cut it or because no more have been written yet, [read]
    throws [E_INVALIDARG]. *)
Theorem pipe_read_short_header (t : pipe_transport) (n : nat) (ns : list nat) :
  pipe t = true ->
  in_pipe t <> [] ->
  transfers t = n :: ns ->
  (Nat.min n (length (in_pipe t)) < sizeof_header)%nat ->
  read NDEBUG t = Some (Hresult_error E_INVALIDARG).
Proof.
  intros Hpipe Hin Htr Hshort.
  destruct t as [p inp tr w]. cbn [pipe in_pipe transfers] in *. subst p tr.
  unfold read, read_span. cbn [pipe negb transfers in_pipe].
  pose proof MaxSupportedRead_bounds as Hmax.
  apply Nat.leb_le in Hmax. rewrite Hmax, orb_true_r.
  destruct inp as [|b inp]; [contradiction|].
  cbn [task_bind fst snd].
  assert (Hl : length (take (Nat.min sizeof_header n) (b :: inp)) <> sizeof_header).
  { rewrite length_take. lia. }
  apply Nat.eqb_neq in Hl. rewrite Nat.eqb_sym in Hl. rewrite Hl. reflexivity.
Qed.

End Pipe.

(** *** copydata_transport *)

Section CopyData.
Import copydata.
Context (NDEBUG : bool) (size_t_bits : Z).

(** X24.  A message written is the message queued.  The window message [write]
    sends for a message whose payload, with the header, is shorter than
    2^32 bytes is taken by [on_copydata] of the receiver, provided the
    receiver expects no particular sender or expects this sender: the
    assertion holds, [true] is returned and the input queue gets exactly
    that message at its end, where [read] finds it in its turn. *)
Theorem on_copydata_written (a_message : message_t)
    (sender receiver : copydata_transport) :
  valid_message a_message ->
  Z.of_nat (length (payload a_message)) + 12 < 2 ^ 32 ->
  32 <= size_t_bits ->
  other_party receiver = 0 \/ other_party receiver = this_party sender ->
  on_copydata NDEBUG size_t_bits (write a_message sender) receiver
  = Returned (true,
              {| other_party := other_party receiver;
                 this_party := this_party receiver;
                 sync_write := sync_write receiver;
                 input_queue := input_queue receiver ++ [a_message] |}) /\
  (input_queue receiver = [] ->
   exists receiver',
     on_copydata NDEBUG size_t_bits (write a_message sender) receiver
     = Returned (true, receiver') /\
     exists receiver'', read receiver' = Some (Returned (a_message, receiver''))).
Proof.
  intros Hvalid Hlen Hbits Hparty.
  set (len := Z.of_nat (length (payload a_message))) in *.
  assert (Hheader : length (header_bytes a_message len) = sizeof_header)
    by apply length_header_bytes.
  assert (Hpow : 2 ^ 32 <= 2 ^ size_t_bits) by (apply Z.pow_le_mono_r; lia).
  assert (Hresult :
            on_copydata NDEBUG size_t_bits (write a_message sender) receiver
            = Returned (true,
                        {| other_party := other_party receiver;
                           this_party := this_party receiver;
                           sync_write := sync_write receiver;
                           input_queue := input_queue receiver ++ [a_message] |})).
  { unfold on_copydata, write, on_copydata_from.
    cbn [message wParam lParam dwData cbData lpData].
    rewrite !Z.eqb_refl.
    assert (Hassert : NDEBUG || (other_party receiver =? 0)
                      || (this_party sender =? other_party receiver) = true).
    { destruct Hparty as [H|H]; rewrite H, ?Z.eqb_refl, ?orb_true_r; reflexivity. }
    rewrite Hassert.
    fold len. rewrite (Z.mod_small len) by lia.
    rewrite length_app, Hheader.
    assert (Hcb : Z.of_nat (sizeof_header + length (payload a_message)) mod 2 ^ 32
                  = len + 12).
    { rewrite Z.mod_small; unfold sizeof_header, len in *; lia. }
    rewrite Hcb.
    destruct (Z.leb_spec (Z.of_nat sizeof_header) (len + 12)) as [_|H];
      [|unfold sizeof_header in H; lia].
    rewrite payload_size_of_header_bytes by lia.
    assert (Hsum : (len + Z.of_nat sizeof_header) mod 2 ^ size_t_bits = len + 12).
    { rewrite Z.mod_small; unfold sizeof_header; lia. }
    rewrite Hsum, Z.eqb_refl.
    rewrite message_of_header_bytes by exact Hvalid.
    rewrite <- Hheader, drop_app_length. unfold len.
    rewrite Nat2Z.id, firstn_all, message_eta. reflexivity. }
  split; [exact Hresult|].
  intros Hempty. eexists. split; [exact Hresult|].
  unfold read. cbn [input_queue]. rewrite Hempty. cbn [app]. eauto.
Qed.

(** X25.  [on_copydata] takes a message only when the size its header declares
    accounts for exactly the bytes received after the header; the payload
    of the message it queues is then all of those bytes and nothing beyond
    them.  Whenever it returns [false] the transport is unchanged. *)
Theorem on_copydata_checks_size (caller : Z) (cs : COPYDATASTRUCT)
    (t t' : copydata_transport) (taken : bool) :
  32 <= size_t_bits ->
  Z.of_nat (length (lpData cs)) = cbData cs ->
  on_copydata_from NDEBUG size_t_bits caller cs t = Returned (taken, t') ->
  if taken
  then
    dwData cs = CALL_ID /\
    exists m,
      input_queue t' = input_queue t ++ [m] /\
      payload m = drop sizeof_header (lpData cs) /\
      Z.of_nat (length (payload m)) = payload_size_of (lpData cs) /\
      Z.of_nat (length (payload m)) + 12 = cbData cs
  else t' = t.
Proof.
  intros Hbits Hcb H. unfold on_copydata_from in H.
  assert (Hpow : 2 ^ 32 <= 2 ^ size_t_bits) by (apply Z.pow_le_mono_r; lia).
  destruct (Z.eqb_spec (dwData cs) CALL_ID) as [Hid|_];
    [|injection H as <- <-; reflexivity].
  destruct (NDEBUG || (other_party t =? 0) || (caller =? other_party t));
    [|discriminate].
  destruct (Z.leb_spec (Z.of_nat sizeof_header) (cbData cs)) as [Hmin|_];
    [|injection H as <- <-; reflexivity].
  pose proof (payload_size_of_range (lpData cs)) as Hrange.
  set (size := payload_size_of (lpData cs)) in *.
  destruct (Z.eqb_spec ((size + Z.of_nat sizeof_header) mod 2 ^ size_t_bits)
              (cbData cs)) as [Hsum|_];
    [|injection H as <- <-; reflexivity].
  injection H as <- <-. split; [exact Hid|].
  assert (Hexact : size + 12 = cbData cs).
  { unfold sizeof_header in *.
    destruct (Z.lt_ge_cases (size + 12) (2 ^ size_t_bits)) as [Hsmall|Hbig].
    - rewrite Z.mod_small in Hsum by lia. lia.
    - exfalso.
      assert (Hwrap : (size + Z.of_nat 12) mod 2 ^ size_t_bits
                      = size + 12 - 2 ^ size_t_bits).
      { symmetry. apply (Z.mod_unique _ _ 1); lia. }
      lia. }
  eexists. cbn [input_queue payload message_of]. split; [reflexivity|].
  assert (Htake : take (Z.to_nat size) (drop sizeof_header (lpData cs))
                  = drop sizeof_header (lpData cs)).
  { apply take_ge. rewrite length_drop. unfold sizeof_header. lia. }
  rewrite Htake. split; [reflexivity|].
  cbn [payload message_of].
  split; rewrite length_drop; unfold sizeof_header; lia.
Qed.

End CopyData.

(** *** The properties above on a request of the sample *)

(** The request for [simple_sum(17, 42)] with call identifier 7. *)
Lemma valid_sample_request :
  valid_message (make_message 7 request simple_sum_id simple_sum_args).
Proof. split; split; vm_compute; congruence. Qed.

(** Five bytes of the frame are buffered; the socket delivers nine more
    and then the rest followed by one byte of the next frame. *)
Lemma tcp_read_written_witness :
  let m := make_message 7 request simple_sum_id simple_sum_args in
  let sender := {| tcp.receive_buffer := []; tcp.incoming := []; tcp.sent := [] |} in
  let stream := List.concat (tcp.sent (tcp.write m sender)) ++ [xaa] in
  let receiver :=
    {| tcp.receive_buffer := take 5 stream;
       tcp.incoming := [take 9 (drop 5 stream); drop 14 stream];
       tcp.sent := [] |} in
  valid_message m /\
  exists receiver',
    tcp.read receiver = Some (Returned (m, receiver')) /\
    tcp.receive_buffer receiver' ++ List.concat (tcp.incoming receiver') = [xaa].
Proof.
  intros m sender stream receiver.
  split; [exact valid_sample_request|].
  destruct (tcp_read_written m sender receiver [xaa] valid_sample_request)
    as (receiver' & Hread & Htail & _).
  - vm_compute. reflexivity.
  - repeat constructor; discriminate.
  - reflexivity.
  - exists receiver'. split; assumption.
Defined.

(** The same frame with its last three bytes missing, and the peer gone. *)
Lemma tcp_read_cut_short_witness :
  let m := make_message 7 request simple_sum_id simple_sum_args in
  let sender := {| tcp.receive_buffer := []; tcp.incoming := []; tcp.sent := [] |} in
  let frame := List.concat (tcp.sent (tcp.write m sender)) in
  let waiting :=
    {| tcp.receive_buffer := []; tcp.incoming := [take 17 frame]; tcp.sent := [] |} in
  let closed :=
    {| tcp.receive_buffer := []; tcp.incoming := [take 17 frame; []];
       tcp.sent := [] |} in
  tcp.read waiting = None /\
  tcp.read closed = Some (Hresult_error 0x80072746).
Proof.
  intros m sender frame waiting closed. split.
  - apply (tcp_read_cut_short m sender waiting [take 17 frame] [] (drop 17 frame)
             valid_sample_request).
    + vm_compute. reflexivity.
    + repeat constructor; discriminate.
    + discriminate.
    + reflexivity.
    + reflexivity.
  - apply (tcp_read_cut_short m sender closed [take 17 frame] [] (drop 17 frame)
             valid_sample_request).
    + vm_compute. reflexivity.
    + repeat constructor; discriminate.
    + discriminate.
    + reflexivity.
    + reflexivity.
Defined.

(** A build with assertions writes the request to a valid pipe. *)
Lemma pipe_write_chunks_witness :
  let m := make_message 7 request simple_sum_id simple_sum_args in
  let t := {| pipe.pipe := true; pipe.in_pipe := []; pipe.transfers := [];
              pipe.written := [] |} in
  exists t',
    pipe.write false m t = Returned t' /\
    List.concat (pipe.written t')
    = header_bytes m 8 ++ simple_sum_args.
Proof.
  intros m t.
  destruct (pipe_write_chunks false m t eq_refl) as (t' & Hw & Hcat & _).
  exists t'. split; [exact Hw | exact Hcat].
Defined.

(** The system transfers the header whole and the payload in pieces of
    three bytes. *)
Lemma pipe_read_written_witness :
  let m := make_message 7 request simple_sum_id simple_sum_args in
  let sender := {| pipe.pipe := true; pipe.in_pipe := []; pipe.transfers := [];
                   pipe.written := [] |} in
  let sender' :=
    {| pipe.pipe := true; pipe.in_pipe := []; pipe.transfers := [];
       pipe.written := [header_bytes m 8; simple_sum_args] |} in
  let t := {| pipe.pipe := true;
              pipe.in_pipe := header_bytes m 8 ++ simple_sum_args ++ [xaa];
              pipe.transfers := [12; 3; 3; 3; 3; 3; 3; 3; 3]%nat;
              pipe.written := [] |} in
  pipe.write false m sender = Returned sender' /\
  exists t',
    pipe.read false t = Some (Returned (m, t')) /\ pipe.in_pipe t' = [xaa].
Proof.
  intros m sender sender' t.
  split; [reflexivity|].
  destruct (pipe_read_written false m sender sender' t [xaa] 12 [3; 3; 3; 3; 3; 3; 3; 3]%nat
              valid_sample_request)
    as (t' & Hread & Hrest & _).
  - vm_compute. reflexivity.
  - reflexivity.
  - reflexivity.
  - reflexivity.
  - reflexivity.
  - unfold sizeof_header. lia.
  - repeat constructor.
  - vm_compute. lia.
  - exists t'. split; assumption.
Defined.

(** The first [ReadFile] transfers five bytes of the header. *)
Lemma pipe_read_short_header_witness :
  let m := make_message 7 request simple_sum_id simple_sum_args in
  let t := {| pipe.pipe := true;
              pipe.in_pipe := header_bytes m 8 ++ simple_sum_args;
              pipe.transfers := [5; 7; 8]%nat;
              pipe.written := [] |} in
  pipe.read false t = Some (Hresult_error E_INVALIDARG).
Proof.
  intros m t.
  apply (pipe_read_short_header false t 5 [7; 8]%nat).
  - reflexivity.
  - discriminate.
  - reflexivity.
  - vm_compute. lia.
Defined.

(** Window 1 sends the request to window 2, which expects window 1. *)
Lemma on_copydata_written_witness :
  let m := make_message 7 request simple_sum_id simple_sum_args in
  let sender := {| copydata.other_party := 2; copydata.this_party := 1;
                   copydata.sync_write := false; copydata.input_queue := [] |} in
  let receiver := {| copydata.other_party := 1; copydata.this_party := 2;
                     copydata.sync_write := false; copydata.input_queue := [] |} in
  valid_message m /\
  copydata.on_copydata false 64 (copydata.write m sender) receiver
  = Returned (true,
              {| copydata.other_party := 1; copydata.this_party := 2;
                 copydata.sync_write := false; copydata.input_queue := [m] |}).
Proof.
  intros m sender receiver.
  split; [exact valid_sample_request|].
  apply (on_copydata_written false 64 m sender receiver valid_sample_request).
  - vm_compute. reflexivity.
  - lia.
  - right. reflexivity.
Defined.

(** The structure window 1 sends for the request, taken by a transport
    that expects no particular sender. *)
Lemma on_copydata_checks_size_witness :
  let m := make_message 7 request simple_sum_id simple_sum_args in
  let sender := {| copydata.other_party := 2; copydata.this_party := 1;
                   copydata.sync_write := false; copydata.input_queue := [] |} in
  let t := {| copydata.other_party := 0; copydata.this_party := 2;
              copydata.sync_write := false; copydata.input_queue := [] |} in
  let t' := {| copydata.other_party := 0; copydata.this_party := 2;
               copydata.sync_write := false; copydata.input_queue := [m] |} in
  let cs := copydata.lParam (copydata.write m sender) in
  Z.of_nat (length (copydata.lpData cs)) = copydata.cbData cs /\
  copydata.on_copydata_from false 64 1 cs t = Returned (true, t') /\
  copydata.dwData cs = copydata.CALL_ID /\
  exists m',
    copydata.input_queue t' = copydata.input_queue t ++ [m'] /\
    payload m' = drop sizeof_header (copydata.lpData cs) /\
    Z.of_nat (length (payload m')) = payload_size_of (copydata.lpData cs) /\
    Z.of_nat (length (payload m')) + 12 = copydata.cbData cs.
Proof.
  intros m sender t t' cs.
  split; [reflexivity|]. split; [reflexivity|].
  apply (on_copydata_checks_size false 64 1 cs t t' true).
  - lia.
  - reflexivity.
  - reflexivity.
Defined.

(** *** to_integer *)

Section Sockets.
Import sockets.

Lemma int_in_range (z : Z) : - 2 ^ 31 <= z < 2 ^ 31 -> int z = Returned z.
Proof.
  intros H. unfold int.
  destruct (Z.leb_spec (- 2 ^ 31) z); [|lia].
  destruct (Z.ltb_spec z (2 ^ 31)); [|lia]. reflexivity.
Qed.

Lemma of_uint_acc_le (d : Decimal.uint) :
  forall acc, (acc <= Nat.of_uint_acc d acc)%nat.
Proof.
  induction d as [|d IH|d IH|d IH|d IH|d IH|d IH|d IH|d IH|d IH|d IH];
    intros acc; cbn [Nat.of_uint_acc]; [lia|..];
    match goal with
    | |- (_ <= Nat.of_uint_acc d ?a)%nat =>
        specialize (IH a); rewrite Nat.tail_mul_spec in *; lia
    end.
Qed.

Lemma to_integer_digit (k acc : Z) (rest : list Z) :
  0 <= k <= 9 -> 0 <= acc -> acc * 10 + 57 < 2 ^ 31 ->
  to_integer_loop acc ((48 + k) :: rest) = to_integer_loop (acc * 10 + k) rest.
Proof.
  intros Hk Hacc Hmax. cbn [to_integer_loop].
  destruct (Z.leb_spec 48 (48 + k)); [|lia].
  destruct (Z.leb_spec (48 + k) 57); [|lia]. cbn [andb].
  rewrite (int_in_range (acc * 10)) by lia. cbn [outcome_bind].
  rewrite (int_in_range (acc * 10 + (48 + k))) by lia. cbn [outcome_bind].
  rewrite (int_in_range (acc * 10 + (48 + k) - 48)) by lia. cbn [outcome_bind].
  f_equal. lia.
Qed.

Lemma to_integer_loop_numeral (d : Decimal.uint) :
  forall (acc : nat) (rest : list Z),
    Z.of_nat (Nat.of_uint_acc d acc) + 57 < 2 ^ 31 ->
    to_integer_loop (Z.of_nat acc) (numeral d ++ rest)
    = to_integer_loop (Z.of_nat (Nat.of_uint_acc d acc)) rest.
Proof.
  induction d as [|d IH|d IH|d IH|d IH|d IH|d IH|d IH|d IH|d IH|d IH];
    intros acc rest Hmax; cbn [Nat.of_uint_acc numeral app] in *;
    [reflexivity|..];
    match goal with
    | H : Z.of_nat (Nat.of_uint_acc d ?a) + 57 < _
      |- to_integer_loop _ (?c :: _) = _ =>
        pose proof (of_uint_acc_le d a) as Hle;
        pose proof (Nat.tail_mul_spec 10 acc) as Hmul;
        rewrite <- (IH a rest H);
        change c with (48 + (c - 48));
        rewrite to_integer_digit by lia;
        f_equal; lia
    end.
Qed.

(** X26.  [to_integer] reads a decimal numeral back.  For every number small
    enough for the arithmetic of the loop to stay within [int], the text
    of its decimal numeral, followed by nothing or by something that does
    not begin with a digit, gives that number: what follows the digits is
    not looked at. *)
Theorem to_integer_numeral (n : nat) (rest : list Z) :
  Z.of_nat n + 57 < 2 ^ 31 ->
  no_digit_first rest ->
  to_integer (numeral (Nat.to_uint n) ++ rest) = Returned (Z.of_nat n).
Proof.
  intros Hmax Hrest. unfold to_integer.
  pose proof (DecimalNat.Unsigned.of_to n) as Hn. unfold Nat.of_uint in Hn.
  change 0 with (Z.of_nat 0).
  rewrite to_integer_loop_numeral by (rewrite Hn; exact Hmax).
  rewrite Hn.
  destruct rest as [|c rest]; [reflexivity|].
  cbn [to_integer_loop]. simpl in Hrest.
  destruct (Z.leb_spec 48 c); destruct (Z.leb_spec c 57); try reflexivity. lia.
Qed.

End Sockets.

(** The port of the sample, 7776, followed by a space. *)
Lemma to_integer_numeral_witness :
  sockets.to_integer (sockets.numeral (Nat.to_uint (Z.to_nat 7776)) ++ [32])
  = Returned 7776.
Proof.
  apply (to_integer_numeral (Z.to_nat 7776) [32]).
  - vm_compute. reflexivity.
  - simpl. lia.
Defined.

End TransportsFacts.
